(** * cursor-api: the wire-protocol adapter, embedded and verified

    A shallow embedding of the protocol core of the cursor-api SDK:

    - [lib/protobuf.ts]: [convertToCursorFormat], [encodeChatMessage],
      [createHexMessage], [decodeResMessage], [parseHexResponse];
    - [core/streaming.ts]: [processChunk], [cleanResponseText] and the pull
      loop of [CursorStream];
    - [resources/chat/completions.ts]: [validateParams] and [create].

    JavaScript strings are sequences of UTF-16 code units ([list N]); byte
    buffers are [list byte].  Functions of the JavaScript runtime and of the
    libraries the code calls (zlib, JSON, Buffer, protobufjs) are either
    modelled after their documentation or taken as section variables. *)

From Stdlib Require Import List NArith ZArith Lia Bool String Ascii.
From Stdlib.Strings Require Import Byte.
Import ListNotations.

Set Implicit Arguments.

(** ** JavaScript strings *)

Module Js.

Definition char16 := N.
Definition jsstring := list char16.

(** A string literal of the source, as code units (ASCII literals only). *)
Definition lit (s : string) : jsstring :=
  map N_of_ascii (list_ascii_of_string s).

(** The double quote, which a literal cannot hold. *)
Definition dquote : jsstring := [34%N].

Fixpoint eqb (a b : jsstring) : bool :=
  match a, b with
  | [], [] => true
  | x :: a', y :: b' => N.eqb x y && eqb a' b'
  | _, _ => false
  end.

(** ECMAScript WhiteSpace and LineTerminator code units: what
    [String.prototype.trim] removes and what the regular expression class
    [\s] matches. *)
Definition isWhiteSpace (c : char16) : bool :=
  (N.leb 9 c && N.leb c 13)
  || N.eqb c 32 || N.eqb c 160 || N.eqb c 5760
  || (N.leb 8192 c && N.leb c 8202)
  || N.eqb c 8232 || N.eqb c 8233 || N.eqb c 8239 || N.eqb c 8287
  || N.eqb c 12288 || N.eqb c 65279.

Fixpoint dropWhile (p : char16 -> bool) (s : jsstring) : jsstring :=
  match s with
  | [] => []
  | c :: s' => if p c then dropWhile p s' else s
  end.

Definition trimStart (s : jsstring) : jsstring := dropWhile isWhiteSpace s.
Definition trimEnd (s : jsstring) : jsstring := rev (dropWhile isWhiteSpace (rev s)).

(** [String.prototype.trim]. *)
Definition trim (s : jsstring) : jsstring := trimEnd (trimStart s).

(** [s || d] on strings: the empty string is falsy. *)
Definition or_else (s d : jsstring) : jsstring :=
  match s with
  | [] => d
  | _ :: _ => s
  end.

(** [String.prototype.startsWith(p)]. *)
Fixpoint startsWith (p s : jsstring) : bool :=
  match p, s with
  | [], _ => true
  | x :: p', y :: s' => N.eqb x y && startsWith p' s'
  | _ :: _, [] => false
  end.

(** [String.prototype.includes(p)]. *)
Fixpoint includes (p s : jsstring) : bool :=
  startsWith p s ||
  match s with
  | [] => false
  | _ :: s' => includes p s'
  end.

(** The text after the first occurrence of [m], [None] when [m] does not
    occur. *)
Fixpoint afterFirst (m s : jsstring) : option jsstring :=
  if startsWith m s then Some (skipn (List.length m) s)
  else match s with
       | [] => None
       | _ :: s' => afterFirst m s'
       end.

(** The text after the last occurrence of [m] (by start position), [None]
    when [m] does not occur. *)
Fixpoint afterLast (m s : jsstring) : option jsstring :=
  match s with
  | [] => if startsWith m [] then Some [] else None
  | _ :: s' =>
      match afterLast m s' with
      | Some r => Some r
      | None => if startsWith m s then Some (skipn (List.length m) s) else None
      end
  end.

End Js.

Import Js.

(** ** core/streaming.ts: cleanResponseText *)

Module Clean.

Definition BEGIN_SYSTEM : jsstring := lit "<|BEGIN_SYSTEM|>".
Definition END_SYSTEM : jsstring := lit "<|END_SYSTEM|>".
Definition BEGIN_USER : jsstring := lit "<|BEGIN_USER|>".
Definition END_USER : jsstring := lit "<|END_USER|>".

(** A regular expression [m1.*?m2.*?...mk] with the [s] flag, tested
    anywhere in the text: the markers occur in this order, without
    overlapping.  The search takes the first occurrence of each marker after
    the previous one. *)
Fixpoint chainTest (ms : list jsstring) (s : jsstring) : bool :=
  match ms with
  | [] => true
  | m :: ms' =>
      match afterFirst m s with
      | Some r => chainTest ms' r
      | None => false
      end
  end.

(** [/<\|BEGIN_SYSTEM\|>.*?<\|END_SYSTEM\|>.*?<\|BEGIN_USER\|>.*?<\|END_USER\|>/s.test(text)] *)
Definition systemPromptRegex_test (text : jsstring) : bool :=
  chainTest [BEGIN_SYSTEM; END_SYSTEM; BEGIN_USER; END_USER] text.

(** [text.replace(/^.*<\|END_USER\|>/s, '')]: the greedy [.*] runs to the
    last occurrence of the marker; the text is unchanged without one. *)
Definition replace_upto_END_USER (text : jsstring) : jsstring :=
  match afterLast END_USER text with
  | Some r => r
  | None => text
  end.

Definition isAsciiLetter (c : char16) : bool :=
  (N.leb 97 c && N.leb c 122) || (N.leb 65 c && N.leb c 90).

(** [text.replace(/^\n[a-zA-Z]?/, '')] *)
Definition replace_leading_newline (text : jsstring) : jsstring :=
  match text with
  | 10%N :: c :: rest => if isAsciiLetter c then rest else c :: rest
  | [10%N] => []
  | _ => text
  end.

(** [text.replace(/\s*\{\}\s*$/, '')]: the match exists when the text, with
    its trailing white space removed, ends in the braces; the leftmost match
    then starts at the white space that precedes them. *)
Definition replace_trailing_braces (text : jsstring) : jsstring :=
  match dropWhile isWhiteSpace (rev text) with
  | 125%N :: 123%N :: r => rev (dropWhile isWhiteSpace r)
  | _ => text
  end.

Definition cleanResponseText (text : jsstring) : jsstring :=
  if eqb (trim text) (lit "{}") || eqb (trim text) [] then []
  else if systemPromptRegex_test text then []
  else
    let text := replace_upto_END_USER text in
    let text := trim (replace_leading_newline text) in
    let text := trim (replace_trailing_braces text) in
    text.

End Clean.

Import Clean.

(** ** Byte buffers and their hexadecimal rendering *)

Module Bytes.

Definition b2n (b : byte) : N := Byte.to_N b.

Definition n2b (n : N) : byte :=
  match Byte.of_N (n mod 256) with
  | Some b => b
  | None => x00
  end.

(** The digit of a value below sixteen, in lower case. *)
Definition hexDigit (n : N) : char16 :=
  if N.ltb n 10 then (48 + n)%N else (87 + n)%N.

(** [buffer.toString('hex')] *)
Definition toString_hex (bs : list byte) : jsstring :=
  flat_map (fun b => [hexDigit (b2n b / 16); hexDigit (b2n b mod 16)]) bs.

(** The value of a hexadecimal digit, of either case. *)
Definition hexValue (c : char16) : option N :=
  if N.leb 48 c && N.leb c 57 then Some (c - 48)%N
  else if N.leb 97 c && N.leb c 102 then Some (c - 87)%N
  else if N.leb 65 c && N.leb c 70 then Some (c - 55)%N
  else None.

(** [Buffer.from(s, 'hex')]: pairs of digits, up to the first pair that is
    not hexadecimal; an odd last digit is dropped. *)
Fixpoint Buffer_from_hex (s : jsstring) : list byte :=
  match s with
  | a :: b :: rest =>
      match hexValue a, hexValue b with
      | Some x, Some y => n2b (16 * x + y) :: Buffer_from_hex rest
      | _, _ => []
      end
  | _ => []
  end.

(** [s.toUpperCase()] on ASCII; the source applies it to hexadecimal digits
    only. *)
Definition toUpperCase (s : jsstring) : jsstring :=
  map (fun c => if N.leb 97 c && N.leb c 122 then (c - 32)%N else c) s.

(** [n.toString(16)] of a non-negative integer. *)
Fixpoint toString16_aux (fuel : nat) (n : N) (acc : jsstring) : jsstring :=
  match fuel with
  | O => hexDigit (n mod 16) :: acc
  | S f =>
      if N.ltb n 16 then hexDigit n :: acc
      else toString16_aux f (n / 16) (hexDigit (n mod 16) :: acc)
  end.

Definition toString16 (n : N) : jsstring :=
  toString16_aux (N.to_nat (N.log2 n)) n [].

(** [s.padStart(w, '0')] *)
Definition padStart0 (w : nat) (s : jsstring) : jsstring :=
  repeat 48%N (w - List.length s) ++ s.

(** [buffer.readUIntBE(0, buffer.length)]: a buffer read as one big-endian
    integer. *)
Definition readUIntBE (bs : list byte) : N :=
  fold_left (fun acc b => (acc * 256 + b2n b)%N) bs 0%N.

End Bytes.

Import Bytes.

(** ** protobufjs: the Writer and Reader operations the code calls

    Modelled after protobufjs 7 ([writer.js], [writer_buffer.js],
    [reader.js], [reader_buffer.js]).  A writer is the list of bytes it
    holds; a reader is the part of its buffer that is still to be read. *)

Module Pb.

(** [value >>> 0] *)
Definition ToUint32 (value : Z) : N := Z.to_N (value mod 2 ^ 32).

Fixpoint writeVarint (fuel : nat) (val : N) : list byte :=
  match fuel with
  | O => [n2b val]
  | S f =>
      if N.ltb 127 val
      then n2b (N.lor (N.land val 127) 128) :: writeVarint f (N.shiftr val 7)
      else [n2b val]
  end.

(** [writer.uint32(value)]: a value below 2^32 takes at most five bytes. *)
Definition uint32 (value : Z) : list byte := writeVarint 4 (ToUint32 value).

(** [writer.int32(value)]: a negative value is written as the ten bytes of
    its 64-bit two's complement. *)
Definition int32 (value : Z) : list byte :=
  if Z.ltb value 0 then writeVarint 9 (Z.to_N (value mod 2 ^ 64))
  else uint32 value.

Section Strings.

(** The UTF-8 bytes [Buffer] writes for a string. *)
Variable utf8_encode : jsstring -> list byte.

(** [writer.string(value)] *)
Definition string (value : jsstring) : list byte :=
  let bs := utf8_encode value in
  uint32 (Z.of_nat (List.length bs)) ++ bs.

End Strings.

(** [writer.bytes(value)] *)
Definition bytes (value : list byte) : list byte :=
  if N.eqb (ToUint32 (Z.of_nat (List.length value))) 0 then [x00]
  else uint32 (Z.of_nat (List.length value)) ++ value.

(** [writer.fork().ldelim()] with nothing written in between: the length of
    an empty fork. *)
Definition fork_ldelim : list byte := uint32 0.

(** What a read leaves: a value and the rest of the buffer, or an exception
    ([RangeError: index out of range], [Error: invalid wire type]). *)
Inductive read (A : Type) : Type :=
| Got (a : A) (rest : list byte)
| Thrown.
Arguments Thrown {A}.

(** [reader.uint32()].  A byte read past the end is [undefined]: it adds
    nothing to the value and is not below 128, so the reads go on to the
    fifth, and the last bound check throws. *)
Definition read_uint32 (r : list byte) : read N :=
  let cont b := negb (N.ltb (b2n b) 128) in
  let bits b k := N.shiftl (N.land (b2n b) 127) k in
  match r with
  | b0 :: r1 =>
    let v := bits b0 0%N in
    if cont b0 then
      match r1 with
      | b1 :: r2 =>
        let v := N.lor v (bits b1 7%N) in
        if cont b1 then
          match r2 with
          | b2 :: r3 =>
            let v := N.lor v (bits b2 14%N) in
            if cont b2 then
              match r3 with
              | b3 :: r4 =>
                let v := N.lor v (bits b3 21%N) in
                if cont b3 then
                  match r4 with
                  | b4 :: r5 =>
                    let v := N.lor v (N.shiftl (N.land (b2n b4) 15) 28) in
                    if cont b4 then
                      if Nat.ltb (List.length r5) 5 then Thrown
                      else Got v (skipn 5 r5)
                    else Got v r5
                  | [] => Thrown
                  end
                else Got v r4
              | [] => Thrown
              end
            else Got v r3
          | [] => Thrown
          end
        else Got v r2
      | [] => Thrown
      end
    else Got v r1
  | [] => Thrown
  end.

(** [reader.skip(length)] *)
Definition skip (length : N) (r : list byte) : read unit :=
  if N.ltb (N.of_nat (List.length r)) length then Thrown
  else Got tt (skipn (N.to_nat length) r).

(** [reader.skip()]: to the end of a varint. *)
Fixpoint skip_varint (r : list byte) : read unit :=
  match r with
  | [] => Thrown
  | b :: r' => if N.testbit (b2n b) 7 then skip_varint r' else Got tt r'
  end.

(** [reader.skipType(wireType)].  Skipping a group is a loop: a tag, the
    end of the group when its wire type is 4, else the field is skipped and
    the loop goes on, which is skipping a group from there.  Each call
    reads at least one byte; [None] when the fuel runs out. *)
Fixpoint skipType (fuel : nat) (wireType : N) (r : list byte) : option (read unit) :=
  match wireType with
  | 0%N => Some (skip_varint r)
  | 1%N => Some (skip 8 r)
  | 2%N =>
      match read_uint32 r with
      | Got n r' => Some (skip n r')
      | Thrown => Some Thrown
      end
  | 3%N =>
      match fuel with
      | O => None
      | S f =>
          match read_uint32 r with
          | Got tag r' =>
              let w := N.land tag 7 in
              if N.eqb w 4 then Some (Got tt r')
              else match skipType f w r' with
                   | Some (Got _ r'') => skipType f 3 r''
                   | other => other
                   end
          | Thrown => Some Thrown
          end
      end
  | 5%N => Some (skip 4 r)
  | _ => Some Thrown
  end.

Section Strings.

(** [buffer.toString('utf-8')] and [buffer.utf8Slice]. *)
Variable utf8_decode : list byte -> jsstring.

(** [reader.string()].  A reader over a Node [Buffer] ([BufferReader])
    clamps the length to the end of the buffer; a reader over a plain
    [Uint8Array] throws when the length runs past it. *)
Definition read_string (isBuffer : bool) (r : list byte) : read jsstring :=
  match read_uint32 r with
  | Got n r' =>
      if negb isBuffer && N.ltb (N.of_nat (List.length r')) n then Thrown
      else Got (utf8_decode (firstn (N.to_nat n) r')) (skipn (N.to_nat n) r')
  | Thrown => Thrown
  end.

End Strings.

End Pb.

(** ** types/chat.ts *)

Module OpenAI.

Record ChatMessage : Type := { role : jsstring; content : jsstring }.

End OpenAI.

(** ** lib/protobuf.ts *)

Module Wire.

Record IChatMessage_UserMessage : Type := {
  content : option jsstring;
  role : option Z;
  messageId : option jsstring }.

Record IChatMessage_Instructions : Type := { instruction : option jsstring }.

Record IChatMessage_Model : Type := {
  name : option jsstring;
  empty : option jsstring }.

Record IChatMessage : Type := {
  messages : option (list IChatMessage_UserMessage);
  instructions : option IChatMessage_Instructions;
  projectPath : option jsstring;
  model : option IChatMessage_Model;
  requestId : option jsstring;
  summary : option jsstring;
  conversationId : option jsstring }.

Record IResMessage : Type := { msg : option jsstring }.

Section Requests.

(** [uuidv4()]: the identifiers the generator returns, by the number of the
    call; the functions below thread that number. *)
Variable uuidv4 : nat -> jsstring.

Variable utf8_encode : jsstring -> list byte.

Definition user_role (r : jsstring) : Z :=
  if eqb r (lit "user") then 1%Z else 2%Z.

Fixpoint formatMessages (ms : list OpenAI.ChatMessage) (k : nat)
  : list IChatMessage_UserMessage :=
  match ms with
  | [] => []
  | m :: ms' =>
      {| content := Some (OpenAI.content m);
         role := Some (user_role (OpenAI.role m));
         messageId := Some (uuidv4 k) |} :: formatMessages ms' (S k)
  end.

Definition convertToCursorFormat (ms : list OpenAI.ChatMessage)
    (modelName : jsstring) (k : nat) : IChatMessage * nat :=
  let n := List.length ms in
  ({| messages := Some (formatMessages ms k);
      instructions :=
        Some {| instruction :=
                  Some (lit "Always respond in the user's preferred language") |};
      projectPath := Some (lit "/cursor-sdk-project");
      model := Some {| name := Some modelName; empty := Some [] |};
      requestId := Some (uuidv4 (k + n));
      summary := Some [];
      conversationId := Some (uuidv4 (k + n + 1)) |},
   (k + n + 2)%nat).

(** A field that is written when it is not null. *)
Definition field {A : Type} (v : option A) (enc : A -> list byte) : list byte :=
  match v with
  | Some a => enc a
  | None => []
  end.

Definition string_field (tag : Z) (v : option jsstring) : list byte :=
  field v (fun s => Pb.uint32 tag ++ Pb.string utf8_encode s).

(** The body of one message: what [msgWriter.finish()] returns. *)
Definition encodeUserMessage (m : IChatMessage_UserMessage) : list byte :=
  string_field 10 (content m)
  ++ field (role m) (fun r => Pb.uint32 16 ++ Pb.int32 r)
  ++ string_field 106 (messageId m).

(** What the loop writes for one message: [writer.uint32(18).fork().ldelim()]
    and then [writer.uint32(18).bytes(msgWriter.finish())]. *)
Definition writeUserMessage (m : IChatMessage_UserMessage) : list byte :=
  Pb.uint32 18 ++ Pb.fork_ldelim
  ++ Pb.uint32 18 ++ Pb.bytes (encodeUserMessage m).

Definition encodeChatMessage (message : IChatMessage) : list byte :=
  field (messages message) (flat_map writeUserMessage)
  ++ field (instructions message)
       (fun i => Pb.uint32 34 ++ Pb.bytes (string_field 10 (instruction i)))
  ++ string_field 42 (projectPath message)
  ++ field (model message)
       (fun m => Pb.uint32 58
                 ++ Pb.bytes (string_field 10 (name m) ++ string_field 34 (empty m)))
  ++ string_field 74 (requestId message)
  ++ string_field 90 (summary message)
  ++ string_field 122 (conversationId message).

Definition createHexMessage (ms : list OpenAI.ChatMessage)
    (modelName : jsstring) (k : nat) : list byte * nat :=
  let (cursorMessage, k') := convertToCursorFormat ms modelName k in
  let buffer := encodeChatMessage cursorMessage in
  let hexString :=
    toUpperCase (padStart0 10 (toString16 (N.of_nat (List.length buffer)))
                 ++ toString_hex buffer) in
  (Buffer_from_hex hexString, k').

End Requests.

Section Responses.

Variable utf8_decode : list byte -> jsstring.

(** The loop of [decodeResMessage]; [None] when the fuel runs out. *)
Fixpoint decodeLoop (fuel : nat) (isBuffer : bool) (r : list byte)
    (message : IResMessage) : option (Pb.read IResMessage) :=
  match fuel with
  | O => None
  | S f =>
      match r with
      | [] => Some (Pb.Got message [])
      | _ :: _ =>
          match Pb.read_uint32 r with
          | Pb.Got tag r' =>
              if N.eqb (N.shiftr tag 3) 1 then
                match Pb.read_string utf8_decode isBuffer r' with
                | Pb.Got s r'' => decodeLoop f isBuffer r'' {| msg := Some s |}
                | Pb.Thrown => Some Pb.Thrown
                end
              else
                match Pb.skipType (S (List.length r')) (N.land tag 7) r' with
                | Some (Pb.Got _ r'') => decodeLoop f isBuffer r'' message
                | Some Pb.Thrown => Some Pb.Thrown
                | None => None
                end
          | Pb.Thrown => Some Pb.Thrown
          end
      end
  end.

(** [decodeResMessage(buffer)]: the message, or [None] when the decoding
    throws.  [isBuffer] tells whether the argument is a Node [Buffer]. *)
Definition decodeResMessage (isBuffer : bool) (buffer : list byte)
  : option (option IResMessage) :=
  match decodeLoop (S (List.length buffer)) isBuffer buffer {| msg := None |} with
  | Some (Pb.Got m _) => Some (Some m)
  | Some Pb.Thrown => Some None
  | None => None
  end.

(** [s.slice(start, end)] *)
Definition slice (s : jsstring) (start stop : Z) : jsstring :=
  let len := Z.of_nat (List.length s) in
  let clamp i := if Z.ltb i 0 then Z.max (len + i) 0 else Z.min i len in
  let from := clamp start in
  let to := clamp stop in
  firstn (Z.to_nat (to - from)) (skipn (Z.to_nat from) s).

Fixpoint hexPrefixValue (s : jsstring) (acc : option Z) : option Z :=
  match s with
  | c :: s' =>
      match hexValue c with
      | Some v =>
          hexPrefixValue s'
            (Some (match acc with Some a => a * 16 | None => 0 end + Z.of_N v)%Z)
      | None => acc
      end
  | [] => acc
  end.

(** [parseInt(s, 16)]; [None] is [NaN]. *)
Definition parseInt16 (s : jsstring) : option Z :=
  let s := trimStart s in
  let (sign, s) :=
    match s with
    | 45%N :: s' => ((-1)%Z, s')
    | 43%N :: s' => (1%Z, s')
    | _ => (1%Z, s)
    end in
  let s :=
    match s with
    | 48%N :: 120%N :: s' => s'
    | 48%N :: 88%N :: s' => s'
    | _ => s
    end in
  option_map (Z.mul sign) (hexPrefixValue s None).

(** The body of the [try] block: the text of a decoded message is kept when
    it is not empty; a message that fails to decode is left out. *)
Definition collect (decoded : option IResMessage) (results : list jsstring)
  : list jsstring :=
  match decoded with
  | Some {| msg := Some ((_ :: _) as text) |} => results ++ [text]
  | _ => results
  end.

(** The loop of [parseHexResponse]; [None] when the fuel runs out. *)
Fixpoint parseLoop (fuel : nat) (hex : jsstring) (offset : Z)
    (results : list jsstring) : option (list jsstring) :=
  match fuel with
  | O => None
  | S f =>
      let len := Z.of_nat (List.length hex) in
      if negb (Z.ltb offset len) then Some results
      else if Z.ltb len (offset + 10) then Some results
      else
        match parseInt16 (slice hex offset (offset + 10)) with
        | None =>
            (* NaN: the message is empty, and the offset, NaN from here on,
               ends the loop *)
            option_map (fun d => collect d results)
                       (decodeResMessage true (Buffer_from_hex []))
        | Some dataLength =>
            let offset := (offset + 10)%Z in
            if Z.ltb len (offset + dataLength * 2) then Some results
            else
              let messageHex := slice hex offset (offset + dataLength * 2) in
              let offset := (offset + dataLength * 2)%Z in
              match decodeResMessage true (Buffer_from_hex messageHex) with
              | Some d => parseLoop f hex offset (collect d results)
              | None => None
              end
        end
  end.

(** [parseHexResponse(hex)], run for at most [fuel] turns of its loop. *)
Definition parseHexResponse (fuel : nat) (hex : jsstring) : option (list jsstring) :=
  parseLoop fuel hex 0 [].

End Responses.

End Wire.

(** ** The mirror decoder of the request schema *)

Module Mirror.

Import Wire.

Section Decoder.

Variable utf8_decode : list byte -> jsstring.

(** [reader.bytes()] of a reader over a plain array. *)
Definition read_bytes (r : list byte) : Pb.read (list byte) :=
  match Pb.read_uint32 r with
  | Pb.Got n r' =>
      if N.ltb (N.of_nat (List.length r')) n then Pb.Thrown
      else Pb.Got (firstn (N.to_nat n) r') (skipn (N.to_nat n) r')
  | Pb.Thrown => Pb.Thrown
  end.

(** [reader.int32()]: [reader.uint32() | 0]. *)
Definition read_int32 (r : list byte) : Pb.read Z :=
  match Pb.read_uint32 r with
  | Pb.Got n r' =>
      Pb.Got (if N.ltb n (2 ^ 31) then Z.of_N n else Z.of_N n - 2 ^ 32)%Z r'
  | Pb.Thrown => Pb.Thrown
  end.

(** The loop of a generated [decode]: a tag, then the field it names. *)
Fixpoint fields {A : Type} (fuel : nat)
    (field : N -> list byte -> A -> option (Pb.read A))
    (r : list byte) (a : A) : option (Pb.read A) :=
  match fuel with
  | O => None
  | S f =>
      match r with
      | [] => Some (Pb.Got a [])
      | _ :: _ =>
          match Pb.read_uint32 r with
          | Pb.Got tag r' =>
              match field tag r' a with
              | Some (Pb.Got a' r'') => fields f field r'' a'
              | other => other
              end
          | Pb.Thrown => Some Pb.Thrown
          end
      end
  end.

Definition set {A B : Type} (x : Pb.read B) (put : B -> A) : option (Pb.read A) :=
  Some match x with
       | Pb.Got b r => Pb.Got (put b) r
       | Pb.Thrown => Pb.Thrown
       end.

Definition unknown {A : Type} (tag : N) (r : list byte) (a : A) : option (Pb.read A) :=
  match Pb.skipType (S (List.length r)) (N.land tag 7) r with
  | Some (Pb.Got _ r') => Some (Pb.Got a r')
  | Some Pb.Thrown => Some Pb.Thrown
  | None => None
  end.

(** A nested message: its bytes, decoded by [inner] from [init]. *)
Definition nested {A B : Type} (inner : N -> list byte -> B -> option (Pb.read B))
    (init : B) (put : B -> A) (r : list byte) : option (Pb.read A) :=
  match read_bytes r with
  | Pb.Got body r' =>
      match fields (S (List.length body)) inner body init with
      | Some (Pb.Got b _) => Some (Pb.Got (put b) r')
      | Some Pb.Thrown => Some Pb.Thrown
      | None => None
      end
  | Pb.Thrown => Some Pb.Thrown
  end.

Definition string_of (r : list byte) : Pb.read jsstring :=
  Pb.read_string utf8_decode false r.

(** [UserMessage]: content 1, role 2, messageId 13. *)
Definition userMessage_field (tag : N) (r : list byte)
    (m : IChatMessage_UserMessage) : option (Pb.read IChatMessage_UserMessage) :=
  match N.shiftr tag 3 with
  | 1%N => set (string_of r)
             (fun s => {| content := Some s; role := role m; messageId := messageId m |})
  | 2%N => set (read_int32 r)
             (fun z => {| content := content m; role := Some z; messageId := messageId m |})
  | 13%N => set (string_of r)
              (fun s => {| content := content m; role := role m; messageId := Some s |})
  | _ => unknown tag r m
  end.

(** [Instructions]: instruction 1. *)
Definition instructions_field (tag : N) (r : list byte)
    (i : IChatMessage_Instructions) : option (Pb.read IChatMessage_Instructions) :=
  match N.shiftr tag 3 with
  | 1%N => set (string_of r) (fun s => {| instruction := Some s |})
  | _ => unknown tag r i
  end.

(** [Model]: name 1, empty 4. *)
Definition model_field (tag : N) (r : list byte)
    (m : IChatMessage_Model) : option (Pb.read IChatMessage_Model) :=
  match N.shiftr tag 3 with
  | 1%N => set (string_of r) (fun s => {| name := Some s; empty := empty m |})
  | 4%N => set (string_of r) (fun s => {| name := name m; empty := Some s |})
  | _ => unknown tag r m
  end.

Definition with_messages (c : IChatMessage) (f : list IChatMessage_UserMessage -> list IChatMessage_UserMessage) : IChatMessage :=
  {| messages := Some (f (match messages c with Some l => l | None => [] end));
     instructions := instructions c; projectPath := projectPath c;
     model := model c; requestId := requestId c; summary := summary c;
     conversationId := conversationId c |}.

(** [ChatMessage]: messages 2 (repeated), instructions 4, projectPath 5,
    model 7, requestId 9, summary 11, conversationId 15. *)
Definition chatMessage_field (tag : N) (r : list byte) (c : IChatMessage)
  : option (Pb.read IChatMessage) :=
  match N.shiftr tag 3 with
  | 2%N =>
      nested userMessage_field
        {| content := None; role := None; messageId := None |}
        (fun m => with_messages c (fun l => l ++ [m])) r
  | 4%N =>
      nested instructions_field {| instruction := None |}
        (fun i => {| messages := messages c; instructions := Some i;
                     projectPath := projectPath c; model := model c;
                     requestId := requestId c; summary := summary c;
                     conversationId := conversationId c |}) r
  | 5%N =>
      set (string_of r)
        (fun s => {| messages := messages c; instructions := instructions c;
                     projectPath := Some s; model := model c;
                     requestId := requestId c; summary := summary c;
                     conversationId := conversationId c |})
  | 7%N =>
      nested model_field {| name := None; empty := None |}
        (fun m => {| messages := messages c; instructions := instructions c;
                     projectPath := projectPath c; model := Some m;
                     requestId := requestId c; summary := summary c;
                     conversationId := conversationId c |}) r
  | 9%N =>
      set (string_of r)
        (fun s => {| messages := messages c; instructions := instructions c;
                     projectPath := projectPath c; model := model c;
                     requestId := Some s; summary := summary c;
                     conversationId := conversationId c |})
  | 11%N =>
      set (string_of r)
        (fun s => {| messages := messages c; instructions := instructions c;
                     projectPath := projectPath c; model := model c;
                     requestId := requestId c; summary := Some s;
                     conversationId := conversationId c |})
  | 15%N =>
      set (string_of r)
        (fun s => {| messages := messages c; instructions := instructions c;
                     projectPath := projectPath c; model := model c;
                     requestId := requestId c; summary := summary c;
                     conversationId := Some s |})
  | _ => unknown tag r c
  end.

(** Modelled from the spec: the mirror decoder of the Message Schema
    Adapter, which the repository's tests do not hold.  It reads a payload
    by the schema of the adapter ([proto/message.proto]) the way a decoder
    generated by protobufjs does, skipping the fields it does not know;
    [None] when it throws or runs out of fuel. *)
Definition decodeChatMessage (payload : list byte) : option IChatMessage :=
  match
    fields (S (List.length payload)) chatMessage_field payload
      {| messages := Some []; instructions := None; projectPath := None;
         model := None; requestId := None; summary := None;
         conversationId := None |}
  with
  | Some (Pb.Got c _) => Some c
  | _ => None
  end.

End Decoder.

End Mirror.

(** ** JSON values *)

Module Json.

(** A value that [JSON.parse] returns.  A number is kept as the exact
    decimal of its text, [(-1)^negative * mantissa * 10^exponent]; the
    runtime rounds it to the nearest double. *)
#[local] Unset Elimination Schemes.

Inductive JSON : Type :=
| JNull
| JBool (b : bool)
| JNumber (negative : bool) (mantissa : N) (exponent : Z)
| JString (s : jsstring)
| JArray (elements : list JSON)
| JObject (members : list (jsstring * JSON)).

#[local] Set Elimination Schemes.

(** The number rounds to zero: it is zero, or at most 2^-1075, half the
    least positive double (a tie goes to the even neighbour, zero). *)
Definition rounds_to_zero (mantissa : N) (exponent : Z) : bool :=
  if Z.leb 0 exponent then N.eqb mantissa 0
  else N.leb (mantissa * 2 ^ 1075) (10 ^ Z.to_N (- exponent)).

(** [ToBoolean]: what [if (v)] tests. *)
Definition to_boolean (v : JSON) : bool :=
  match v with
  | JNull => false
  | JBool b => b
  | JNumber _ m e => negb (rounds_to_zero m e)
  | JString s => negb (eqb s [])
  | JArray _ => true
  | JObject _ => true
  end.

(** The value of a property of a parsed object: that of the last member of
    that name. *)
Fixpoint lookup (key : jsstring) (members : list (jsstring * JSON)) : option JSON :=
  match members with
  | [] => None
  | (k, v) :: rest =>
      match lookup key rest with
      | Some v' => Some v'
      | None => if eqb k key then Some v else None
      end
  end.

(** [parsed.error], [None] for [undefined].  Reading a property of [null]
    throws a [TypeError], which the caller below catches and drops like a
    missing property. *)
Definition get_error (parsed : JSON) : option JSON :=
  match parsed with
  | JObject members => lookup (lit "error") members
  | _ => None
  end.

End Json.

Import Json.

(** ** core/streaming.ts: processChunk *)

Module Streaming.

(** How a call ends: it returns, it throws an [Error] with a message, or it
    never returns. *)
Inductive completion (A : Type) : Type :=
| Return (a : A)
| Throw (message : jsstring)
| Hang.
Arguments Throw {A} message.
Arguments Hang {A}.

Section Runtime.

(** [buffer.toString('utf-8')] *)
Variable utf8_decode : list byte -> jsstring.

(** [zlib.gunzip]: the decompressed bytes, [None] when it reports an
    error. *)
Variable gunzip : list byte -> option (list byte).

(** [JSON.parse]: the value, or the message of the [SyntaxError]. *)
Variable JSON_parse : jsstring -> JSON + jsstring.

(** [JSON.stringify] *)
Variable JSON_stringify : JSON -> jsstring.

Definition is_byte (b : option byte) (v : byte) : bool :=
  match b with
  | Some x => Byte.eqb x v
  | None => false
  end.

(** [b[0] === 0x1f && b[1] === 0x8b] *)
Definition gzip_magic (b : list byte) : bool :=
  is_byte (nth_error b 0) x1f && is_byte (nth_error b 1) x8b.

(** [b[0] === v && b[1] === 0x00 && b[2] === 0x00] *)
Definition header_magic (v : byte) (b : list byte) : bool :=
  is_byte (nth_error b 0) v && is_byte (nth_error b 1) x00
  && is_byte (nth_error b 2) x00.

(** [decompressGzipData(data)]: the text, [None] when the promise is
    rejected. *)
Definition decompressGzipData (data : list byte) : option jsstring :=
  option_map utf8_decode (gunzip data).

(** [text.match(/\{[^]*?\}/)]: from the first opening brace to the first
    closing brace after it. *)
Fixpoint upto_closing_brace (s : jsstring) : option jsstring :=
  match s with
  | [] => None
  | c :: s' =>
      if N.eqb c 125 then Some [c]
      else option_map (cons c) (upto_closing_brace s')
  end.

Fixpoint match_braces (text : jsstring) : option jsstring :=
  match text with
  | [] => None
  | c :: text' =>
      if N.eqb c 123 then option_map (cons c) (upto_closing_brace text')
      else match_braces text'
  end.

Definition error_marker : jsstring := lit "{" ++ dquote ++ lit "error" ++ dquote.

(** What the inner [try] block throws, [None] when it throws nothing: the
    API error, or the [SyntaxError] of [JSON.parse]. *)
Definition error_check (jsonMatch : jsstring) : option jsstring :=
  match JSON_parse jsonMatch with
  | inl parsed =>
      match get_error parsed with
      | Some err =>
          if to_boolean err then
            Some (lit "API Error: "
                  ++ or_else (JSON_stringify err) (lit "Unknown error"))
          else None
      | None => None
      end
  | inr message => Some message
  end.

(** The check for a JSON error response: the message of the error it lets
    out, [None] when it passes.  The inner [catch] throws again what starts
    with [API Error:] and drops the rest. *)
Definition error_response (text : jsstring) : option jsstring :=
  if includes error_marker text then
    match match_braces text with
    | Some jsonMatch =>
        match error_check jsonMatch with
        | Some message =>
            if startsWith (lit "API Error:") message then Some message else None
        | None => None
        end
    | None => None
    end
  else None.

(** A chunk that is gzip data: the cleaned text, the empty string when the
    decompression fails. *)
Definition gzip_text (data : list byte) : jsstring :=
  match decompressGzipData data with
  | Some decompressed => cleanResponseText decompressed
  | None => []
  end.

(** The end of the outer [try], for a chunk without a header: gzip data,
    framed messages, or plain text. *)
Definition processChunk_rest (chunk : list byte) : completion jsstring :=
  if gzip_magic chunk then Return (gzip_text chunk)
  else
    match Wire.parseHexResponse utf8_decode (S (List.length chunk))
            (toString_hex chunk) with
    | Some [] => Return (cleanResponseText (utf8_decode chunk))
    | Some messages => Return (List.concat messages)
    | None => Hang
    end.

(** The body of the outer [try]. *)
Definition processChunk_body (chunk : list byte) : completion jsstring :=
  if Nat.ltb 5 (List.length chunk) then
    let headerSize :=
      if header_magic x01 chunk then 5%nat
      else if header_magic x02 chunk then 5%nat
      else 0%nat in
    let payload := skipn headerSize chunk in
    if gzip_magic payload then Return (gzip_text payload)
    else if Nat.ltb 0 headerSize then
      let text := utf8_decode payload in
      match error_response text with
      | Some message => Throw message
      | None => Return (cleanResponseText text)
      end
    else processChunk_rest chunk
  else processChunk_rest chunk.

(** [c >= 0x00 && c <= 0x1F || c >= 0x7F && c <= 0x9F || c === 0xFFFD] *)
Definition isControl (c : char16) : bool :=
  N.leb c 31 || (N.leb 127 c && N.leb c 159) || N.eqb c 65533.

Definition processChunk (chunk : list byte) : completion jsstring :=
  match processChunk_body chunk with
  | Throw message =>
      if startsWith (lit "API Error:") message then Throw message
      else
        let fallbackText := utf8_decode chunk in
        Return (trim (filter (fun c => negb (isControl c)) fallbackText))
  | other => other
  end.

End Runtime.

End Streaming.

(** ** core/streaming.ts: CursorStream *)

Module Stream.

Import Streaming.

Record ChatCompletionChunkDelta : Type := { content : option jsstring }.

Record ChatCompletionChunkChoice : Type := {
  index : Z;
  delta : ChatCompletionChunkDelta;
  finish_reason : option jsstring }.

Record ChatCompletionChunk : Type := {
  id : jsstring;
  object : jsstring;
  created : Z;
  model : jsstring;
  choices : list ChatCompletionChunkChoice }.

(** *** The controller of the readable stream

    After the Streams Standard.  [queue] holds the chunks that wait for the
    consumer; [emitted] records every chunk that [enqueue] accepted, in
    order, which the runtime does not keep: it is there for the properties
    of the stream. *)

Inductive StreamState : Type :=
| Readable
| Closed
| Errored (error : jsstring).

Record Controller : Type := {
  queue : list ChatCompletionChunk;
  emitted : list ChatCompletionChunk;
  closeRequested : bool;
  state : StreamState }.

Definition fresh : Controller :=
  {| queue := []; emitted := []; closeRequested := false; state := Readable |}.

(** [ReadableStreamDefaultControllerCanCloseOrEnqueue] *)
Definition canCloseOrEnqueue (c : Controller) : bool :=
  negb (closeRequested c)
  && match state c with Readable => true | _ => false end.

Definition invalid_state : jsstring := lit "Invalid state: Controller is already closed".

(** [controller.enqueue(chunk)]: the controller after it, or the message of
    the [TypeError] it throws. *)
Definition enqueue (chunk : ChatCompletionChunk) (c : Controller)
  : Controller + jsstring :=
  if canCloseOrEnqueue c then
    inl {| queue := queue c ++ [chunk]; emitted := emitted c ++ [chunk];
           closeRequested := closeRequested c; state := state c |}
  else inr invalid_state.

(** [controller.close()]: the stream is closed once its queue is empty. *)
Definition close (c : Controller) : Controller + jsstring :=
  if canCloseOrEnqueue c then
    inl {| queue := queue c; emitted := emitted c; closeRequested := true;
           state := match queue c with [] => Closed | _ => state c end |}
  else inr invalid_state.

(** [controller.error(e)]: nothing unless the stream is readable; the
    chunks that wait are dropped. *)
Definition error (e : jsstring) (c : Controller) : Controller :=
  match state c with
  | Readable =>
      {| queue := []; emitted := emitted c; closeRequested := closeRequested c;
         state := Errored e |}
  | _ => c
  end.

(** What a [read()] of the consumer gets. *)
Inductive ReadOutcome : Type :=
| Chunk (value : ChatCompletionChunk)
| EndOfStream
| Failure (error : jsstring)
| Waiting.

(** [reader.read()] on the stream: the next chunk that waits; with none,
    the end of a closed stream, the error of an errored one, or a wait for
    the next [pull]. *)
Definition read (c : Controller) : ReadOutcome * Controller :=
  match queue c with
  | chunk :: q =>
      (Chunk chunk,
       {| queue := q; emitted := emitted c; closeRequested := closeRequested c;
          state := match q with
                   | [] => if closeRequested c then Closed else state c
                   | _ => state c
                   end |})
  | [] =>
      (match state c with
       | Readable => Waiting
       | Closed => EndOfStream
       | Errored e => Failure e
       end, c)
  end.

(** [ReadableStreamDefaultControllerShouldCallPull], for the default
    strategy (a high-water mark of one chunk): the runtime calls [pull] only
    while the stream is open and no chunk waits. *)
Definition shouldCallPull (c : Controller) : bool :=
  canCloseOrEnqueue c && match queue c with [] => true | _ => false end.

(** *** The stream *)

Record CursorStream : Type := {
  responseId : jsstring;
  stream_model : jsstring;
  done : bool;
  lastActivity : Z;
  chunkCount : nat;
  emptyChunkCount : nat;
  controller : Controller }.

Definition idleTimeout : Z := 10000.

(** [new CursorStream(response, responseId, model)], its stream started at
    the time [now]. *)
Definition create (responseId model : jsstring) (now : Z) : CursorStream :=
  {| responseId := responseId; stream_model := model; done := false;
     lastActivity := now; chunkCount := 0; emptyChunkCount := 0;
     controller := fresh |}.

Definition with_controller (s : CursorStream) (c : Controller) : CursorStream :=
  {| responseId := responseId s; stream_model := stream_model s; done := done s;
     lastActivity := lastActivity s; chunkCount := chunkCount s;
     emptyChunkCount := emptyChunkCount s; controller := c |}.

Definition with_done (s : CursorStream) : CursorStream :=
  {| responseId := responseId s; stream_model := stream_model s; done := true;
     lastActivity := lastActivity s; chunkCount := chunkCount s;
     emptyChunkCount := emptyChunkCount s; controller := controller s |}.

Definition with_lastActivity (s : CursorStream) (now : Z) : CursorStream :=
  {| responseId := responseId s; stream_model := stream_model s; done := done s;
     lastActivity := now; chunkCount := chunkCount s;
     emptyChunkCount := emptyChunkCount s; controller := controller s |}.

Definition with_counts (s : CursorStream) (chunks empties : nat) : CursorStream :=
  {| responseId := responseId s; stream_model := stream_model s; done := done s;
     lastActivity := lastActivity s; chunkCount := chunks;
     emptyChunkCount := empties; controller := controller s |}.

(** How the body of [pull] ends: it returns, it throws, or it waits for a
    promise that never settles. *)
Inductive attempt : Type :=
| Completed (s : CursorStream)
| Threw (s : CursorStream) (error : jsstring)
| Hung.

Definition content_chunk (s : CursorStream) (now : Z) (text : jsstring)
  : ChatCompletionChunk :=
  {| id := responseId s; object := lit "chat.completion.chunk";
     created := (now / 1000)%Z; model := stream_model s;
     choices := [ {| index := 0; delta := {| content := Some text |};
                     finish_reason := None |} ] |}.

Definition final_chunk (s : CursorStream) (now : Z) : ChatCompletionChunk :=
  {| id := responseId s; object := lit "chat.completion.chunk";
     created := (now / 1000)%Z; model := stream_model s;
     choices := [ {| index := 0; delta := {| content := None |};
                     finish_reason := Some (lit "stop") |} ] |}.

Definition on_controller (s : CursorStream) (r : Controller + jsstring) : attempt :=
  match r with
  | inl c => Completed (with_controller s c)
  | inr e => Threw s e
  end.

(** [enqueueChunk(content)] *)
Definition enqueueChunk (s : CursorStream) (now : Z) (text : jsstring) : attempt :=
  on_controller s (enqueue (content_chunk s now text) (controller s)).

(** [enqueueFinalChunk()] *)
Definition enqueueFinalChunk (s : CursorStream) (now : Z) : attempt :=
  on_controller s (enqueue (final_chunk s now) (controller s)).

(** The end of the stream, as [pull] writes it each time:
    [if (!this.done) { this.enqueueFinalChunk(); this.done = true }
     this.controller.close(); return]. *)
Definition finish (s : CursorStream) (now : Z) : attempt :=
  let closing s := on_controller s (close (controller s)) in
  if done s then closing s
  else
    match enqueueFinalChunk s now with
    | Completed s' => closing (with_done s')
    | other => other
    end.

(** What the race of [reader.read()] with the timer of five seconds
    settles to: the result of one of them, or the error of the read. *)
Record ReadResult : Type := {
  result_done : bool;
  result_value : option (list byte) }.

Inductive Settled : Type :=
| Resolved (result : ReadResult)
| Rejected (error : jsstring).

(** The timer wins. *)
Definition timed_out : Settled :=
  Resolved {| result_done := true; result_value := None |}.

Section Runtime.

Variable utf8_decode : list byte -> jsstring.
Variable gunzip : list byte -> option (list byte).
Variable JSON_parse : jsstring -> JSON + jsstring.
Variable JSON_stringify : JSON -> jsstring.

(** The [try] block of [pull]; [now] is the time the clock shows. *)
Definition pull_body (s : CursorStream) (settled : Settled) (now : Z) : attempt :=
  if done s then on_controller s (close (controller s))
  else
    match settled with
    | Rejected e => Threw s e
    | Resolved result =>
        if result_done result then finish s now
        else
          match result_value result with
          | None =>
              if Nat.ltb 0 (chunkCount s)
                 && Z.ltb idleTimeout (now - lastActivity s)
              then finish s now
              else Completed s
          | Some value =>
              let s := with_lastActivity s now in
              match processChunk utf8_decode gunzip JSON_parse JSON_stringify value with
              | Hang => Hung
              | Throw e => Threw s e
              | Return text =>
                  if Nat.leb 5 (List.length value)
                     && header_magic x02 value
                     && eqb (trim (utf8_decode (skipn 5 value))) (lit "{}")
                  then finish s now
                  else
                    match text with
                    | [] =>
                        let s := with_counts s (chunkCount s) (S (emptyChunkCount s)) in
                        if Nat.ltb 0 (chunkCount s) && Nat.leb 2 (emptyChunkCount s)
                        then finish s now
                        else Completed s
                    | _ :: _ =>
                        let s := with_counts s (chunkCount s) 0 in
                        match enqueueChunk s now text with
                        | Completed s' =>
                            Completed (with_counts s' (S (chunkCount s')) (emptyChunkCount s'))
                        | other => other
                        end
                    end
              end
          end
    end.

(** [pull]: what the body throws goes to [controller.error]; [None] when it
    never returns. *)
Definition pull (s : CursorStream) (settled : Settled) (now : Z) : option CursorStream :=
  match pull_body s settled now with
  | Completed s' => Some s'
  | Threw s' e => Some (with_controller s' (error e (controller s')))
  | Hung => None
  end.

End Runtime.

(** A [read()] of the consumer. *)
Definition consume (s : CursorStream) : ReadOutcome * CursorStream :=
  let (r, c) := read (controller s) in (r, with_controller s c).

End Stream.

(** ** lib/protobuf.ts: processChunk *)

Module Protobuf.

Import Streaming.

Section Runtime.

Variable utf8_decode : list byte -> jsstring.

(** [processChunk(chunk)] of lib/protobuf.ts: the texts of the framed
    messages joined, or the chunk read as UTF-8 when there is none.
    Nothing in its [try] block throws. *)
Definition processChunk (chunk : list byte) : completion jsstring :=
  match Wire.parseHexResponse utf8_decode (S (List.length chunk))
          (toString_hex chunk) with
  | Some [] => Return (utf8_decode chunk)
  | Some messages => Return (List.concat messages)
  | None => Hang
  end.

End Runtime.

End Protobuf.

(** ** lib/protobuf.ts: generateRandomId and generateChecksum *)

Module Ids.

(** The argument of [generateRandomId].  [size] is taken to be an integer,
    as the callers give it; [None] is a property that is not given. *)
Record Options : Type := {
  size : Z;
  dictType : option jsstring;
  customDict : option jsstring }.

Definition alphabet : jsstring :=
  lit "abcdefghijklmnopqrstuvwxyzABCDEFGHIJKLMNOPQRSTUVWXYZ".
Definition max : jsstring :=
  lit "0123456789abcdefghijklmnopqrstuvwxyzABCDEFGHIJKLMNOPQRSTUVWXYZ_-".
Definition numeric : jsstring := lit "0123456789".

(** The dictionary the characters are drawn from: [customDict] unless it
    is missing or empty, else the one that [dictType] names, ['max'] by
    default. *)
Definition dictionary (options : Options) : jsstring :=
  match customDict options with
  | Some ((_ :: _) as dict) => dict
  | _ =>
      let dictType :=
        match dictType options with Some t => t | None => lit "max" end in
      if eqb dictType (lit "alphabet") then alphabet
      else if eqb dictType (lit "max") then max
      else numeric
  end.

Section Random.

(** [Math.floor(Math.random() * n)] at the [k]-th call of [Math.random]. *)
Variable random_index : nat -> N -> N.

(** [dict[i]] added to a string: the code unit at [i], or the text of
    [undefined] past the end. *)
Definition char_at (dict : jsstring) (i : N) : jsstring :=
  match nth_error dict (N.to_nat i) with
  | Some c => [c]
  | None => lit "undefined"
  end.

(** The loop of [generateRandomId], for the turns that are left. *)
Fixpoint draw (turns : nat) (dict : jsstring) (k : nat) (result : jsstring)
  : jsstring * nat :=
  match turns with
  | O => (result, k)
  | S n =>
      draw n dict (S k)
        (result ++ char_at dict (random_index k (N.of_nat (List.length dict))))
  end.

(** [generateRandomId(options)]; [k] numbers the calls of [Math.random]. *)
Definition generateRandomId (options : Options) (k : nat) : jsstring * nat :=
  draw (Z.to_nat (size options)) (dictionary options) k [].

(** [generateChecksum()] *)
Definition generateChecksum (k : nat) : jsstring * nat :=
  let (a, k1) :=
    generateRandomId {| size := 6; dictType := Some (lit "max"); customDict := None |} k in
  let (b, k2) :=
    generateRandomId {| size := 64; dictType := Some (lit "max"); customDict := None |} k1 in
  let (c, k3) :=
    generateRandomId {| size := 64; dictType := Some (lit "max"); customDict := None |} k2 in
  (lit "zo" ++ a ++ b ++ lit "/" ++ c, k3).

End Random.

End Ids.

(** ** core/errors.ts and core/api.ts: the request and its retries *)

Module Api.

(** The classes of [core/errors.ts], and the errors of other classes,
    which are known by their [name]. *)
Inductive ErrorClass : Type :=
| APIError
| BadRequestError
| AuthenticationError
| PermissionDeniedError
| NotFoundError
| RateLimitError
| InternalServerError
| ConnectionError
| TimeoutError
| NotCursorError (name : jsstring).

(** An error object: its class, its message, and its [status], [None] for
    [undefined]. *)
Record JsError : Type := {
  class : ErrorClass;
  message : jsstring;
  status : option Z }.

(** [error instanceof CursorError] *)
Definition isCursorError (e : JsError) : bool :=
  match class e with
  | NotCursorError _ => false
  | _ => true
  end.

(** [error.name] *)
Definition name_of (e : JsError) : jsstring :=
  match class e with
  | APIError => lit "APIError"
  | BadRequestError => lit "BadRequestError"
  | AuthenticationError => lit "AuthenticationError"
  | PermissionDeniedError => lit "PermissionDeniedError"
  | NotFoundError => lit "NotFoundError"
  | RateLimitError => lit "RateLimitError"
  | InternalServerError => lit "InternalServerError"
  | ConnectionError => lit "ConnectionError"
  | TimeoutError => lit "TimeoutError"
  | NotCursorError name => name
  end.

(** [message ?? d] *)
Definition or_default (message : option jsstring) (d : jsstring) : jsstring :=
  match message with
  | Some m => m
  | None => d
  end.

(** [CursorError.fromResponse(response, message)], by the status of the
    response. *)
Definition fromResponse (status : Z) (message : option jsstring) : JsError :=
  if Z.eqb status 400 then
    {| class := BadRequestError; message := or_default message (lit "Bad request");
       status := Some 400%Z |}
  else if Z.eqb status 401 then
    {| class := AuthenticationError;
       message := or_default message (lit "Authentication failed");
       status := Some 401%Z |}
  else if Z.eqb status 403 then
    {| class := PermissionDeniedError;
       message := or_default message (lit "Permission denied");
       status := Some 403%Z |}
  else if Z.eqb status 404 then
    {| class := NotFoundError; message := or_default message (lit "Not found");
       status := Some 404%Z |}
  else if Z.eqb status 429 then
    {| class := RateLimitError;
       message := or_default message (lit "Rate limit exceeded");
       status := Some 429%Z |}
  else if Z.leb 500 status then
    {| class := InternalServerError;
       message := or_default message (lit "Internal server error");
       status := Some 500%Z |}
  else
    {| class := APIError; message := or_default message (lit "API error");
       status := Some status |}.

(** A response: its status, and what [response.text()] gives, [None] when
    it is rejected. *)
Record Response : Type := {
  response_status : Z;
  response_text : option jsstring }.

(** [response.ok]: a status from 200 to 299. *)
Definition ok (r : Response) : bool :=
  Z.leb 200 (response_status r) && Z.leb (response_status r) 299.

(** How a call of [fetch] ends: with a response, or with an error thrown
    (an [Error] object: the timer that aborts the request gives one of
    name [AbortError]). *)
Inductive Fetched : Type :=
| Responded (r : Response)
| Failed (e : JsError).

(** What [request] does that others see. *)
Inductive Event : Type :=
| Fetch (attempt : nat)
| Sleep (ms : Z).

(** How the loop of [request] ends: it returns a response, it throws an
    error, or it is left with the last error, [None] for [null]. *)
Inductive Ended : Type :=
| Returned (r : Response)
| Thrown (e : JsError)
| Left (lastError : option JsError).

Section Request.

(** [this.maxRetries], an integer. *)
Variable maxRetries : Z.

(** The call of [fetch] of each attempt. *)
Variable fetch : nat -> Fetched.

(** The [try] block of an attempt: the response it returns, or the error
    it throws (for a response that is not ok, the error that
    [fromResponse] makes of its status and its text). *)
Definition attempt_result (f : Fetched) : Response + JsError :=
  match f with
  | Responded r =>
      if ok r then inl r
      else inr (fromResponse (response_status r)
                  (Some (or_default (response_text r) (lit "Unknown error"))))
  | Failed e => inr e
  end.

(** [error instanceof CursorError && error.status && error.status < 500] *)
Definition final (e : JsError) : bool :=
  isCursorError e
  && match status e with
     | Some s => negb (Z.eqb s 0) && Z.ltb s 500
     | None => false
     end.

(** The loop [for (attempt = 0; attempt <= maxRetries; attempt++)], with
    [turns] turns left. *)
Fixpoint attempts (turns : nat) (attempt : nat) (lastError : option JsError)
  : list Event * Ended :=
  match turns with
  | O => ([], Left lastError)
  | S n =>
      match attempt_result (fetch attempt) with
      | inl response => ([Fetch attempt], Returned response)
      | inr error =>
          if final error then ([Fetch attempt], Thrown error)
          else if Z.eqb (Z.of_nat attempt) maxRetries
          then ([Fetch attempt], Left (Some error))
          else
            let (events, ended) := attempts n (S attempt) (Some error) in
            (Fetch attempt :: Sleep (2 ^ Z.of_nat attempt * 1000) :: events, ended)
      end
  end.

(** What [request] makes of the end of the loop. *)
Definition settle (ended : Ended) : Response + JsError :=
  match ended with
  | Returned r => inl r
  | Thrown e => inr e
  | Left (Some lastError) =>
      if eqb (name_of lastError) (lit "AbortError") then
        inr {| class := TimeoutError; message := lit "Request timed out";
               status := None |}
      else if isCursorError lastError then inr lastError
      else
        inr {| class := ConnectionError;
               message := lit "Request failed: " ++ message lastError;
               status := None |}
  | Left None =>
      inr {| class := APIError; message := lit "Request failed after all retries";
             status := None |}
  end.

(** [request(endpoint, options)], for a base URL that parses: what it
    does, and the response it returns or the error it throws. *)
Definition request : list Event * (Response + JsError) :=
  let (events, ended) := attempts (Z.to_nat (maxRetries + 1)) 0 None in
  (events, settle ended).

End Request.

(** *** The client and its headers *)

(** An object of headers, as the properties set, in their order: the last
    one of a name is its value. *)
Definition Headers : Type := list (jsstring * jsstring).

Fixpoint get (headers : Headers) (key : jsstring) : option jsstring :=
  match headers with
  | [] => None
  | (k, v) :: rest =>
      match get rest key with
      | Some v' => Some v'
      | None => if eqb k key then Some v else None
      end
  end.

Record ClientOptions : Type := {
  apiKey : jsstring;
  baseURL : option jsstring;
  checksum : jsstring;
  option_maxRetries : option Z;
  timeout : option Z;
  defaultHeaders : option Headers;
  (** [options.fetch ?? globalThis.fetch] is there *)
  has_fetch : bool }.

Record APIClient : Type := {
  client_apiKey : jsstring;
  client_baseURL : jsstring;
  client_maxRetries : Z;
  client_timeout : Z;
  client_defaultHeaders : Headers;
  client_checksum : jsstring }.

(** [new APIClient(options)]: the client, or the message of the error. *)
Definition new_APIClient (options : ClientOptions) : APIClient + jsstring :=
  match apiKey options with
  | [] => inr (lit "API key is required")
  | _ :: _ =>
      match checksum options with
      | [] => inr (lit "Checksum is required")
      | _ :: _ =>
          if has_fetch options then
            inl {| client_apiKey := trim (apiKey options);
                   client_baseURL :=
                     match baseURL options with
                     | Some u => u
                     | None => lit "https://api2.cursor.sh"
                     end;
                   client_maxRetries :=
                     match option_maxRetries options with Some n => n | None => 2%Z end;
                   client_timeout :=
                     match timeout options with Some n => n | None => 60000%Z end;
                   client_defaultHeaders :=
                     match defaultHeaders options with Some h => h | None => [] end;
                   client_checksum := checksum options |}
          else inr (lit "fetch is not available. Please provide a fetch implementation.")
      end
  end.

(** The text before the first occurrence of [m], the whole text when [m]
    does not occur. *)
Fixpoint beforeFirst (m s : jsstring) : jsstring :=
  if startsWith m s then []
  else match s with
       | [] => []
       | c :: s' => c :: beforeFirst m s'
       end.

Definition separator : jsstring := lit "%3A%3A".

(** [apiKey.includes('%3A%3A') ? apiKey.split('%3A%3A')[1] : apiKey] *)
Definition cleanApiKey (apiKey : jsstring) : jsstring :=
  match afterFirst separator apiKey with
  | Some rest => beforeFirst separator rest
  | None => apiKey
  end.

(** [RequestOptions]: the fields that the client reads for the headers.
    Its [timeout] and [signal] go to [fetch], whose outcome is the [fetch]
    of the section above. *)
Record RequestOptions : Type := {
  request_headers : option Headers;
  request_stream : option bool }.

Section Headers.

(** [new URL(u).host], [None] when the URL does not parse. *)
Variable url_host : jsstring -> option jsstring.

(** The headers that the client sets itself. *)
Definition own_headers (client : APIClient) (stream : bool) (host : jsstring)
  : Headers :=
  [ (lit "authorization", lit "Bearer " ++ cleanApiKey (client_apiKey client));
    (lit "x-cursor-checksum", client_checksum client);
    (lit "Content-Type", lit "application/connect+proto");
    (lit "connect-accept-encoding", lit "gzip");
    (lit "connect-protocol-version", lit "1");
    (lit "user-agent", lit "connect-es/1.6.1");
    (lit "x-cursor-client-version", lit "1.1.3");
    (lit "x-cursor-timezone", lit "Asia/Shanghai");
    (lit "x-ghost-mode", lit "true");
    (lit "x-cursor-streaming", if stream then lit "true" else lit "false");
    (lit "x-new-onboarding-completed", lit "false");
    (lit "Host", host) ].

(** [createHeaders(options)]; [None] when [new URL] throws. *)
Definition createHeaders (client : APIClient) (options : option RequestOptions)
  : option Headers :=
  match url_host (client_baseURL client) with
  | Some host =>
      let stream :=
        match options with
        | Some o => match request_stream o with Some b => b | None => false end
        | None => false
        end in
      Some (own_headers client stream host
            ++ client_defaultHeaders client
            ++ match options with
               | Some o => match request_headers o with Some h => h | None => [] end
               | None => []
               end)
  | None => None
  end.

End Headers.

End Api.

(** ** resources/chat/completions.ts: validateParams and create *)

Module Completions.

Record ChatCompletionCreateParams : Type := {
  messages : list OpenAI.ChatMessage;
  model : jsstring;
  stream : bool }.

(** The errors of [core/errors.ts] that [create] throws itself. *)
Inductive CursorError : Type :=
| BadRequestError (message : jsstring).

Definition isEmpty (s : jsstring) : bool :=
  match s with
  | [] => true
  | _ :: _ => false
  end.

(** [['system', 'user', 'assistant'].includes(role)] *)
Definition known_role (role : jsstring) : bool :=
  eqb role (lit "system") || eqb role (lit "user") || eqb role (lit "assistant").

(** The loop of [validateParams] over the messages: the error it throws at
    the first message that fails a check. *)
Fixpoint validateMessages (ms : list OpenAI.ChatMessage) : option CursorError :=
  match ms with
  | [] => None
  | message :: ms' =>
      if isEmpty (OpenAI.role message) || isEmpty (OpenAI.content message)
      then Some (BadRequestError (lit "Each message must have role and content"))
      else if negb (known_role (OpenAI.role message))
      then Some (BadRequestError (lit "Message role must be system, user, or assistant"))
      else validateMessages ms'
  end.

(** [validateParams(params)]: the error it throws, [None] when it returns. *)
Definition validateParams (params : ChatCompletionCreateParams) : option CursorError :=
  match messages params with
  | [] => Some (BadRequestError (lit "Messages should be a non-empty array"))
  | _ :: _ =>
      if isEmpty (model params) then Some (BadRequestError (lit "Model is required"))
      else validateMessages (messages params)
  end.

(** What [create] does that others see: it encodes the request, and it
    posts it through the client, with the request options that it hands
    to [client.post]. *)
Inductive Event : Type :=
| Encoded (hexData : list byte)
| Posted (path : jsstring) (body : list byte)
    (options : option Api.RequestOptions).

(** [{ ...options, stream: true }], the options of [createStream]. *)
Definition streaming (options : option Api.RequestOptions) : Api.RequestOptions :=
  {| Api.request_headers :=
       match options with
       | Some o => Api.request_headers o
       | None => None
       end;
     Api.request_stream := Some true |}.

Section Client.

Variable uuidv4 : nat -> jsstring.
Variable utf8_encode : jsstring -> list byte.

(** The response of [client.post], and what [createStream] and
    [createCompletion] make of it after the post: the transport and the
    decoding of the response are outside [create]'s own checks. *)
Variable Response Result : Type.
Variable post : jsstring -> list byte -> option Api.RequestOptions -> Response.
Variable createStream_result : Response -> jsstring -> jsstring -> Result.
Variable createCompletion_result : Response -> jsstring -> jsstring -> Result.

(** [create(params, options)]: the events in their order, and the result or
    the error thrown; [k] numbers the calls of [uuidv4].  [createStream]
    posts with [{ ...options, stream: true }], [createCompletion] with the
    options as [create] got them. *)
Definition create (params : ChatCompletionCreateParams)
    (options : option Api.RequestOptions) (k : nat)
  : list Event * (Result + CursorError) :=
  match validateParams params with
  | Some e => ([], inr e)
  | None =>
      let (hexData, k') :=
        Wire.createHexMessage uuidv4 utf8_encode (messages params) (model params) k in
      let responseId := lit "chatcmpl-" ++ uuidv4 k' in
      let path := lit "/aiserver.v1.AiService/StreamChat" in
      if stream params then
        let sent := Some (streaming options) in
        ([Encoded hexData; Posted path hexData sent],
         inl (createStream_result (post path hexData sent) responseId (model params)))
      else
        ([Encoded hexData; Posted path hexData options],
         inl (createCompletion_result (post path hexData options) responseId
                (model params)))
  end.

End Client.

Definition isEmpty_list {A : Type} (l : list A) : bool :=
  match l with
  | [] => true
  | _ :: _ => false
  end.

(** The inputs of the claim: no message, a message with an empty role or an
    empty content or a role that is not one of the three, or an empty
    model. *)
Definition invalid (params : ChatCompletionCreateParams) : bool :=
  isEmpty_list (messages params)
  || existsb (fun m => isEmpty (OpenAI.role m) || isEmpty (OpenAI.content m)
                       || negb (known_role (OpenAI.role m)))
       (messages params)
  || isEmpty (model params).

End Completions.

(** ** resources/chat/completions.ts: the completion that is not streamed *)

Module Completion.

Import Streaming.

(** *** Strings *)

(** [s.indexOf(m)], [None] for -1. *)
Fixpoint indexOf (m s : jsstring) : option nat :=
  if startsWith m s then Some 0%nat
  else match s with
       | [] => None
       | _ :: s' => option_map S (indexOf m s')
       end.

(** [s.lastIndexOf(m)], [None] for -1. *)
Fixpoint lastIndexOf (m s : jsstring) : option nat :=
  match s with
  | [] => if startsWith m [] then Some 0%nat else None
  | _ :: s' =>
      match lastIndexOf m s' with
      | Some i => Some (S i)
      | None => if startsWith m s then Some 0%nat else None
      end
  end.

(** [s.replace(/m/g, '')] for a literal [m] that is not empty: its
    occurrences are removed from left to right, [skip] being what is left
    to remove of the one found last. *)
Fixpoint remove_from (m : jsstring) (skip : nat) (s : jsstring) : jsstring :=
  match s with
  | [] => []
  | c :: s' =>
      match skip with
      | S k => remove_from m k s'
      | O =>
          if startsWith m s then remove_from m (List.length m - 1) s'
          else c :: remove_from m 0 s'
      end
  end.

Definition remove_all (m s : jsstring) : jsstring := remove_from m 0 s.

(** [code >= 32 && code <= 126] *)
Definition isPrintable (c : char16) : bool := N.leb 32 c && N.leb c 126.

(** The line terminators, which [.] does not match. *)
Definition isLineTerminator (c : char16) : bool :=
  N.eqb c 10 || N.eqb c 13 || N.eqb c 8232 || N.eqb c 8233.

Fixpoint takeWhile (p : char16 -> bool) (s : jsstring) : jsstring :=
  match s with
  | [] => []
  | c :: s' => if p c then c :: takeWhile p s' else []
  end.

(** The longest prefix of [s] that ends in a closing brace. *)
Fixpoint upto_last_brace (s : jsstring) : option jsstring :=
  match s with
  | [] => None
  | c :: s' =>
      match upto_last_brace s' with
      | Some r => Some (c :: r)
      | None => if N.eqb c 125 then Some [c] else None
      end
  end.

(** [text.match(/\{.*\}/)]: from the first opening brace that has a closing
    brace after it on its line, to the last closing brace of that line. *)
Fixpoint match_object (text : jsstring) : option jsstring :=
  match text with
  | [] => None
  | c :: text' =>
      if N.eqb c 123 then
        match upto_last_brace (takeWhile (fun x => negb (isLineTerminator x)) text') with
        | Some r => Some (c :: r)
        | None => match_object text'
        end
      else match_object text'
  end.

(** [s.replace(/^\s*{}\s*/, '')] *)
Definition replace_leading_braces (s : jsstring) : jsstring :=
  match dropWhile isWhiteSpace s with
  | 123%N :: 125%N :: r => dropWhile isWhiteSpace r
  | _ => s
  end.

(** The class of the braces, the double quote and the star. *)
Definition isArtifact (c : char16) : bool :=
  N.eqb c 123 || N.eqb c 125 || N.eqb c 34 || N.eqb c 42.

(** [s.replace(/C+$/, '')] for that class [C]: the run of such characters
    that ends the text is removed. *)
Definition replace_trailing_artifacts (s : jsstring) : jsstring :=
  rev (dropWhile isArtifact (rev s)).

(** *** cleanProtobufText *)

(** The loop of [cleanProtobufText] from the index where [text] starts:
    what it adds to the result.  Each turn moves the index forward. *)
Fixpoint scanProtobuf (fuel : nat) (text : jsstring) : jsstring :=
  match fuel with
  | O => []
  | S f =>
      match text with
      | [] => []
      | char :: rest =>
          let otherwise :=
            (if isPrintable char then [char] else []) ++ scanProtobuf f rest in
          if N.eqb char 10 then
            match rest with
            | length :: rest' =>
                if N.ltb 0 length && N.leb length (N.of_nat (List.length rest'))
                then firstn (N.to_nat length) rest'
                     ++ scanProtobuf f (skipn (N.to_nat length) rest')
                else otherwise
            | [] => otherwise
            end
          else otherwise
      end
  end.

Definition cleanProtobufText (text : jsstring) : jsstring :=
  trim (scanProtobuf (List.length text) text).

Definition BEGIN_ASSISTANT : jsstring := lit "<|BEGIN_ASSISTANT|>".
Definition END_ASSISTANT : jsstring := lit "<|END_ASSISTANT|>".

Section Runtime.

Variable utf8_decode : list byte -> jsstring.

(** [zlib.gunzip] and [zlib.gunzipSync]: the decompressed bytes, [None]
    when the decompression fails. *)
Variable gunzip : list byte -> option (list byte).

Variable JSON_parse : jsstring -> JSON + jsstring.
Variable JSON_stringify : JSON -> jsstring.

(** *** cleanResponseText *)

(** The check for a JSON error response, at the start of
    [cleanResponseText]: the message of the error it throws, [None] when it
    throws nothing. *)
Definition error_response (text : jsstring) : option jsstring :=
  match match_object text with
  | Some jsonStr =>
      match error_check JSON_parse JSON_stringify jsonStr with
      | Some message =>
          if startsWith (lit "API Error:") message then Some message else None
      | None => None
      end
  | None => None
  end.

(** The text before the system prompt, cleaned. *)
Definition before_system (text : jsstring) (systemStart : nat) : jsstring :=
  let beforeSystem := trim (firstn systemStart text) in
  let cleanedBefore := trim (replace_leading_braces beforeSystem) in
  let cleanedBefore := cleanProtobufText cleanedBefore in
  trim (filter isPrintable (replace_trailing_artifacts cleanedBefore)).

(** The text between the last assistant markers, trimmed; [None] when they
    are missing or not in this order. *)
Definition assistant_content (text : jsstring) : option jsstring :=
  match lastIndexOf BEGIN_ASSISTANT text, lastIndexOf END_ASSISTANT text with
  | Some lastAssistantStart, Some lastAssistantEnd =>
      if Nat.ltb lastAssistantStart lastAssistantEnd then
        Some (trim (Wire.slice text
                      (Z.of_nat (lastAssistantStart + List.length BEGIN_ASSISTANT))
                      (Z.of_nat lastAssistantEnd)))
      else None
  | _, _ => None
  end.

(** The text after the last [<|END_USER|>], without the assistant markers,
    trimmed. *)
Definition after_user (text : jsstring) : option jsstring :=
  match lastIndexOf END_USER text with
  | Some lastUserEnd =>
      let afterUser := skipn (lastUserEnd + List.length END_USER) text in
      Some (trim (remove_all END_ASSISTANT (remove_all BEGIN_ASSISTANT afterUser)))
  | None => None
  end.

(** The last resort: the text trimmed, without a trailing brace pair. *)
Definition final_text (text : jsstring) : jsstring :=
  let finalText := trim text in
  if eqb finalText (lit "{}") || eqb finalText [] then []
  else trim (replace_trailing_braces finalText).

(** A value that is a string and not empty. *)
Definition truthy (o : option jsstring) : option jsstring :=
  match o with
  | Some (_ :: _) => o
  | _ => None
  end.

Definition cleanResponseText (text : jsstring) : completion jsstring :=
  match error_response text with
  | Some message => Throw message
  | None =>
      let before :=
        match indexOf BEGIN_SYSTEM text with
        | Some (S n) => truthy (Some (before_system text (S n)))
        | _ => None
        end in
      match before with
      | Some cleanedBefore => Return cleanedBefore
      | None =>
          match truthy (assistant_content text) with
          | Some cleaned => Return cleaned
          | None =>
              match truthy (after_user text) with
              | Some cleaned => Return cleaned
              | None => Return (final_text text)
              end
          end
      end
  end.

(** *** processResponseChunks *)

(** The payload of a chunk of more than five bytes that holds gzip data,
    after a header 01 00 00 or 02 00 00 or without one. *)
Definition gzip_payload (chunk : list byte) : option (list byte) :=
  if Nat.ltb 5 (List.length chunk) then
    let headerSize :=
      if header_magic x01 chunk then 5%nat
      else if header_magic x02 chunk then 5%nat
      else 0%nat in
    let payload := skipn headerSize chunk in
    if gzip_magic payload then Some payload else None
  else None.

(** [chunk.length > 4] and four zero bytes first. *)
Definition zero_prefix (chunk : list byte) : bool :=
  Nat.ltb 4 (List.length chunk)
  && is_byte (nth_error chunk 0) x00 && is_byte (nth_error chunk 1) x00
  && is_byte (nth_error chunk 2) x00 && is_byte (nth_error chunk 3) x00.

(** The loop over the chunks: the text so far and the gzip payloads put
    aside.  What [processChunk] throws is not caught. *)
Fixpoint scanChunks (chunks : list (list byte)) (result : jsstring)
    (gzipChunks : list (list byte)) : completion (jsstring * list (list byte)) :=
  match chunks with
  | [] => Return (result, gzipChunks)
  | chunk :: rest =>
      match gzip_payload chunk with
      | Some payload => scanChunks rest result (gzipChunks ++ [payload])
      | None =>
          let data := if zero_prefix chunk then skipn 4 chunk else chunk in
          match processChunk utf8_decode gunzip JSON_parse JSON_stringify data with
          | Return chunkText => scanChunks rest (result ++ chunkText) gzipChunks
          | Throw message => Throw message
          | Hang => Hang
          end
      end
  end.

(** The text of the gzip payloads: decompressed together, or, when that
    fails, one by one, those that fail left out. *)
Definition gunzipChunks (gzipChunks : list (list byte)) : jsstring :=
  match gzipChunks with
  | [] => []
  | _ :: _ =>
      match gunzip (List.concat gzipChunks) with
      | Some decompressed => utf8_decode decompressed
      | None =>
          flat_map (fun chunk =>
                      match gunzip chunk with
                      | Some decompressed => utf8_decode decompressed
                      | None => []
                      end) gzipChunks
      end
  end.

Definition processResponseChunks (chunks : list (list byte)) : completion jsstring :=
  match scanChunks chunks [] [] with
  | Return (result, gzipChunks) => Return (result ++ gunzipChunks gzipChunks)
  | Throw message => Throw message
  | Hang => Hang
  end.

(** *** createCompletion *)

Record ChatCompletionMessage : Type := {
  role : jsstring;
  content : jsstring }.

Record ChatCompletionChoice : Type := {
  index : Z;
  message : ChatCompletionMessage;
  finish_reason : jsstring }.

Record CompletionUsage : Type := {
  prompt_tokens : Z;
  completion_tokens : Z;
  total_tokens : Z }.

Record ChatCompletion : Type := {
  id : jsstring;
  object : jsstring;
  created : Z;
  model : jsstring;
  choices : list ChatCompletionChoice;
  usage : CompletionUsage }.

(** [createCompletion], from the chunks that the body of the response
    gives until it is done, [None] for a response with no body; [now] is
    the time of the clock. *)
Definition createCompletion (body : option (list (list byte)))
    (responseId model : jsstring) (now : Z) : completion ChatCompletion :=
  match body with
  | None => Throw (lit "Response body is null")
  | Some chunks =>
      match processResponseChunks chunks with
      | Return text =>
          match cleanResponseText text with
          | Return text =>
              Return {| id := responseId; object := lit "chat.completion";
                        created := (now / 1000)%Z; model := model;
                        choices :=
                          [ {| index := 0;
                               message := {| role := lit "assistant"; content := text |};
                               finish_reason := lit "stop" |} ];
                        usage := {| prompt_tokens := 0; completion_tokens := 0;
                                    total_tokens := 0 |} |}
          | Throw message => Throw message
          | Hang => Hang
          end
      | Throw message => Throw message
      | Hang => Hang
      end
  end.

End Runtime.

End Completion.


(** ** The runtime, modelled: UTF-8 in Node's Buffer

    Reference models of the runtime functions that the definitions above
    take as variables.  The general theorems do not depend on them; they
    serve to run the code on concrete inputs. *)

Module Node.

(** The UTF-16 code units of a code point. *)
Definition utf16 (cp : N) : jsstring :=
  if N.ltb cp 65536 then [cp]
  else [(55296 + N.shiftr (cp - 65536) 10)%N; (56320 + N.land (cp - 65536) 1023)%N].

(** The state of the UTF-8 decoder within a sequence: the code point so
    far, the continuation bytes still needed, and the bounds of the next. *)
Record Utf8State : Type := {
  code_point : N;
  needed : nat;
  lower : N;
  upper : N }.

(** A byte read between sequences: code units to emit, or the state after a
    lead byte. *)
Definition utf8_lead (b : N) : jsstring + Utf8State :=
  if N.leb b 127 then inl [b]
  else if N.leb 194 b && N.leb b 223 then
    inr {| code_point := N.land b 31; needed := 1; lower := 128; upper := 191 |}
  else if N.leb 224 b && N.leb b 239 then
    inr {| code_point := N.land b 15; needed := 2;
           lower := if N.eqb b 224 then 160 else 128;
           upper := if N.eqb b 237 then 159 else 191 |}
  else if N.leb 240 b && N.leb b 244 then
    inr {| code_point := N.land b 7; needed := 3;
           lower := if N.eqb b 240 then 144 else 128;
           upper := if N.eqb b 244 then 143 else 191 |}
  else inl [65533%N].

(** [buffer.toString('utf-8')]: the decoder of the Encoding Standard, with
    U+FFFD for each ill-formed sequence and no byte-order-mark handling. *)
Fixpoint utf8_run (st : option Utf8State) (bs : list byte) : jsstring :=
  match bs with
  | [] => match st with None => [] | Some _ => [65533%N] end
  | b :: rest =>
      let n := b2n b in
      let fresh :=
        match utf8_lead n with
        | inl out => out ++ utf8_run None rest
        | inr s => utf8_run (Some s) rest
        end in
      match st with
      | None => fresh
      | Some s =>
          if N.leb (lower s) n && N.leb n (upper s) then
            let cp := (code_point s * 64 + N.land n 63)%N in
            match needed s with
            | S (S k) =>
                utf8_run (Some {| code_point := cp; needed := S k;
                                  lower := 128; upper := 191 |}) rest
            | _ => utf16 cp ++ utf8_run None rest
            end
          else 65533%N :: fresh
      end
  end.

Definition utf8_decode (bs : list byte) : jsstring := utf8_run None bs.

(** The UTF-8 bytes of a string as [Buffer] writes them: a surrogate pair is
    one code point, a surrogate alone is written as U+FFFD. *)
Fixpoint utf8_encode (s : jsstring) : list byte :=
  let isHigh c := N.leb 55296 c && N.leb c 56319 in
  let isLow c := N.leb 56320 c && N.leb c 57343 in
  let three c :=
    [n2b (224 + N.shiftr c 12); n2b (128 + N.land (N.shiftr c 6) 63);
     n2b (128 + N.land c 63)] in
  match s with
  | [] => []
  | c :: s' =>
      if N.ltb c 128 then n2b c :: utf8_encode s'
      else if N.ltb c 2048 then
        n2b (192 + N.shiftr c 6) :: n2b (128 + N.land c 63) :: utf8_encode s'
      else if isHigh c then
        match s' with
        | d :: s'' =>
            if isLow d then
              let cp := (65536 + (c - 55296) * 1024 + (d - 56320))%N in
              n2b (240 + N.shiftr cp 18) :: n2b (128 + N.land (N.shiftr cp 12) 63)
              :: n2b (128 + N.land (N.shiftr cp 6) 63) :: n2b (128 + N.land cp 63)
              :: utf8_encode s''
            else three 65533%N ++ utf8_encode s'
        | [] => three 65533%N
        end
      else if isLow c then three 65533%N ++ utf8_encode s'
      else three c ++ utf8_encode s'
  end.

(** The identifiers of the examples: in place of random ones, the number of
    the call. *)
Definition uuidv4 (k : nat) : jsstring :=
  lit "00000000-0000-4000-8000-00000000000" ++ [hexDigit (N.of_nat k mod 16)].

(** [zlib.gunzip] on data that is no complete gzip member: it reports an
    error.  (The lemmas below run the code on such data only; inflating is
    not modelled.) *)
Definition gunzip_rejects (data : list byte) : option (list byte) := None.

(** *** JSON.parse, after ECMA-404 *)

Definition isJsonSpace (c : char16) : bool :=
  N.eqb c 9 || N.eqb c 10 || N.eqb c 13 || N.eqb c 32.

Definition isDigit (c : char16) : bool := N.leb 48 c && N.leb c 57.

(** Decimal digits at the head of a text: their value, their number, and
    the rest. *)
Fixpoint digits (s : jsstring) (value : N) (count : nat) : N * nat * jsstring :=
  match s with
  | c :: s' =>
      if isDigit c then digits s' (value * 10 + (c - 48))%N (S count)
      else (value, count, s)
  | [] => (value, count, s)
  end.

Definition hex4 (s : jsstring) : option (N * jsstring) :=
  match s with
  | a :: b :: c :: d :: rest =>
      match hexValue a, hexValue b, hexValue c, hexValue d with
      | Some x, Some y, Some z, Some w =>
          Some (((x * 16 + y) * 16 + z) * 16 + w, rest)%N
      | _, _, _, _ => None
      end
  | _ => None
  end.

(** The characters of a string, after its opening quote. *)
Fixpoint string_chars (s : jsstring) (fuel : nat) : option (jsstring * jsstring) :=
  match fuel with
  | O => None
  | S f =>
      match s with
      | [] => None
      | 34%N :: rest => Some ([], rest)
      | 92%N :: e :: rest =>
          let go c r := option_map (fun '(t, r') => (c :: t, r')) (string_chars r f) in
          match e with
          | 34%N => go 34%N rest
          | 92%N => go 92%N rest
          | 47%N => go 47%N rest
          | 98%N => go 8%N rest
          | 102%N => go 12%N rest
          | 110%N => go 10%N rest
          | 114%N => go 13%N rest
          | 116%N => go 9%N rest
          | 117%N =>
              match hex4 rest with
              | Some (c, rest') => go c rest'
              | None => None
              end
          | _ => None
          end
      | c :: rest =>
          if N.ltb c 32 then None
          else option_map (fun '(t, r') => (c :: t, r')) (string_chars rest f)
      end
  end.

(** A number, from its first character. *)
Definition number (s : jsstring) : option (JSON * jsstring) :=
  let (negative, s) :=
    match s with
    | 45%N :: s' => (true, s')
    | _ => (false, s)
    end in
  match s with
  | [] => None
  | c :: s' =>
      if negb (isDigit c) then None
      else
        let '(int, rest) :=
          if N.eqb c 48 then (0%N, s')
          else let '(v, _, r) := digits s 0%N 0%nat in (v, r) in
        let frac :=
          match rest with
          | 46%N :: r =>
              let '(v, n, r') := digits r int 0%nat in
              if Nat.eqb n 0 then None else Some (v, n, r')
          | _ => Some (int, 0%nat, rest)
          end in
        match frac with
        | None => None
        | Some (mant, n, rest) =>
            let scale := (- Z.of_nat n)%Z in
            match rest with
            | 101%N :: r | 69%N :: r =>
                let (sign, r) :=
                  match r with
                  | 45%N :: r' => ((-1)%Z, r')
                  | 43%N :: r' => (1%Z, r')
                  | _ => (1%Z, r)
                  end in
                let '(e, k, r') := digits r 0%N 0%nat in
                if Nat.eqb k 0 then None
                else Some (JNumber negative mant (scale + sign * Z.of_N e), r')
            | _ => Some (JNumber negative mant scale, rest)
            end
        end
  end.

Definition skipSpace (s : jsstring) : jsstring := dropWhile isJsonSpace s.

(** A value and what follows it; the fuel bounds the depth and the number
    of elements. *)
Fixpoint value (fuel : nat) (s : jsstring) : option (JSON * jsstring) :=
  match fuel with
  | O => None
  | S f =>
      let elements :=
        fix elements (k : nat) (s : jsstring) : option (list JSON * jsstring) :=
          match k with
          | O => None
          | S k' =>
              match value f s with
              | Some (v, rest) =>
                  match skipSpace rest with
                  | 44%N :: rest' =>
                      option_map (fun '(l, r) => (v :: l, r)) (elements k' rest')
                  | 93%N :: rest' => Some ([v], rest')
                  | _ => None
                  end
              | None => None
              end
          end in
      let members :=
        fix members (k : nat) (s : jsstring)
          : option (list (jsstring * JSON) * jsstring) :=
          match k with
          | O => None
          | S k' =>
              match skipSpace s with
              | 34%N :: s1 =>
                  match string_chars s1 (S (List.length s1)) with
                  | Some (key, s2) =>
                      match skipSpace s2 with
                      | 58%N :: s3 =>
                          match value f s3 with
                          | Some (v, rest) =>
                              match skipSpace rest with
                              | 44%N :: rest' =>
                                  option_map (fun '(l, r) => ((key, v) :: l, r))
                                             (members k' rest')
                              | 125%N :: rest' => Some ([(key, v)], rest')
                              | _ => None
                              end
                          | None => None
                          end
                      | _ => None
                      end
                  | None => None
                  end
              | _ => None
              end
          end in
      match skipSpace s with
      | 123%N :: s1 =>
          match skipSpace s1 with
          | 125%N :: rest => Some (JObject [], rest)
          | _ => option_map (fun '(l, r) => (JObject l, r)) (members fuel s1)
          end
      | 91%N :: s1 =>
          match skipSpace s1 with
          | 93%N :: rest => Some (JArray [], rest)
          | _ => option_map (fun '(l, r) => (JArray l, r)) (elements fuel s1)
          end
      | 34%N :: s1 =>
          option_map (fun '(t, r) => (JString t, r))
                     (string_chars s1 (S (List.length s1)))
      | 116%N :: 114%N :: 117%N :: 101%N :: rest => Some (JBool true, rest)
      | 102%N :: 97%N :: 108%N :: 115%N :: 101%N :: rest => Some (JBool false, rest)
      | 110%N :: 117%N :: 108%N :: 108%N :: rest => Some (JNull, rest)
      | s1 => number s1
      end
  end.

(** [JSON.parse(text)]: the value, or a [SyntaxError]; the message stands
    for those of the runtime, which all start with a phrase of their own
    ("Unexpected token", "Expected property name", ...). *)
Definition JSON_parse (text : jsstring) : JSON + jsstring :=
  match value (S (List.length text)) text with
  | Some (v, rest) =>
      match skipSpace rest with
      | [] => inl v
      | _ => inr (lit "Unexpected non-whitespace character after JSON")
      end
  | None => inr (lit "Unexpected token in JSON")
  end.

(** *** JSON.stringify, for the values of the examples *)

Definition quoted (s : jsstring) : jsstring :=
  dquote
  ++ flat_map (fun c =>
       if N.eqb c 34 then [92%N; 34%N]
       else if N.eqb c 92 then [92%N; 92%N]
       else if N.eqb c 8 then lit "\b"
       else if N.eqb c 12 then lit "\f"
       else if N.eqb c 10 then lit "\n"
       else if N.eqb c 13 then lit "\r"
       else if N.eqb c 9 then lit "\t"
       else if N.ltb c 32 then lit "\u00" ++ [hexDigit (c / 16); hexDigit (c mod 16)]
       else [c]) s
  ++ dquote.

(** [JSON.stringify(v)] of a value that [JSON.parse] returned, for values
    without numbers: the text of a number is that of the double it rounds
    to, which this model does not compute and renders as [null]; nor does
    it reorder or merge the members of an object. *)
Fixpoint JSON_stringify (v : JSON) : jsstring :=
  let fix join (l : list jsstring) : jsstring :=
    match l with
    | [] => []
    | [x] => x
    | x :: l' => x ++ [44%N] ++ join l'
    end in
  match v with
  | JNull => lit "null"
  | JBool true => lit "true"
  | JBool false => lit "false"
  | JNumber _ _ _ => lit "null"
  | JString s => quoted s
  | JArray l => [91%N] ++ join (map JSON_stringify l) ++ [93%N]
  | JObject l =>
      [123%N]
      ++ join (map (fun '(k, x) => quoted k ++ [58%N] ++ JSON_stringify x) l)
      ++ [125%N]
  end.

(** *** gzip members with a stored block

    The CRC-32 of RFC 1952, and [zlib.gunzip] on the members that hold no
    optional header field and one stored (uncompressed) block: their data
    when the lengths and the checksum are right.  Every other input is
    outside this model, which answers [None] for it. *)

Fixpoint crc_bits (n : nat) (c : N) : N :=
  match n with
  | O => c
  | S n' =>
      crc_bits n' (if N.testbit c 0
                   then N.lxor (N.shiftr c 1) 3988292384%N
                   else N.shiftr c 1)
  end.

Definition crc32 (data : list byte) : N :=
  N.lxor (fold_left (fun c b => crc_bits 8 (N.lxor c (b2n b))) data 4294967295%N)
         4294967295%N.

(** Four bytes, the least significant first. *)
Definition le32 (bs : list byte) : N :=
  fold_right (fun b acc => (b2n b + 256 * acc)%N) 0%N bs.

Definition gunzip_stored (data : list byte) : option (list byte) :=
  match data with
  | id1 :: id2 :: cm :: flg :: rest =>
      if Byte.eqb id1 x1f && Byte.eqb id2 x8b && Byte.eqb cm x08
         && Byte.eqb flg x00
      then
        match skipn 6 rest with
        | block :: l0 :: l1 :: n0 :: n1 :: body =>
            let len := (b2n l0 + 256 * b2n l1)%N in
            let nlen := (b2n n0 + 256 * b2n n1)%N in
            let stored := firstn (N.to_nat len) body in
            let trailer := skipn (N.to_nat len) body in
            if Byte.eqb block x01 && N.eqb (len + nlen) 65535%N
               && Nat.eqb (List.length trailer) 8
               && N.eqb (le32 (firstn 4 trailer)) (crc32 stored)
               && N.eqb (le32 (skipn 4 trailer)) len
            then Some stored
            else None
        | _ => None
        end
      else None
  | _ => None
  end.

End Node.

(** * The vocabulary of the properties *)

Module Spec.

Import Wire Streaming Stream.

(** ** Texts *)

(** [occurs m s]: the text [s] holds an occurrence of [m]. *)
Definition occurs (m s : jsstring) : Prop := exists a b, s = a ++ m ++ b.

(** [factor r x]: [r] is a contiguous part of [x]. *)
Definition factor (r x : jsstring) : Prop := exists a b, x = a ++ r ++ b.

(** The match relation of [m1.*?m2.*?...mk] (flag [s]). *)
Fixpoint chain (ms : list jsstring) (s : jsstring) : Prop :=
  match ms with
  | [] => True
  | m :: ms' => exists a b, s = a ++ m ++ b /\ chain ms' b
  end.

(** [endsWith p s]: [String.prototype.endsWith]. *)
Definition endsWith (p s : jsstring) : bool := startsWith (rev p) (rev s).

(** The code units of a text that are not white space; trimming keeps
    them. *)
Definition visible (s : jsstring) : jsstring :=
  filter (fun c => negb (isWhiteSpace c)) s.

(** ** Hexadecimal digits *)

(** The two digits of each byte. *)
Definition nibbles (bs : list byte) : list N :=
  flat_map (fun b => [b2n b / 16; b2n b mod 16]%N) bs.

(** The value of a list of digits. *)
Definition digitsValue (vs : list N) : N :=
  fold_left (fun a v => a * 16 + v)%N vs 0%N.

(** ** Requests read back *)

(** The entry that [fork().ldelim()] writes, as the schema reads it: a
    message with no field. *)
Definition placeholder : IChatMessage_UserMessage :=
  {| Wire.content := None; Wire.role := None; Wire.messageId := None |}.

(** Each message after an empty one. *)
Definition with_placeholders (l : list IChatMessage_UserMessage)
  : list IChatMessage_UserMessage :=
  flat_map (fun m => [placeholder; m]) l.

(** The strings of a message, and of a request. *)
Definition present (o : option jsstring) : list jsstring :=
  match o with Some s => [s] | None => [] end.

Definition message_strings (m : IChatMessage_UserMessage) : list jsstring :=
  present (Wire.content m) ++ present (Wire.messageId m).

Definition strings_of (c : IChatMessage) : list jsstring :=
  flat_map message_strings
    (match Wire.messages c with Some l => l | None => [] end)
  ++ match Wire.instructions c with
     | Some i => present (Wire.instruction i)
     | None => []
     end
  ++ present (Wire.projectPath c)
  ++ match Wire.model c with
     | Some m => present (Wire.name m) ++ present (Wire.empty m)
     | None => []
     end
  ++ present (Wire.requestId c) ++ present (Wire.summary c)
  ++ present (Wire.conversationId c).

(** The number of UTF-8 bytes of a list of strings. *)
Definition weight (utf8_encode : jsstring -> list byte) (l : list jsstring) : nat :=
  list_sum (map (fun s => List.length (utf8_encode s)) l).

(** A string that its UTF-8 bytes give back: one with no lone surrogate. *)
Definition carried (utf8_encode : jsstring -> list byte)
    (utf8_decode : list byte -> jsstring) (s : jsstring) : Prop :=
  utf8_decode (utf8_encode s) = s.

(** [decodes field r a a']: the loop of a decoder, started in [a] on the
    bytes [r], reads them all and ends in [a']. *)
Definition decodes {A : Type} (field : N -> list byte -> A -> option (Pb.read A))
    (r : list byte) (a a' : A) : Prop :=
  forall fuel, (List.length r < fuel)%nat ->
    Mirror.fields fuel field r a = Some (Pb.Got a' []).

(** A request with the messages [l]. *)
Definition put_messages (c : IChatMessage) (l : list IChatMessage_UserMessage)
  : IChatMessage :=
  Mirror.with_messages c (fun _ => l).

(** ** Framed messages *)

(** [framed ms w]: the bytes [w] are the messages [ms], each after a header
    of five bytes that holds its length. *)
Inductive framed : list (list byte) -> list byte -> Prop :=
| framed_nil : framed [] []
| framed_cons hdr body ms w :
    List.length hdr = 5%nat ->
    readUIntBE hdr = N.of_nat (List.length body) ->
    framed ms w ->
    framed (body :: ms) (hdr ++ body ++ w).

(** Where the scan stops: fewer than five bytes are left, or the header
    declares more bytes than follow it. *)
Definition stops (tail : list byte) : bool :=
  Nat.ltb (List.length tail) 5
  || N.ltb (N.of_nat (List.length (skipn 5 tail))) (readUIntBE (firstn 5 tail)).

(** The text a message adds to the results: the [msg] of its decoding when
    the decoding succeeds and the text is not empty. *)
Definition decodedText (utf8_decode : list byte -> jsstring) (m : list byte)
  : list jsstring :=
  match decodeResMessage utf8_decode true m with
  | Some d => collect d []
  | None => []
  end.

(** ** Chunks of the transport *)


(** ** The stream *)

(** A content chunk: a content that is not empty, no [finish_reason]. *)
Definition is_content (c : ChatCompletionChunk) : bool :=
  match choices c with
  | [choice] =>
      match content (delta choice), finish_reason choice with
      | Some (_ :: _), None => true
      | _, _ => false
      end
  | _ => false
  end.

(** A final chunk: an empty delta, [finish_reason] "stop". *)
Definition is_final (c : ChatCompletionChunk) : bool :=
  match choices c with
  | [choice] =>
      match content (delta choice), finish_reason choice with
      | None, Some reason => eqb reason (lit "stop")
      | _, _ => false
      end
  | _ => false
  end.

(** What a step of the stream may do to the chunks it has emitted: nothing,
    one more content chunk while it is not done, or the final chunk, with
    which it is done. *)
Definition advances (s s' : CursorStream) : Prop :=
  (done s' = done s /\ emitted (controller s') = emitted (controller s))
  \/ (done s = false /\ done s' = false
      /\ exists c, is_content c = true
                   /\ emitted (controller s') = emitted (controller s) ++ [c])
  \/ (done s = false /\ done s' = true
      /\ exists f, is_final f = true
                   /\ emitted (controller s') = emitted (controller s) ++ [f]).

Definition attempt_advances (s : CursorStream) (a : attempt) : Prop :=
  match a with
  | Completed s' => advances s s'
  | Threw s' _ => advances s s'
  | Hung => True
  end.

(** The chunks emitted so far are content chunks, followed by the final
    chunk exactly when the stream is done. *)
Definition invariant (s : CursorStream) : Prop :=
  exists cs,
    forallb is_content cs = true
    /\ if done s
       then exists f, is_final f = true /\ emitted (controller s) = cs ++ [f]
       else emitted (controller s) = cs.

Section Runs.

Variable utf8_decode : list byte -> jsstring.
Variable gunzip : list byte -> option (list byte).
Variable JSON_parse : jsstring -> JSON + jsstring.
Variable JSON_stringify : JSON -> jsstring.

(** The steps of a stream: a [pull], whatever the transport and the clock
    give it, or a [read()] of the consumer. *)
Inductive step (s : CursorStream) : CursorStream -> Prop :=
| step_pull settled now s' :
    pull utf8_decode gunzip JSON_parse JSON_stringify s settled now = Some s' ->
    step s s'
| step_read : step s (snd (consume s)).

Inductive run (s : CursorStream) : CursorStream -> Prop :=
| run_here : run s s
| run_step s1 s2 : run s s1 -> step s1 s2 -> run s s2.

End Runs.

(** ** The inputs of the examples *)

(** One message of the user. *)
Definition hello : list OpenAI.ChatMessage :=
  [ {| OpenAI.role := lit "user"; OpenAI.content := lit "Hi" |} ].

(** A header [02 00 00 00 10] and the text [{"error":"boom"}]. *)
Definition error_frame : list byte :=
  [x02; x00; x00; x00; x10]
  ++ Node.utf8_encode (lit "{" ++ dquote ++ lit "error" ++ dquote ++ lit ":"
                       ++ dquote ++ lit "boom" ++ dquote ++ lit "}").


(** A header [02 00 00 00 02] and the text [{}]: the end of a stream. *)
Definition end_frame : list byte := [x02; x00; x00; x00; x02; x7b; x7d].

(** The same text after a header [01 00 00 00 02]. *)
Definition end_frame_01 : list byte := [x01; x00; x00; x00; x02; x7b; x7d].

(** A header [02 00 00 00 02] and the text [Hi]. *)
Definition content_frame : list byte := [x02; x00; x00; x00; x02; x48; x69].

(** The read of the transport that gives a chunk. *)
Definition received (value : list byte) : Settled :=
  Resolved {| result_done := false; result_value := Some value |}.

(** A controller that takes chunks: readable, and not asked to close. *)
Definition open (s : CursorStream) : Prop :=
  canCloseOrEnqueue (controller s) = true.

(** [n] reads of the consumer, one after the other: what they get, and the
    stream after them. *)
Fixpoint reads (n : nat) (s : CursorStream) : list ReadOutcome * CursorStream :=
  match n with
  | O => ([], s)
  | S n' =>
      let (r, s1) := consume s in
      let (rs, s2) := reads n' s1 in
      (r :: rs, s2)
  end.

(** ** More of the stream *)

(** The test of [pull] for the end-of-stream marker: five bytes or more
    that start with 02 00 00, and a payload that reads [{}] once trimmed. *)
Definition is_end_marker (utf8_decode : list byte -> jsstring) (value : list byte)
  : bool :=
  Nat.leb 5 (List.length value) && header_magic x02 value
  && eqb (trim (utf8_decode (skipn 5 value))) (lit "{}").

(** A gzip member that holds the text [{"error":"boom"}] in a stored
    block. *)
Definition gzip_error : list byte :=
  [x1f; x8b; x08; x00; x00; x00; x00; x00; x00; x03; x01; x10; x00; xef; xff;
   x7b; x22; x65; x72; x72; x6f; x72; x22; x3a; x22; x62; x6f; x6f; x6d; x22;
   x7d; x2a; x2b; x48; x76; x10; x00; x00; x00].

(** Two framed messages, [0a 05 Hello] and [0a 01 21]. *)
Definition hello_frames : list byte :=
  [x00; x00; x00; x00; x07; x0a; x05; x48; x65; x6c; x6c; x6f]
  ++ [x00; x00; x00; x00; x03; x0a; x01; x21].

(** ** The fields of a response message *)

(** A field as it lies in a buffer: the text of field 1, or a field of
    another number with its wire type and the bytes of its value. *)
Inductive entry : Type :=
| Text (bytes : list byte)
| Other (number wire : N) (payload : list byte).

(** A varint: bytes with the high bit set, and a last one without. *)
Definition is_varint (p : list byte) : bool :=
  match rev p with
  | last :: init =>
      N.ltb (b2n last) 128 && forallb (fun b => N.leb 128 (b2n b)) init
  | [] => false
  end.

(** The fields that the reader knows how to skip: a varint (wire type 0),
    eight bytes (1), bytes with their length (2), four bytes (5). *)
Definition wellformed (e : entry) : bool :=
  match e with
  | Text bytes => N.ltb (N.of_nat (List.length bytes)) (2 ^ 32)
  | Other number wire payload =>
      negb (N.eqb number 1) && N.ltb (8 * number + wire) (2 ^ 32)
      && match wire with
         | 0%N => is_varint payload
         | 1%N => Nat.eqb (List.length payload) 8
         | 2%N => N.ltb (N.of_nat (List.length payload)) (2 ^ 32)
         | 5%N => Nat.eqb (List.length payload) 4
         | _ => false
         end
  end.

(** The bytes of a field: its tag, and its value, after its length for the
    wire type 2. *)
Definition entry_bytes (e : entry) : list byte :=
  match e with
  | Text bytes => Pb.uint32 10 ++ Pb.uint32 (Z.of_nat (List.length bytes)) ++ bytes
  | Other number wire payload =>
      Pb.uint32 (Z.of_N (8 * number + wire))
      ++ match wire with
         | 2%N => Pb.uint32 (Z.of_nat (List.length payload)) ++ payload
         | _ => payload
         end
  end.

(** The message after the fields [es]: the text of the last field 1. *)
Definition last_text (utf8_decode : list byte -> jsstring) (es : list entry)
    (m : IResMessage) : IResMessage :=
  fold_left (fun m e => match e with
                        | Text bytes => {| msg := Some (utf8_decode bytes) |}
                        | Other _ _ _ => m
                        end) es m.

(** ** Random identifiers *)

(** [Math.random()] is below 1: the index it gives is below the length. *)
Definition in_range (random_index : nat -> N -> N) : Prop :=
  forall k n, (0 < n)%N -> (random_index k n < n)%N.

(** A source of indices for the examples. *)
Definition counting (k : nat) (n : N) : N := (N.of_nat k * 7 mod n)%N.

(** ** Requests and their retries *)


(** The attempts before the [k]-th, each followed by its wait. *)
Definition backoff (k : nat) : list Api.Event :=
  flat_map (fun i => [Api.Fetch i; Api.Sleep (2 ^ Z.of_nat i * 1000)]) (seq 0 k).


(** A server that answers 429. *)
Definition limited (attempt : nat) : Api.Fetched :=
  Api.Responded {| Api.response_status := 429; Api.response_text := Some (lit "slow down") |}.

(** ** The completion that is not streamed *)

(** A text as a string field lies in a message that is read as text: a
    line feed (the tag 0a), the length as a character, the text. *)
Definition block (c : jsstring) : jsstring := 10%N :: N.of_nat (List.length c) :: c.




(** ** Examples of the further properties *)

(** A stream that has emitted the text [Hi]. *)
Definition after_content : CursorStream :=
  match pull Node.utf8_decode Node.gunzip_rejects Node.JSON_parse
          Node.JSON_stringify (create (lit "chatcmpl-1") (lit "gpt-4o") 0)
          (received content_frame) 1000 with
  | Some s => s
  | None => create (lit "chatcmpl-1") (lit "gpt-4o") 0
  end.

(** A stream that has been given three empty chunks, and no content. *)
Definition after_empties : CursorStream :=
  let given s :=
    match pull Node.utf8_decode Node.gunzip_rejects Node.JSON_parse
            Node.JSON_stringify s (received end_frame_01) 500 with
    | Some s' => s'
    | None => s
    end in
  given (given (given (create (lit "chatcmpl-1") (lit "gpt-4o") 0))).

(** An answer between the markers of the assistant. *)
Definition marked_answer : jsstring :=
  lit "<|BEGIN_SYSTEM|>Be brief.<|END_SYSTEM|><|BEGIN_USER|>Hi<|END_USER|>"
  ++ lit "<|BEGIN_ASSISTANT|> Hello! <|END_ASSISTANT|>".

(** The first value that a header has, of those given. *)
Definition first_of (values : list (option jsstring)) : option jsstring :=
  fold_right (fun v rest => match v with Some _ => v | None => rest end) None values.

(** [options?.stream], as a condition. *)
Definition streams (options : option Api.RequestOptions) : bool :=
  match options with
  | Some o => match Api.request_stream o with Some b => b | None => false end
  | None => false
  end.

End Spec.

Import Spec.

(** * Properties *)

(** ** Strings: prefixes, occurrences, trimming *)

Section StringFacts.

Implicit Types (s p m a b r : jsstring).

Lemma eqb_eq s p : eqb s p = true <-> s = p.
Proof.
  revert p; induction s as [|x s IH]; intros [|y p]; simpl; split; intro H;
    try reflexivity; try discriminate.
  - apply andb_true_iff in H as [H1 H2]. apply N.eqb_eq in H1. apply IH in H2.
    now subst.
  - injection H as -> ->. rewrite N.eqb_refl. now apply IH.
Qed.

Lemma eqb_neq s p : eqb s p = false <-> s <> p.
Proof.
  split; intro H.
  - intro E. apply eqb_eq in E. congruence.
  - destruct (eqb s p) eqn:E; [apply eqb_eq in E; contradiction | reflexivity].
Qed.

Lemma startsWith_app p r : startsWith p (p ++ r) = true.
Proof. induction p as [|x p IH]; simpl; [reflexivity|]. now rewrite N.eqb_refl. Qed.

Lemma startsWith_inv p s :
  startsWith p s = true -> s = p ++ skipn (List.length p) s.
Proof.
  revert s; induction p as [|x p IH]; intros [|y s] H; simpl in *;
    try reflexivity; try discriminate.
  apply andb_true_iff in H as [H1 H2]. apply N.eqb_eq in H1. subst y.
  f_equal. now apply IH.
Qed.

Lemma skipn_occurrence a m b :
  skipn (List.length m) (a ++ m ++ b) = skipn (List.length m) (a ++ m) ++ b.
Proof.
  rewrite app_assoc, skipn_app.
  replace (List.length m - List.length (a ++ m))%nat with 0%nat
    by (rewrite length_app; lia).
  reflexivity.
Qed.

Lemma occurs_cons m c s : occurs m s -> occurs m (c :: s).
Proof. intros (a & b & ->). now exists (c :: a), b. Qed.

Lemma occurs_app_l m z s : occurs m s -> occurs m (z ++ s).
Proof. intros (a & b & ->). exists (z ++ a), b. now rewrite <- app_assoc. Qed.

Lemma occurs_app_r m z s : occurs m s -> occurs m (s ++ z).
Proof.
  intros (a & b & ->). exists a, (b ++ z). now rewrite <- !app_assoc.
Qed.

Lemma occurs_cons_inv m c s :
  occurs m (c :: s) -> startsWith m (c :: s) = true \/ occurs m s.
Proof.
  intros ([|x a] & b & E).
  - left. simpl in E. rewrite E. apply startsWith_app.
  - right. injection E as _ ->. now exists a, b.
Qed.

Lemma includes_spec p s : includes p s = true <-> occurs p s.
Proof.
  induction s as [|c s IH].
  - simpl. rewrite orb_false_r. split.
    + intro H. apply startsWith_inv in H. exists [], (skipn (List.length p) []).
      exact H.
    + intros (a & b & E). destruct a; [|discriminate].
      simpl in E. rewrite E. apply startsWith_app.
  - change (includes p (c :: s))
      with (startsWith p (c :: s) || includes p s). rewrite orb_true_iff, IH.
    split.
    + intros [H|H].
      * apply startsWith_inv in H. now exists [], (skipn (List.length p) (c :: s)).
      * now apply occurs_cons.
    + apply occurs_cons_inv.
Qed.

Lemma includes_false p s : includes p s = false <-> ~ occurs p s.
Proof.
  rewrite <- includes_spec. destruct (includes p s); split; intro H;
    congruence.
Qed.

Lemma afterFirst_sound m s r :
  afterFirst m s = Some r -> exists a, s = a ++ m ++ r.
Proof.
  revert r; induction s as [|c s IH]; intro r.
  - simpl. destruct (startsWith m []) eqn:E; [|discriminate].
    intros [= <-]. exists []. now apply startsWith_inv.
  - change (afterFirst m (c :: s))
      with (if startsWith m (c :: s) then Some (skipn (List.length m) (c :: s))
            else afterFirst m s).
    destruct (startsWith m (c :: s)) eqn:E.
    + intros [= <-]. exists []. now apply startsWith_inv.
    + intro H. destruct (IH _ H) as (a & ->). now exists (c :: a).
Qed.

Lemma afterFirst_complete a m b :
  exists z, afterFirst m (a ++ m ++ b) = Some (z ++ b).
Proof.
  induction a as [|c a IH].
  - exists []. simpl app.
    assert (H : startsWith m (m ++ b) = true) by apply startsWith_app.
    destruct (m ++ b) as [|x t] eqn:E; simpl afterFirst; rewrite H;
      rewrite <- E; f_equal; rewrite <- (app_nil_l (m ++ b)) at 1;
      rewrite skipn_occurrence; simpl; now rewrite skipn_all.
  - change (afterFirst m ((c :: a) ++ m ++ b))
      with (if startsWith m (c :: a ++ m ++ b)
            then Some (skipn (List.length m) ((c :: a) ++ m ++ b))
            else afterFirst m (a ++ m ++ b)).
    destruct (startsWith m (c :: a ++ m ++ b)).
    + eexists. f_equal. apply skipn_occurrence.
    + exact IH.
Qed.

Lemma afterLast_none m s : afterLast m s = None -> ~ occurs m s.
Proof.
  induction s as [|c s IH]; simpl.
  - destruct (startsWith m []) eqn:E; [discriminate|].
    intros _ (a & b & H). destruct a; [|discriminate]. simpl in H.
    rewrite H, startsWith_app in E. discriminate.
  - destruct (afterLast m s); [discriminate|].
    destruct (startsWith m (c :: s)) eqn:E; [discriminate|].
    intros _ H. apply occurs_cons_inv in H as [H|H]; [congruence|].
    now apply IH.
Qed.

Lemma afterLast_sound m s r :
  afterLast m s = Some r ->
  (exists a, s = a ++ m ++ r) /\ (m <> [] -> ~ occurs m r).
Proof.
  revert r; induction s as [|c s IH]; intro r; simpl.
  - destruct (startsWith m []) eqn:E; [|discriminate]. intros [= <-].
    apply startsWith_inv in E. destruct m; [|discriminate]. split.
    + now exists [].
    + intro H; now contradiction H.
  - destruct (afterLast m s) as [r'|] eqn:L.
    + intros [= <-]. destruct (IH _ eq_refl) as [(a & ->) Hn]. split; [|exact Hn].
      now exists (c :: a).
    + destruct (startsWith m (c :: s)) eqn:E; [|discriminate]. intros [= <-].
      split.
      * exists []. now apply startsWith_inv.
      * intros Hm Ho. apply afterLast_none in L. apply L.
        destruct m as [|x m']; [now contradiction Hm|].
        apply startsWith_inv in E. simpl in E. injection E as _ E.
        rewrite E. now apply occurs_app_l.
Qed.

Lemma afterLast_absent m s : ~ occurs m s -> afterLast m s = None.
Proof.
  intro H. destruct (afterLast m s) as [r|] eqn:E; [|reflexivity].
  apply afterLast_sound in E as [(a & E) _]. exfalso. apply H. now exists a, r.
Qed.

(** A marker whose first code unit does not come again in it overlaps no
    occurrence of itself. *)
Lemma no_overlap c m' rest :
  ~ In c m' -> ~ occurs (c :: m') rest -> ~ occurs (c :: m') (m' ++ rest).
Proof.
  intros Hc Hr (a & b & E).
  destruct (Nat.lt_ge_cases (List.length a) (List.length m')) as [L|L].
  - apply Hc.
    assert (H : nth_error (m' ++ rest) (List.length a) = Some c).
    { rewrite E, nth_error_app2 by lia. now rewrite Nat.sub_diag. }
    rewrite nth_error_app1 in H by exact L. eapply nth_error_In; eassumption.
  - apply Hr. exists (skipn (List.length m') a), b.
    apply (f_equal (skipn (List.length m'))) in E.
    rewrite skipn_app, skipn_all, Nat.sub_diag in E. simpl in E.
    rewrite E, skipn_app.
    replace (List.length m' - List.length a)%nat with 0%nat by lia.
    reflexivity.
Qed.

Lemma afterLast_complete c m' pre rest :
  ~ In c m' -> ~ occurs (c :: m') rest ->
  afterLast (c :: m') (pre ++ (c :: m') ++ rest) = Some rest.
Proof.
  intros Hc Hr. induction pre as [|x pre IH].
  - simpl app. cbn [afterLast].
    rewrite (afterLast_absent (no_overlap Hc Hr)).
    rewrite (startsWith_app (c :: m') rest : startsWith (c :: m') (c :: m' ++ rest) = true).
    f_equal. change (c :: m' ++ rest) with ((c :: m') ++ rest).
    rewrite skipn_app, skipn_all, Nat.sub_diag. reflexivity.
  - simpl app. cbn [afterLast]. simpl app in IH. now rewrite IH.
Qed.

(** Trimming. *)

Lemma dropWhile_suffix f s : exists a, s = a ++ dropWhile f s /\ forallb f a = true.
Proof.
  induction s as [|c s (a & E & Ha)]; simpl.
  - now exists [].
  - destruct (f c) eqn:F.
    + exists (c :: a). simpl. rewrite F, Ha. split; [now f_equal | reflexivity].
    + now exists [].
Qed.

Lemma dropWhile_head f s c t : dropWhile f s = c :: t -> f c = false.
Proof.
  induction s as [|x s IH]; simpl; [discriminate|].
  destruct (f x) eqn:F; [exact IH|]. intros [= -> _]. exact F.
Qed.

Lemma dropWhile_fixed f s : (forall c t, s = c :: t -> f c = false) -> dropWhile f s = s.
Proof.
  destruct s as [|c t]; simpl; [reflexivity|]. intro H.
  now rewrite (H c t eq_refl).
Qed.

Lemma dropWhile_idem f s : dropWhile f (dropWhile f s) = dropWhile f s.
Proof.
  apply dropWhile_fixed. intros c t E. eapply dropWhile_head; eassumption.
Qed.

Lemma trimEnd_prefix s : exists b, s = trimEnd s ++ b.
Proof.
  unfold trimEnd. destruct (dropWhile_suffix isWhiteSpace (rev s)) as (a & E & _).
  exists (rev a). rewrite <- rev_app_distr, <- E. now rewrite rev_involutive.
Qed.

Lemma trimEnd_idem s : trimEnd (trimEnd s) = trimEnd s.
Proof. unfold trimEnd. now rewrite rev_involutive, dropWhile_idem. Qed.

Lemma trimStart_trim s : trimStart (trim s) = trim s.
Proof.
  unfold trim, trimStart. apply dropWhile_fixed. intros c t E.
  destruct (trimEnd_prefix (dropWhile isWhiteSpace s)) as (b & Hb).
  rewrite E in Hb. simpl in Hb. eapply dropWhile_head; eassumption.
Qed.

Lemma trimEnd_trim s : trimEnd (trim s) = trim s.
Proof. unfold trim. apply trimEnd_idem. Qed.

Lemma trim_idem s : trim (trim s) = trim s.
Proof. unfold trim at 1. now rewrite trimStart_trim, trimEnd_trim. Qed.

End StringFacts.

(** ** cleanResponseText *)

Section CleanFacts.

Implicit Types (s x r a b text : jsstring).

Lemma chain_app_l ms z s : chain ms s -> chain ms (z ++ s).
Proof.
  destruct ms as [|m ms]; simpl; [trivial|].
  intros (a & b & -> & H). exists (z ++ a), b. now rewrite <- app_assoc.
Qed.

Lemma chain_app_r ms s z : chain ms s -> chain ms (s ++ z).
Proof.
  revert s; induction ms as [|m ms IH]; simpl; [trivial|].
  intros s (a & b & -> & H). exists a, (b ++ z). rewrite <- !app_assoc.
  split; [reflexivity | now apply IH].
Qed.

Lemma chainTest_spec ms s : chainTest ms s = true <-> chain ms s.
Proof.
  revert s; induction ms as [|m ms IH]; intro s; simpl; [tauto|].
  destruct (afterFirst m s) as [r|] eqn:E; split.
  - intro H. apply afterFirst_sound in E as (a & ->). exists a, r.
    split; [reflexivity | now apply IH].
  - intros (a & b & -> & H). destruct (afterFirst_complete a m b) as (z & Ez).
    rewrite Ez in E. injection E as <-. apply IH. now apply chain_app_l.
  - discriminate.
  - intros (a & b & -> & _). destruct (afterFirst_complete a m b) as (z & Ez).
    congruence.
Qed.

Lemma factor_refl x : factor x x.
Proof. exists [], []. now rewrite app_nil_r. Qed.

Lemma factor_trans r s x : factor r s -> factor s x -> factor r x.
Proof.
  intros (a & b & ->) (a' & b' & ->). exists (a' ++ a), (b ++ b').
  now rewrite <- !app_assoc.
Qed.

Lemma factor_suffix a x : factor x (a ++ x).
Proof. exists a, []. now rewrite app_nil_r. Qed.

Lemma factor_prefix x b : factor x (x ++ b).
Proof. now exists [], b. Qed.

Lemma factor_chain ms r x : factor r x -> chain ms r -> chain ms x.
Proof. intros (a & b & ->) H. now apply chain_app_l, chain_app_r. Qed.

Lemma factor_occurs m r x : factor r x -> occurs m r -> occurs m x.
Proof. intros (a & b & ->) H. now apply occurs_app_l, occurs_app_r. Qed.

Lemma factor_trim s : factor (trim s) s.
Proof.
  unfold trim. destruct (trimEnd_prefix (trimStart s)) as (b & Hb).
  destruct (dropWhile_suffix isWhiteSpace s) as (a & Ha & _).
  exists a, b. unfold trimStart in *. now rewrite <- Hb.
Qed.

Lemma factor_replace_upto s : factor (replace_upto_END_USER s) s.
Proof.
  unfold replace_upto_END_USER. destruct (afterLast END_USER s) as [r|] eqn:E.
  - apply afterLast_sound in E as [(a & ->) _]. rewrite app_assoc.
    apply factor_suffix.
  - apply factor_refl.
Qed.

Lemma factor_replace_leading_newline s : factor (replace_leading_newline s) s.
Proof.
  unfold replace_leading_newline.
  destruct s as [|c [|d t]]; try apply factor_refl.
  - destruct c as [|p]; try apply factor_refl.
    do 4 (destruct p as [p|p|]; try apply factor_refl).
    apply (factor_suffix [10%N] []).
  - destruct c as [|p]; try apply factor_refl.
    do 4 (destruct p as [p|p|]; try apply factor_refl).
    destruct (isAsciiLetter d).
    + apply (factor_suffix [10%N; d] t).
    + apply (factor_suffix [10%N] (d :: t)).
Qed.

Lemma factor_replace_trailing_braces s : factor (replace_trailing_braces s) s.
Proof.
  unfold replace_trailing_braces.
  destruct (dropWhile isWhiteSpace (rev s)) as [|c l] eqn:E; try apply factor_refl.
  destruct c as [|p]; try apply factor_refl.
  do 7 (destruct p as [p|p|]; try apply factor_refl).
  destruct l as [|c l]; try apply factor_refl.
  destruct c as [|p]; try apply factor_refl.
  do 7 (destruct p as [p|p|]; try apply factor_refl).
  destruct (dropWhile_suffix isWhiteSpace (rev s)) as (a & Ha & _).
  destruct (dropWhile_suffix isWhiteSpace l) as (a' & Ha' & _).
  rewrite E in Ha. apply (f_equal (@rev _)) in Ha.
  rewrite rev_involutive in Ha. rewrite Ha.
  rewrite rev_app_distr. simpl. rewrite Ha' at 2. rewrite rev_app_distr.
  rewrite <- !app_assoc. apply factor_prefix.
Qed.

(** The text the cleaning steps leave is a contiguous part of the input. *)
Lemma factor_steps s :
  factor (trim (replace_trailing_braces
            (trim (replace_leading_newline (replace_upto_END_USER s))))) s.
Proof.
  eapply factor_trans; [apply factor_trim|].
  eapply factor_trans; [apply factor_replace_trailing_braces|].
  eapply factor_trans; [apply factor_trim|].
  eapply factor_trans; [apply factor_replace_leading_newline|].
  apply factor_replace_upto.
Qed.

Lemma END_USER_nonempty : END_USER <> [].
Proof. discriminate. Qed.

Lemma replace_upto_no_marker s : ~ occurs END_USER (replace_upto_END_USER s).
Proof.
  unfold replace_upto_END_USER. destruct (afterLast END_USER s) as [r|] eqn:E.
  - apply afterLast_sound in E as [_ H]. apply H, END_USER_nonempty.
  - now apply afterLast_none.
Qed.

Lemma replace_upto_fixed s : ~ occurs END_USER s -> replace_upto_END_USER s = s.
Proof.
  intro H. unfold replace_upto_END_USER. now rewrite (afterLast_absent H).
Qed.

Lemma replace_upto_last pre rest :
  includes END_USER rest = false ->
  replace_upto_END_USER (pre ++ END_USER ++ rest) = rest.
Proof.
  intro H. apply includes_false in H. unfold replace_upto_END_USER.
  change END_USER with (60%N :: tl END_USER) in *.
  rewrite afterLast_complete; [reflexivity | | exact H].
  vm_compute. intuition discriminate.
Qed.

Lemma replace_leading_newline_fixed s :
  trimStart s = s -> replace_leading_newline s = s.
Proof.
  intro H. destruct s as [|c t]; [reflexivity|].
  assert (W : isWhiteSpace c = false)
    by (eapply dropWhile_head; unfold trimStart in H; eassumption).
  unfold replace_leading_newline.
  destruct c as [|p]; try reflexivity.
  do 4 (destruct p as [p|p|]; try reflexivity). discriminate W.
Qed.

Lemma replace_trailing_braces_fixed s :
  trimEnd s = s -> endsWith (lit "{}") s = false -> replace_trailing_braces s = s.
Proof.
  unfold trimEnd, endsWith, replace_trailing_braces. intros H E.
  apply (f_equal (@rev _)) in H. rewrite rev_involutive in H. rewrite H.
  destruct (rev s) as [|c l]; try reflexivity.
  destruct c as [|p]; try reflexivity.
  do 7 (destruct p as [p|p|]; try reflexivity).
  destruct l as [|c l]; try reflexivity.
  destruct c as [|p]; try reflexivity.
  do 7 (destruct p as [p|p|]; try reflexivity).
  discriminate E.
Qed.

Lemma visible_dropWhile s : visible (dropWhile isWhiteSpace s) = visible s.
Proof.
  induction s as [|c s IH]; simpl; [reflexivity|].
  destruct (isWhiteSpace c) eqn:W; simpl; rewrite ?W; simpl; congruence.
Qed.

Lemma visible_rev s : visible (rev s) = rev (visible s).
Proof.
  unfold visible. induction s as [|c s IH]; simpl; [reflexivity|].
  rewrite filter_app, IH. simpl. destruct (negb (isWhiteSpace c)); simpl;
    [reflexivity | now rewrite app_nil_r].
Qed.

Lemma visible_trim s : visible (trim s) = visible s.
Proof.
  unfold trim, trimEnd, trimStart.
  now rewrite visible_rev, visible_dropWhile, visible_rev, rev_involutive,
    visible_dropWhile.
Qed.

Lemma marker_survives_trim pre rest t :
  (List.length t < 12)%nat -> trim (pre ++ END_USER ++ rest) <> t.
Proof.
  intros L E. apply (f_equal visible) in E. rewrite visible_trim in E.
  apply (f_equal (@List.length _)) in E. unfold visible in E.
  rewrite !filter_app, !length_app in E.
  change (List.length (filter (fun c => negb (isWhiteSpace c)) END_USER))
    with 12%nat in E.
  pose proof (filter_length_le (fun c => negb (isWhiteSpace c)) t). lia.
Qed.

End CleanFacts.

Section CleanTheorems.

Implicit Types (x pre rest : jsstring).

Lemma cleanResponseText_general pre rest :
  includes END_USER rest = false ->
  systemPromptRegex_test (pre ++ END_USER ++ rest) = false ->
  cleanResponseText (pre ++ END_USER ++ rest)
  = trim (replace_trailing_braces (trim (replace_leading_newline rest))).
Proof.
  intros Hr Hs. unfold cleanResponseText.
  assert (E1 : eqb (trim (pre ++ END_USER ++ rest)) (lit "{}") = false)
    by (apply eqb_neq, marker_survives_trim; simpl; lia).
  assert (E2 : eqb (trim (pre ++ END_USER ++ rest)) [] = false)
    by (apply eqb_neq, marker_survives_trim; simpl; lia).
  rewrite E1, E2, Hs. simpl orb. cbv iota.
  now rewrite replace_upto_last.
Qed.

Lemma cleanResponseText_fixed x :
  trim x = x -> x <> lit "{}" -> systemPromptRegex_test x = false ->
  ~ occurs END_USER x -> endsWith (lit "{}") x = false ->
  cleanResponseText x = x.
Proof.
  intros T B S M E. unfold cleanResponseText.
  apply eqb_neq in B. rewrite T, B, S. simpl orb.
  destruct (eqb x []) eqn:N; [apply eqb_eq in N; now subst|]. cbv iota.
  assert (Ts : trimStart x = x) by (rewrite <- T; apply trimStart_trim).
  assert (Te : trimEnd x = x) by (rewrite <- T; apply trimEnd_trim).
  rewrite (replace_upto_fixed M), (replace_leading_newline_fixed Ts), T.
  now rewrite (replace_trailing_braces_fixed Te E), T.
Qed.

(** C8.  The marker examples of the specification, and the general rule:
    the text up to and including the last [<|END_USER|>] is removed, and a
    newline with one letter that then leads the text is removed as a pair
    (the rest is trimmed and freed of a trailing brace pair). *)
Theorem cleanResponseText_markers :
  cleanResponseText
    (lit "<|BEGIN_SYSTEM|>S<|END_SYSTEM|><|BEGIN_USER|>U<|END_USER|>") = []
  /\ cleanResponseText
       (lit "prefix<|END_USER|>" ++ [10%N] ++ lit "CActual content")
     = lit "Actual content"
  /\ (forall pre rest,
        includes END_USER rest = false ->
        systemPromptRegex_test (pre ++ END_USER ++ rest) = false ->
        cleanResponseText (pre ++ END_USER ++ rest)
        = trim (replace_trailing_braces (trim (replace_leading_newline rest))))
  /\ (forall pre c rest,
        isAsciiLetter c = true ->
        includes END_USER rest = false ->
        systemPromptRegex_test (pre ++ END_USER ++ 10%N :: c :: rest) = false ->
        cleanResponseText (pre ++ END_USER ++ 10%N :: c :: rest)
        = trim (replace_trailing_braces (trim rest))).
Proof.
  split; [vm_compute; reflexivity|].
  split; [vm_compute; reflexivity|].
  split; [exact cleanResponseText_general|].
  intros pre c rest L Hr Hs.
  assert (Hr' : includes END_USER (10%N :: c :: rest) = false).
  { apply includes_false. intro H.
    apply occurs_cons_inv in H as [H|H]; [discriminate H|].
    apply occurs_cons_inv in H as [H|H].
    - unfold isAsciiLetter in L. destruct c as [|p]; [discriminate|].
      simpl in H. do 6 (destruct p as [p|p|]; try discriminate).
    - apply includes_false in Hr. contradiction. }
  rewrite (cleanResponseText_general pre _ Hr' Hs).
  unfold replace_leading_newline. now rewrite L.
Qed.

Lemma cleanResponseText_markers_witness :
  cleanResponseText (lit "prefix<|END_USER|>" ++ [10%N] ++ lit "CActual content")
  = lit "Actual content".
Proof.
  exact (proj2 (proj2 (proj2 cleanResponseText_markers))
           (lit "prefix") 67%N (lit "Actual content")
           eq_refl eq_refl eq_refl).
Defined.

(** C9, as stated, fails: a text that ends in two brace pairs loses one of
    them at each cleaning. *)
Lemma cleanResponseText_not_idempotent :
  cleanResponseText (lit "Hi{}{}") = lit "Hi{}"
  /\ cleanResponseText (cleanResponseText (lit "Hi{}{}")) = lit "Hi"
  /\ eqb (cleanResponseText (cleanResponseText (lit "Hi{}{}")))
         (cleanResponseText (lit "Hi{}{}")) = false.
Proof. vm_compute. repeat split; reflexivity. Qed.

(** C9, amended.  Cleaning is idempotent on every text whose cleaned form
    does not end in a brace pair. *)
Theorem cleanResponseText_idempotent x :
  endsWith (lit "{}") (cleanResponseText x) = false ->
  cleanResponseText (cleanResponseText x) = cleanResponseText x.
Proof.
  unfold cleanResponseText at 1 3 4.
  destruct (eqb (trim x) (lit "{}") || eqb (trim x) []); [reflexivity|].
  destruct (systemPromptRegex_test x) eqn:S; [reflexivity|]. cbv zeta.
  set (r := trim (replace_trailing_braces
                    (trim (replace_leading_newline (replace_upto_END_USER x))))).
  intro E. apply cleanResponseText_fixed.
  - apply trim_idem.
  - intro B. rewrite B in E. discriminate E.
  - destruct (systemPromptRegex_test r) eqn:Sr; [|reflexivity].
    unfold systemPromptRegex_test in *. apply chainTest_spec in Sr.
    apply (@factor_chain _ _ _ (factor_steps x)), chainTest_spec in Sr. congruence.
  - intro M. apply (replace_upto_no_marker x).
    refine (factor_occurs _ M).
    eapply factor_trans; [apply factor_trim|].
    eapply factor_trans; [apply factor_replace_trailing_braces|].
    eapply factor_trans; [apply factor_trim|].
    apply factor_replace_leading_newline.
  - exact E.
Qed.

Lemma cleanResponseText_idempotent_witness :
  endsWith (lit "{}") (cleanResponseText (lit "Hi{} ")) = false
  /\ cleanResponseText (cleanResponseText (lit "Hi{} "))
     = cleanResponseText (lit "Hi{} ").
Proof.
  split; [reflexivity | apply cleanResponseText_idempotent; reflexivity].
Defined.

End CleanTheorems.

Example clean_ex1 :
  cleanResponseText
    (lit "<|BEGIN_SYSTEM|>S<|END_SYSTEM|><|BEGIN_USER|>U<|END_USER|>") = [].
Proof. vm_compute. reflexivity. Qed.

Example clean_ex2 :
  cleanResponseText (lit "prefix<|END_USER|>" ++ [10%N] ++ lit "CActual content")
  = lit "Actual content".
Proof. vm_compute. reflexivity. Qed.

Example clean_ex3 :
  cleanResponseText (lit "a{}{}") = lit "a{}" /\ cleanResponseText (lit "a{}") = lit "a".
Proof. vm_compute. split; reflexivity. Qed.
(** ** Hexadecimal rendering *)

Section HexFacts.

Local Open Scope N_scope.

Lemma b2n_lt b : b2n b < 256.
Proof. unfold b2n. pose proof (Byte.to_N_bounded b). lia. Qed.

Lemma n2b_b2n b : n2b (b2n b) = b.
Proof.
  unfold n2b, b2n. rewrite N.mod_small by apply b2n_lt.
  now rewrite Byte.of_to_N.
Qed.

Lemma b2n_n2b n : n < 256 -> b2n (n2b n) = n.
Proof.
  intro H. unfold n2b, b2n. rewrite N.mod_small by exact H.
  destruct (Byte.of_N n) as [b|] eqn:E.
  - now apply Byte.to_of_N.
  - pose proof (Byte.to_of_N_option_map n) as M. rewrite E in M. simpl in M.
    destruct (N.leb_spec n 255); [discriminate | lia].
Qed.

Lemma nibble_cases v :
  v < 16 ->
  v = 0 \/ v = 1 \/ v = 2 \/ v = 3 \/ v = 4 \/ v = 5 \/ v = 6 \/ v = 7 \/
  v = 8 \/ v = 9 \/ v = 10 \/ v = 11 \/ v = 12 \/ v = 13 \/ v = 14 \/ v = 15.
Proof. lia. Qed.

(** A digit as [toString] renders it, put in upper case, reads back. *)
Lemma hexValue_upper_digit v :
  v < 16 ->
  hexValue (if N.leb 97 (hexDigit v) && N.leb (hexDigit v) 122
            then hexDigit v - 32 else hexDigit v) = Some v.
Proof.
  intro H. apply nibble_cases in H.
  repeat (destruct H as [-> | H]; [reflexivity|]). now subst.
Qed.

Lemma toString_hex_nibbles bs : toString_hex bs = map hexDigit (nibbles bs).
Proof.
  unfold toString_hex, nibbles. induction bs as [|b bs IH]; simpl; congruence.
Qed.

Lemma Buffer_from_hex_pair x y rest :
  x < 16 -> y < 16 ->
  Buffer_from_hex (toUpperCase (map hexDigit (x :: y :: rest)))
  = n2b (16 * x + y) :: Buffer_from_hex (toUpperCase (map hexDigit rest)).
Proof.
  intros Hx Hy. unfold toUpperCase. cbn [map Buffer_from_hex].
  now rewrite !hexValue_upper_digit.
Qed.

(** The buffer read back from its rendering in upper case. *)
Lemma Buffer_from_hex_toString bs :
  Buffer_from_hex (toUpperCase (toString_hex bs)) = bs.
Proof.
  rewrite toString_hex_nibbles. induction bs as [|b bs IH]; [reflexivity|].
  pose proof (b2n_lt b).
  change (nibbles (b :: bs)) with (b2n b / 16 :: b2n b mod 16 :: nibbles bs).
  rewrite Buffer_from_hex_pair, IH.
  - f_equal. rewrite <- (n2b_b2n b) at 3. f_equal.
    rewrite (N.div_mod (b2n b) 16) at 3 by lia. reflexivity.
  - apply N.Div0.div_lt_upper_bound. lia.
  - apply N.mod_lt. lia.
Qed.

Lemma fold_digits_app vs ws a :
  fold_left (fun a v => a * 16 + v) (vs ++ ws) a
  = fold_left (fun a v => a * 16 + v) ws (fold_left (fun a v => a * 16 + v) vs a).
Proof. apply fold_left_app. Qed.

(** [toString16_aux] writes the digits of [n], without a leading zero. *)
Lemma toString16_aux_digits fuel : forall n acc,
  n < 16 ^ N.of_nat (S fuel) ->
  exists vs,
    toString16_aux fuel n acc = map hexDigit vs ++ acc
    /\ Forall (fun v => v < 16) vs
    /\ digitsValue vs = n
    /\ (List.length vs = 1%nat \/ 16 ^ N.of_nat (List.length vs - 1) <= n).
Proof.
  induction fuel as [|f IH]; intros n acc H.
  - exists [n]. simpl in *. rewrite N.mod_small by lia.
    repeat split; try (constructor; [lia | constructor]). now left.
  - cbn [toString16_aux]. destruct (N.ltb_spec n 16) as [L|L].
    + exists [n]. repeat split; try (constructor; [lia | constructor]). now left.
    + destruct (IH (n / 16) (hexDigit (n mod 16) :: acc)) as (vs & E & F & V & B).
      { apply N.Div0.div_lt_upper_bound.
        rewrite Nat2N.inj_succ, N.pow_succ_r' in H. exact H. }
      exists (vs ++ [n mod 16]). rewrite E, map_app. simpl. rewrite <- app_assoc.
      repeat split.
      * apply Forall_app. split; [exact F|]. constructor; [|constructor].
        apply N.mod_lt. lia.
      * unfold digitsValue in *. rewrite fold_digits_app, V. simpl.
        rewrite (N.div_mod n 16) at 3 by lia. lia.
      * right. rewrite length_app. simpl.
        replace (List.length vs + 1 - 1)%nat with (List.length vs) by lia.
        pose proof (N.Div0.mul_div_le n 16) as D.
        destruct B as [B|B].
        -- rewrite B. simpl. lia.
        -- destruct (List.length vs) as [|k] eqn:K; [simpl; lia|].
           simpl Nat.sub in B. rewrite Nat.sub_0_r in B.
           rewrite Nat2N.inj_succ, N.pow_succ_r'. lia.
Qed.

Lemma toString16_digits n :
  exists vs,
    toString16 n = map hexDigit vs
    /\ Forall (fun v => v < 16) vs
    /\ digitsValue vs = n
    /\ (forall k, n < 16 ^ N.of_nat k -> (0 < k)%nat -> (List.length vs <= k)%nat).
Proof.
  unfold toString16.
  destruct (@toString16_aux_digits (N.to_nat (N.log2 n)) n []) as (vs & E & F & V & B).
  - rewrite Nat2N.inj_succ, N2Nat.id.
    destruct (N.eq_dec n 0) as [->|Z]; [reflexivity|].
    destruct (N.log2_spec n) as [_ U]; [lia|].
    eapply N.lt_le_trans; [exact U|].
    change 16 with (2 ^ 4). rewrite <- N.pow_mul_r.
    apply N.pow_le_mono_r; lia.
  - exists vs. rewrite app_nil_r in E. repeat split; try assumption.
    intros k Hk Kpos. destruct B as [B|B]; [lia|].
    assert (L : 16 ^ N.of_nat (List.length vs - 1) < 16 ^ N.of_nat k) by lia.
    apply N.pow_lt_mono_r_iff in L; lia.
Qed.

Lemma digitsValue_zeros k vs :
  digitsValue (repeat 0 k ++ vs) = digitsValue vs.
Proof.
  unfold digitsValue. rewrite fold_digits_app. f_equal.
  induction k as [|k IH]; [reflexivity | exact IH].
Qed.

(** The length as the source renders it: ten digits whose value it is. *)
Lemma padded_length_digits n :
  n < 2 ^ 40 ->
  exists vs,
    padStart0 10 (toString16 n) = map hexDigit vs
    /\ List.length vs = 10%nat
    /\ Forall (fun v => v < 16) vs
    /\ digitsValue vs = n.
Proof.
  intro H. destruct (toString16_digits n) as (vs & E & F & V & L).
  specialize (L 10%nat H ltac:(lia)).
  exists (repeat 0 (10 - List.length vs) ++ vs). unfold padStart0.
  rewrite E, length_map, map_app, map_repeat. repeat split.
  - rewrite length_app, repeat_length. lia.
  - apply Forall_app. split; [|exact F].
    apply Forall_forall. intros x Hx. apply repeat_spec in Hx. subst. lia.
  - now rewrite digitsValue_zeros.
Qed.

(** Ten digits in upper case, read back as bytes: five bytes, whose
    big-endian value is the value of the digits. *)
Lemma Buffer_from_hex_header vs rest :
  List.length vs = 10%nat -> Forall (fun v => v < 16) vs ->
  exists header,
    Buffer_from_hex (toUpperCase (map hexDigit vs ++ rest))
    = header ++ Buffer_from_hex (toUpperCase rest)
    /\ List.length header = 5%nat
    /\ readUIntBE header = digitsValue vs.
Proof.
  intros L F.
  do 10 (destruct vs as [|? vs]; [discriminate L|]).
  destruct vs; [|discriminate L].
  repeat match goal with H : Forall _ (_ :: _) |- _ => inversion_clear H end.
  eexists [_; _; _; _; _]. split; [|split; [reflexivity|]].
  - unfold toUpperCase. cbn [map app Buffer_from_hex].
    rewrite !hexValue_upper_digit by assumption. cbn [app]. reflexivity.
  - unfold readUIntBE, digitsValue. cbn [fold_left].
    rewrite !b2n_n2b by lia. lia.
Qed.

End HexFacts.
(** ** The request framer *)

Section RequestTheorems.

Import Wire.

Variable uuidv4 : nat -> jsstring.
Variable utf8_encode : jsstring -> list byte.

(** C7.  The output of [createHexMessage] is a header of five bytes, the
    big-endian length of the encoded payload, and then that payload; its
    length is five more than the payload's.  (A payload of 2^40 bytes or
    more, which no buffer of the runtime can hold, would need a longer
    header.) *)
Theorem createHexMessage_length_prefix ms modelName k :
  (N.of_nat (List.length
     (encodeChatMessage utf8_encode
        (fst (convertToCursorFormat uuidv4 ms modelName k)))) < 2 ^ 40)%N ->
  exists header,
    fst (createHexMessage uuidv4 utf8_encode ms modelName k)
    = header ++ encodeChatMessage utf8_encode
                  (fst (convertToCursorFormat uuidv4 ms modelName k))
    /\ List.length header = 5%nat
    /\ readUIntBE header
       = N.of_nat (List.length
           (encodeChatMessage utf8_encode
              (fst (convertToCursorFormat uuidv4 ms modelName k))))
    /\ List.length (fst (createHexMessage uuidv4 utf8_encode ms modelName k))
       = (5 + List.length
            (encodeChatMessage utf8_encode
               (fst (convertToCursorFormat uuidv4 ms modelName k))))%nat
    /\ readUIntBE (firstn 5 (fst (createHexMessage uuidv4 utf8_encode ms modelName k)))
       = N.of_nat (List.length
           (encodeChatMessage utf8_encode
              (fst (convertToCursorFormat uuidv4 ms modelName k)))).
Proof.
  unfold createHexMessage.
  destruct (convertToCursorFormat uuidv4 ms modelName k) as [cursorMessage k'].
  cbn [fst]. set (payload := encodeChatMessage utf8_encode cursorMessage).
  intro H.
  destruct (padded_length_digits H) as (vs & E & L & F & V).
  destruct (Buffer_from_hex_header (toString_hex payload) L F) as (header & B & Lh & R).
  rewrite E, B, Buffer_from_hex_toString. exists header.
  repeat split; try assumption.
  - congruence.
  - rewrite length_app. lia.
  - rewrite firstn_app, Lh, Nat.sub_diag, firstn_O, app_nil_r.
    rewrite <- Lh, firstn_all. congruence.
Qed.

(** Every message is written after an empty entry of field 2: the payload
    of a request with a message starts with the bytes 12 00 12. *)
Lemma encodeChatMessage_starts_with_placeholder m ms modelName k :
  exists rest,
    encodeChatMessage utf8_encode
      (fst (convertToCursorFormat uuidv4 (m :: ms) modelName k))
    = x12 :: x00 :: x12 :: rest.
Proof.
  unfold convertToCursorFormat, encodeChatMessage. cbn [fst messages field].
  cbn [formatMessages flat_map]. unfold writeUserMessage at 1.
  change (Pb.uint32 18) with [x12]. change Pb.fork_ldelim with [x00].
  cbn [app]. eexists. reflexivity.
Qed.

(** The entries of field 2 in what [encodeChatMessage] writes for the
    messages: two for each message. *)
Lemma writeUserMessage_two_entries m :
  writeUserMessage utf8_encode m
  = [x12; x00] ++ [x12] ++ Pb.bytes (encodeUserMessage utf8_encode m).
Proof. reflexivity. Qed.

End RequestTheorems.

Lemma createHexMessage_length_prefix_witness :
  exists header,
    fst (Wire.createHexMessage Node.uuidv4 Node.utf8_encode hello (lit "gpt-4o") 0)
    = header ++ Wire.encodeChatMessage Node.utf8_encode
                  (fst (Wire.convertToCursorFormat Node.uuidv4 hello (lit "gpt-4o") 0))
    /\ List.length header = 5%nat.
Proof.
  destruct (@createHexMessage_length_prefix Node.uuidv4 Node.utf8_encode
              hello (lit "gpt-4o") 0%nat) as (header & E & L & _).
  - vm_compute. reflexivity.
  - exists header. split; assumption.
Defined.

(** C1, at a request of one message: the payload starts with an empty
    entry of field 2, and the mirror decoder reads two messages from it, an
    empty one before the message of the request. *)
Theorem createHexMessage_decodes_placeholder :
  firstn 2 (skipn 5 (fst (Wire.createHexMessage Node.uuidv4 Node.utf8_encode
                            hello (lit "gpt-4o") 0)))
  = [x12; x00]
  /\ option_map Wire.messages
       (Mirror.decodeChatMessage Node.utf8_decode
          (skipn 5 (fst (Wire.createHexMessage Node.uuidv4 Node.utf8_encode
                           hello (lit "gpt-4o") 0))))
     = Some (Some [ {| Wire.content := None; Wire.role := None;
                       Wire.messageId := None |};
                    {| Wire.content := Some (lit "Hi"); Wire.role := Some 1%Z;
                       Wire.messageId := Some (Node.uuidv4 0) |} ]).
Proof. vm_compute. split; reflexivity. Qed.

(** ** Varints, and the request read back *)

Section VarintFacts.

Local Open Scope N_scope.

Lemma land_disjoint a b k : a < 2 ^ k -> N.land a (N.shiftl b k) = 0.
Proof.
  intro H. apply N.bits_inj_0. intro n. rewrite N.land_spec.
  destruct (N.lt_ge_cases n k) as [L|G].
  - rewrite (N.shiftl_spec_low b k n L). apply andb_false_r.
  - destruct (N.eq_dec a 0) as [->|Z]; [now rewrite N.bits_0|].
    rewrite (N.bits_above_log2 a n); [reflexivity|].
    apply N.lt_le_trans with k; [|exact G]. apply N.log2_lt_pow2; lia.
Qed.

Lemma lor_disjoint a b k : a < 2 ^ k -> N.lor a (N.shiftl b k) = a + b * 2 ^ k.
Proof.
  intro H. rewrite <- N.lxor_lor by now apply land_disjoint.
  rewrite <- N.add_nocarry_lxor by now apply land_disjoint.
  now rewrite N.shiftl_mul_pow2.
Qed.

Lemma group_mod v : N.land v 127 = v mod 128.
Proof. change 127 with (N.ones 7). now rewrite N.land_ones. Qed.

(** A continuation byte: the low seven bits of the value, and the high
    bit. *)
Lemma continuation_byte v :
  b2n (n2b (N.lor (N.land v 127) 128)) = v mod 128 + 128.
Proof.
  assert (L : v mod 128 < 128) by (apply N.mod_lt; discriminate).
  rewrite group_mod.
  assert (E : N.lor (v mod 128) 128 = v mod 128 + 128).
  { apply (@lor_disjoint (v mod 128) 1 7). exact L. }
  rewrite E. apply b2n_n2b. lia.
Qed.

Lemma continuation_bits x : x < 128 -> N.land (x + 128) 127 = x.
Proof.
  intro L. rewrite group_mod.
  rewrite <- (N.mul_1_l 128) at 1. rewrite N.Div0.mod_add.
  apply N.mod_small. exact L.
Qed.

Lemma last_bits x : x < 128 -> N.land x 127 = x.
Proof. intro L. rewrite group_mod. now apply N.mod_small. Qed.

Lemma continuation_flag x : negb (N.ltb (x + 128) 128) = true.
Proof. destruct (N.ltb_spec (x + 128) 128); [lia|reflexivity]. Qed.

Lemma last_flag x : x <= 127 -> negb (N.ltb x 128) = false.
Proof. intro L. destruct (N.ltb_spec x 128); [reflexivity|lia]. Qed.

Lemma last_byte x : x <= 127 -> b2n (n2b x) = x.
Proof. intro L. apply b2n_n2b. lia. Qed.

Lemma fifth_bits x : x < 16 -> N.land x 15 = x.
Proof.
  intro L. change 15 with (N.ones 4). rewrite N.land_ones.
  now apply N.mod_small.
Qed.

Lemma groups v : v = 128 * (v / 128) + v mod 128 /\ v mod 128 < 128.
Proof.
  split; [apply N.div_mod; discriminate | apply N.mod_lt; discriminate].
Qed.

Ltac varint_bytes :=
  cbn [app]; unfold Pb.read_uint32; cbv zeta beta;
  rewrite ?continuation_byte, ?continuation_flag;
  rewrite last_byte by assumption;
  rewrite last_flag by assumption.

(** What [writer.uint32] writes, [reader.uint32] reads. *)
Lemma read_uint32_writeVarint v rest :
  v < 2 ^ 32 ->
  Pb.read_uint32 (Pb.writeVarint 4 v ++ rest) = Pb.Got v rest.
Proof.
  intro H. change (2 ^ 32) with 4294967296 in H.
  unfold Pb.writeVarint. rewrite !N.shiftr_div_pow2. change (2 ^ 7) with 128.
  destruct (groups v) as [E0 M0].
  destruct (groups (v / 128)) as [E1 M1].
  destruct (groups (v / 128 / 128)) as [E2 M2].
  destruct (groups (v / 128 / 128 / 128)) as [E3 M3].
  destruct (N.ltb_spec 127 v) as [L0|L0].
  2:{ varint_bytes. f_equal. rewrite N.shiftl_0_r. apply last_bits. lia. }
  destruct (N.ltb_spec 127 (v / 128)) as [L1|L1].
  2:{ varint_bytes. f_equal. rewrite N.shiftl_0_r.
      rewrite continuation_bits by assumption.
      rewrite last_bits by lia.
      rewrite lor_disjoint with (k := 7) by (change (2 ^ 7) with 128; assumption).
      change (2 ^ 7) with 128. lia. }
  destruct (N.ltb_spec 127 (v / 128 / 128)) as [L2|L2].
  2:{ varint_bytes. f_equal. rewrite N.shiftl_0_r.
      rewrite !continuation_bits by assumption.
      rewrite last_bits by lia.
      rewrite lor_disjoint with (k := 7) by (change (2 ^ 7) with 128; assumption).
      rewrite lor_disjoint with (k := 14) by (change (2 ^ 7) with 128; change (2 ^ 14) with 16384; lia).
      change (2 ^ 7) with 128. change (2 ^ 14) with 16384. lia. }
  destruct (N.ltb_spec 127 (v / 128 / 128 / 128)) as [L3|L3].
  2:{ varint_bytes. f_equal. rewrite N.shiftl_0_r.
      rewrite !continuation_bits by assumption.
      rewrite last_bits by lia.
      rewrite lor_disjoint with (k := 7) by (change (2 ^ 7) with 128; assumption).
      rewrite lor_disjoint with (k := 14) by (change (2 ^ 7) with 128; change (2 ^ 14) with 16384; lia).
      rewrite lor_disjoint with (k := 21)
        by (change (2 ^ 7) with 128; change (2 ^ 14) with 16384;
            change (2 ^ 21) with 2097152; lia).
      change (2 ^ 7) with 128. change (2 ^ 14) with 16384.
      change (2 ^ 21) with 2097152. lia. }
  assert (B1 : v / 128 < 33554432) by (apply N.Div0.div_lt_upper_bound; lia).
  assert (B2 : v / 128 / 128 < 262144) by (apply N.Div0.div_lt_upper_bound; lia).
  assert (B3 : v / 128 / 128 / 128 < 2048) by (apply N.Div0.div_lt_upper_bound; lia).
  assert (L4 : v / 128 / 128 / 128 / 128 < 16)
    by (apply N.Div0.div_lt_upper_bound; lia).
  assert (L4' : v / 128 / 128 / 128 / 128 <= 127) by lia.
  cbn [app]; unfold Pb.read_uint32; cbv zeta beta.
  rewrite ?continuation_byte, ?continuation_flag.
  rewrite last_byte by assumption. rewrite last_flag by assumption.
  f_equal. rewrite N.shiftl_0_r.
  rewrite !continuation_bits by assumption.
  rewrite fifth_bits by assumption.
  rewrite lor_disjoint with (k := 7) by (change (2 ^ 7) with 128; assumption).
  rewrite lor_disjoint with (k := 14) by (change (2 ^ 7) with 128; change (2 ^ 14) with 16384; lia).
  rewrite lor_disjoint with (k := 21)
    by (change (2 ^ 7) with 128; change (2 ^ 14) with 16384;
        change (2 ^ 21) with 2097152; lia).
  rewrite lor_disjoint with (k := 28)
    by (change (2 ^ 7) with 128; change (2 ^ 14) with 16384;
        change (2 ^ 21) with 2097152; change (2 ^ 28) with 268435456; lia).
  change (2 ^ 7) with 128. change (2 ^ 14) with 16384.
  change (2 ^ 21) with 2097152. change (2 ^ 28) with 268435456.
  destruct (groups (v / 128 / 128 / 128 / 128)) as [E4 M4]. lia.
Qed.

End VarintFacts.

Section MirrorFacts.

Import Wire Mirror.

Variable utf8_encode : jsstring -> list byte.
Variable utf8_decode : list byte -> jsstring.
Variable uuidv4 : nat -> jsstring.

Local Open Scope N_scope.

Local Abbreviation carried' := (carried utf8_encode utf8_decode).

Lemma ToUint32_small z : (0 <= z < 2 ^ 32)%Z -> Pb.ToUint32 z = Z.to_N z.
Proof. intro H. unfold Pb.ToUint32. now rewrite Z.mod_small. Qed.

Lemma read_uint32_uint32 z rest :
  (0 <= z < 2 ^ 32)%Z ->
  Pb.read_uint32 (Pb.uint32 z ++ rest) = Pb.Got (Z.to_N z) rest.
Proof.
  intro H. unfold Pb.uint32. rewrite ToUint32_small by exact H.
  apply read_uint32_writeVarint. change (2 ^ 32) with (Z.to_N (2 ^ 32)). lia.
Qed.

Lemma uint32_not_nil z : Pb.uint32 z <> [].
Proof.
  unfold Pb.uint32, Pb.writeVarint.
  destruct (N.ltb 127 (Pb.ToUint32 z)); discriminate.
Qed.

Lemma read_uint32_length n rest :
  N.of_nat n < 2 ^ 32 ->
  Pb.read_uint32 (Pb.uint32 (Z.of_nat n) ++ rest) = Pb.Got (N.of_nat n) rest.
Proof.
  intro H. change (2 ^ 32) with 4294967296 in H.
  rewrite read_uint32_uint32 by (change (2 ^ 32)%Z with 4294967296%Z; lia).
  f_equal. lia.
Qed.

(** What [writer.string] writes, [reader.string] reads. *)
Lemma read_string_string s rest :
  N.of_nat (List.length (utf8_encode s)) < 2 ^ 32 ->
  Pb.read_string utf8_decode false (Pb.string utf8_encode s ++ rest)
  = Pb.Got (utf8_decode (utf8_encode s)) rest.
Proof.
  intro H. unfold Pb.read_string, Pb.string. cbv zeta.
  rewrite <- app_assoc, read_uint32_length by exact H.
  rewrite Nat2N.id, firstn_app, Nat.sub_diag, firstn_O, app_nil_r, firstn_all.
  rewrite skipn_app, Nat.sub_diag, skipn_all. cbn [app skipn negb andb].
  destruct (N.ltb_spec (N.of_nat (List.length (utf8_encode s ++ rest)))
              (N.of_nat (List.length (utf8_encode s)))) as [L|L];
    [rewrite length_app in L; lia | reflexivity].
Qed.

(** What [writer.bytes] writes, [reader.bytes] reads. *)
Lemma read_bytes_bytes body rest :
  N.of_nat (List.length body) < 2 ^ 32 ->
  read_bytes (Pb.bytes body ++ rest) = Pb.Got body rest.
Proof.
  intro H. unfold read_bytes, Pb.bytes.
  rewrite ToUint32_small
    by (change (2 ^ 32) with 4294967296 in H;
        change (2 ^ 32)%Z with 4294967296%Z; lia).
  destruct (N.eqb_spec (Z.to_N (Z.of_nat (List.length body))) 0) as [E|E].
  - destruct body; [|cbn [List.length] in E; lia].
    change ([x00] ++ rest) with (Pb.uint32 0 ++ rest).
    rewrite read_uint32_uint32 by (split; [lia | reflexivity]).
    cbn [Z.to_N N.to_nat firstn skipn]. now destruct rest.
  - rewrite <- app_assoc, read_uint32_length by exact H.
    rewrite Nat2N.id, firstn_app, Nat.sub_diag, firstn_O, app_nil_r, firstn_all.
    rewrite skipn_app, Nat.sub_diag, skipn_all. cbn [app skipn].
    destruct (N.ltb_spec (N.of_nat (List.length (body ++ rest)))
                (N.of_nat (List.length body))) as [L|L];
      [rewrite length_app in L; lia | reflexivity].
Qed.

Lemma decodes_nil {A : Type} (field : N -> list byte -> A -> option (Pb.read A)) a :
  decodes field [] a a.
Proof. intros [|f] L; [cbn in L; lia | reflexivity]. Qed.

(** One turn of the loop: a tag, and the field it names. *)
Lemma decodes_cons {A : Type} (field : N -> list byte -> A -> option (Pb.read A))
    e rest tag r' a a1 a' :
  e <> [] ->
  Pb.read_uint32 (e ++ rest) = Pb.Got tag r' ->
  field tag r' a = Some (Pb.Got a1 rest) ->
  decodes field rest a1 a' ->
  decodes field (e ++ rest) a a'.
Proof.
  intros Ne R F D [|f] L; [lia|].
  cbn [fields]. destruct (e ++ rest) as [|b r] eqn:E.
  - destruct e; [congruence | discriminate].
  - rewrite R, F. apply D. rewrite <- E, length_app in L.
    destruct e; [congruence | cbn [List.length] in L; lia].
Qed.

(** A string field. *)
Lemma decodes_string {A : Type} (field : N -> list byte -> A -> option (Pb.read A))
    t s put rest a a' :
  (0 <= t < 2 ^ 32)%Z ->
  (forall r, field (Z.to_N t) r a = set (string_of utf8_decode r) put) ->
  N.of_nat (List.length (utf8_encode s)) < 2 ^ 32 ->
  carried utf8_encode utf8_decode s ->
  decodes field rest (put s) a' ->
  decodes field (string_field utf8_encode t (Some s) ++ rest) a a'.
Proof.
  intros T F L C D. unfold string_field, Wire.field.
  apply decodes_cons with (tag := Z.to_N t)
    (r' := Pb.string utf8_encode s ++ rest) (a1 := put s).
  - intro E. apply app_eq_nil in E. now apply (@uint32_not_nil t).
  - rewrite <- app_assoc. now apply read_uint32_uint32.
  - rewrite F. unfold set, string_of. rewrite read_string_string by exact L.
    now rewrite C.
  - exact D.
Qed.

(** A field that holds a message. *)
Lemma decodes_nested {A B : Type}
    (field : N -> list byte -> A -> option (Pb.read A))
    (inner : N -> list byte -> B -> option (Pb.read B))
    t body init b put rest a a' :
  (0 <= t < 2 ^ 32)%Z ->
  (forall r, field (Z.to_N t) r a = nested inner init put r) ->
  N.of_nat (List.length body) < 2 ^ 32 ->
  decodes inner body init b ->
  decodes field rest (put b) a' ->
  decodes field ((Pb.uint32 t ++ Pb.bytes body) ++ rest) a a'.
Proof.
  intros T F L I D.
  apply decodes_cons with (tag := Z.to_N t) (r' := Pb.bytes body ++ rest)
    (a1 := put b).
  - intro E. apply app_eq_nil in E. now apply (@uint32_not_nil t).
  - rewrite <- app_assoc. now apply read_uint32_uint32.
  - rewrite F. unfold nested. rewrite read_bytes_bytes by exact L.
    now rewrite (I (S (List.length body)) (Nat.lt_succ_diag_r _)).
  - exact D.
Qed.

Lemma writeVarint_length f v : (List.length (Pb.writeVarint f v) <= S f)%nat.
Proof.
  revert v. induction f as [|f IH]; intro v; cbn [Pb.writeVarint].
  - cbn. lia.
  - destruct (N.ltb 127 v); cbn [List.length]; [specialize (IH (N.shiftr v 7))|]; lia.
Qed.

Lemma uint32_length z : (List.length (Pb.uint32 z) <= 5)%nat.
Proof. apply writeVarint_length. Qed.

Lemma string_length s :
  (List.length (Pb.string utf8_encode s) <= 5 + List.length (utf8_encode s))%nat.
Proof.
  unfold Pb.string. cbv zeta. rewrite length_app.
  pose proof (uint32_length (Z.of_nat (List.length (utf8_encode s)))). lia.
Qed.

Lemma weight_app l1 l2 :
  weight utf8_encode (l1 ++ l2) = (weight utf8_encode l1 + weight utf8_encode l2)%nat.
Proof. unfold weight. now rewrite map_app, list_sum_app. Qed.

Lemma weight_cons s l :
  weight utf8_encode (s :: l)
  = (List.length (utf8_encode s) + weight utf8_encode l)%nat.
Proof. reflexivity. Qed.

Lemma read_int32_int32 z rest :
  (0 <= z < 2 ^ 31)%Z -> read_int32 (Pb.int32 z ++ rest) = Pb.Got z rest.
Proof.
  intro H. change (2 ^ 31)%Z with 2147483648%Z in H.
  unfold read_int32, Pb.int32.
  destruct (Z.ltb_spec z 0) as [L|_]; [lia|].
  rewrite read_uint32_uint32 by (change (2 ^ 32)%Z with 4294967296%Z; lia).
  destruct (N.ltb_spec (Z.to_N z) (2 ^ 31)) as [_|G].
  - f_equal. lia.
  - change (2 ^ 31) with 2147483648 in G. lia.
Qed.

Lemma user_role_cases r : user_role r = 1%Z \/ user_role r = 2%Z.
Proof. unfold user_role. destruct (eqb r (lit "user")); auto. Qed.

Lemma encodeUserMessage_length s r i :
  (List.length
     (encodeUserMessage utf8_encode
        {| content := Some s; role := Some (user_role r); messageId := Some i |})
   <= 14 + List.length (utf8_encode s) + List.length (utf8_encode i))%nat.
Proof.
  unfold encodeUserMessage, string_field, Wire.field. cbn [content role messageId].
  rewrite !length_app.
  pose proof (string_length s). pose proof (string_length i).
  change (List.length (Pb.uint32 10)) with 1%nat.
  change (List.length (Pb.uint32 16)) with 1%nat.
  change (List.length (Pb.uint32 106)) with 1%nat.
  assert (R : List.length (Pb.int32 (user_role r)) = 1%nat)
    by (destruct (user_role_cases r) as [-> | ->]; reflexivity).
  lia.
Qed.

(** The body of a message of [convertToCursorFormat] reads back as the
    message. *)
Lemma decodes_userMessage s r i :
  let m := {| content := Some s; role := Some (user_role r); messageId := Some i |} in
  N.of_nat (weight utf8_encode (message_strings m)) < 2 ^ 31 ->
  Forall carried' (message_strings m) ->
  decodes (userMessage_field utf8_decode) (encodeUserMessage utf8_encode m)
    placeholder m.
Proof.
  intros m L C. subst m. cbn in L.
  change (2 ^ 31) with 2147483648 in L.
  unfold message_strings in C. cbn [content messageId present app] in C.
  apply Forall_cons_iff in C. destruct C as [Cs C].
  apply Forall_cons_iff in C. destruct C as [Ci _].
  unfold encodeUserMessage. cbn [content role messageId].
  apply decodes_string with
    (put := fun s => {| content := Some s; role := None; messageId := None |});
    [split; [lia | reflexivity] | reflexivity
    | change (2 ^ 32) with 4294967296; lia | exact Cs |].
  unfold Wire.field at 1.
  apply decodes_cons with (tag := 16)
    (r' := Pb.int32 (user_role r) ++ string_field utf8_encode 106 (Some i))
    (a1 := {| content := Some s; role := Some (user_role r); messageId := None |}).
  - intro E. apply app_eq_nil in E. now apply (@uint32_not_nil 16).
  - rewrite <- app_assoc. apply read_uint32_uint32. split; [lia | reflexivity].
  - change (userMessage_field utf8_decode 16 ?x ?y)
      with (set (read_int32 x)
              (fun z => {| content := content y; role := Some z;
                           messageId := messageId y |})).
    rewrite read_int32_int32; [reflexivity|].
    destruct (user_role_cases r) as [-> | ->]; split; (lia || reflexivity).
  - rewrite <- (app_nil_r (string_field utf8_encode 106 (Some i))).
    apply decodes_string with
      (put := fun i => {| content := Some s; role := Some (user_role r);
                          messageId := Some i |});
      [split; [lia | reflexivity] | reflexivity
      | change (2 ^ 32) with 4294967296; lia | exact Ci |].
    apply decodes_nil.
Qed.

Lemma with_placeholders_cons m l :
  with_placeholders (m :: l) = placeholder :: m :: with_placeholders l.
Proof. reflexivity. Qed.

(** The entries of field 2: each message of the request is read after an
    empty one. *)
Lemma decodes_messages ms : forall k l c rest c',
  N.of_nat (weight utf8_encode
              (flat_map message_strings (formatMessages uuidv4 ms k))) < 2 ^ 31 ->
  Forall carried' (flat_map message_strings (formatMessages uuidv4 ms k)) ->
  decodes (chatMessage_field utf8_decode) rest
    (put_messages c (l ++ with_placeholders (formatMessages uuidv4 ms k))) c' ->
  decodes (chatMessage_field utf8_decode)
    (flat_map (writeUserMessage utf8_encode) (formatMessages uuidv4 ms k) ++ rest)
    (put_messages c l) c'.
Proof.
  induction ms as [|m ms IH]; intros k l c rest c' L C D.
  - cbn in D |- *. now rewrite app_nil_r in D.
  - cbn [formatMessages flat_map] in *.
    set (m' := {| content := Some (OpenAI.content m);
                  role := Some (user_role (OpenAI.role m));
                  messageId := Some (uuidv4 k) |}) in *.
    apply Forall_app in C. destruct C as [Cm C].
    rewrite weight_app in L.
    assert (Lm : N.of_nat (weight utf8_encode (message_strings m')) < 2 ^ 31
                 /\ N.of_nat (weight utf8_encode
                      (flat_map message_strings (formatMessages uuidv4 ms (S k))))
                    < 2 ^ 31)
      by (change (2 ^ 31) with 2147483648 in *; lia).
    destruct Lm as [Lm Lr].
    assert (Lb : N.of_nat (List.length (encodeUserMessage utf8_encode m')) < 2 ^ 32).
    { pose proof (encodeUserMessage_length (OpenAI.content m) (OpenAI.role m)
                    (uuidv4 k)) as B. fold m' in B.
      unfold message_strings at 1 in L. subst m'.
      cbn [content messageId present app] in L. rewrite !weight_cons in L.
      change (weight utf8_encode []) with 0%nat in L.
      change (2 ^ 31) with 2147483648 in L. change (2 ^ 32) with 4294967296.
      lia. }
    unfold writeUserMessage at 1. change Pb.fork_ldelim with (Pb.bytes []).
    replace (((Pb.uint32 18 ++ Pb.bytes []
               ++ Pb.uint32 18 ++ Pb.bytes (encodeUserMessage utf8_encode m'))
              ++ flat_map (writeUserMessage utf8_encode)
                  (formatMessages uuidv4 ms (S k))) ++ rest)
      with ((Pb.uint32 18 ++ Pb.bytes [])
            ++ (Pb.uint32 18 ++ Pb.bytes (encodeUserMessage utf8_encode m'))
            ++ flat_map (writeUserMessage utf8_encode)
                 (formatMessages uuidv4 ms (S k)) ++ rest)
      by (now rewrite <- !app_assoc).
    apply decodes_nested with (inner := userMessage_field utf8_decode)
      (init := placeholder) (b := placeholder)
      (put := fun x => with_messages (put_messages c l) (fun l0 => l0 ++ [x]));
      [split; [lia | reflexivity] | reflexivity | reflexivity | apply decodes_nil |].
    change (with_messages (put_messages c l) (fun l0 => l0 ++ [placeholder]))
      with (put_messages c (l ++ [placeholder])).
    apply decodes_nested with (inner := userMessage_field utf8_decode)
      (init := placeholder) (b := m')
      (put := fun x => with_messages (put_messages c (l ++ [placeholder]))
                         (fun l0 => l0 ++ [x]));
      [split; [lia | reflexivity] | reflexivity | exact Lb
      | (apply decodes_userMessage; [exact Lm | exact Cm]) |].
    change (with_messages (put_messages c (l ++ [placeholder])) (fun l0 => l0 ++ [m']))
      with (put_messages c ((l ++ [placeholder]) ++ [m'])).
    apply IH; [exact Lr | exact C |].
    rewrite with_placeholders_cons in D.
    now rewrite <- !app_assoc.
Qed.

Lemma string_field_length t s :
  (0 <= t < 128)%Z ->
  (List.length (string_field utf8_encode t (Some s))
   <= 6 + List.length (utf8_encode s))%nat.
Proof.
  intro T. unfold string_field, Wire.field. rewrite length_app.
  pose proof (string_length s).
  assert (List.length (Pb.uint32 t) = 1%nat); [|lia].
  unfold Pb.uint32, Pb.writeVarint. rewrite ToUint32_small.
  - destruct (N.ltb_spec 127 (Z.to_N t)); [lia | reflexivity].
  - change (2 ^ 32)%Z with 4294967296%Z. lia.
Qed.

(** X1.  The payload of a request, read by the schema of the adapter, is
    the request with an empty message before each of its messages: the
    contents, the roles, the identifiers and the model name come back as
    they were sent, when the strings survive UTF-8 and hold fewer than 2^31
    bytes in all. *)
Theorem encodeChatMessage_read_back ms modelName k :
  let c := fst (convertToCursorFormat uuidv4 ms modelName k) in
  N.of_nat (weight utf8_encode (strings_of c)) < 2 ^ 31 ->
  Forall carried' (strings_of c) ->
  decodeChatMessage utf8_decode (encodeChatMessage utf8_encode c)
  = Some (with_messages c with_placeholders).
Proof.
  intros c W C. subst c. unfold convertToCursorFormat in *. cbn [fst] in *.
  unfold strings_of in W, C.
  cbn [messages instructions projectPath model requestId summary conversationId
       instruction name empty present] in W, C.
  rewrite !weight_app in W. rewrite !Forall_app in C.
  destruct C as (Cm & Ci & Cp & (Cn & Ce) & Cr & Cs & Cc).
  apply Forall_cons_iff in Ci, Cp, Cn, Ce, Cr, Cs, Cc.
  destruct Ci as [Ci _], Cp as [Cp _], Cn as [Cn _], Ce as [Ce _],
    Cr as [Cr _], Cs as [Cs _], Cc as [Cc _].
  cbn [app] in W. rewrite !weight_cons in W.
  change (weight utf8_encode []) with 0%nat in W.
  change (2 ^ 31) with 2147483648 in W.
  set (instr := lit "Always respond in the user's preferred language") in *.
  set (path := lit "/cursor-sdk-project") in *.
  set (rid := uuidv4 (k + List.length ms)) in *.
  set (cid := uuidv4 (k + List.length ms + 1)) in *.
  set (fm := formatMessages uuidv4 ms k) in *.
  unfold decodeChatMessage, encodeChatMessage.
  cbn [messages instructions projectPath model requestId summary conversationId
       instruction name empty Wire.field].
  match goal with
  | |- match fields _ _ ?p ?a with _ => _ end = Some ?b =>
      assert (D : decodes (chatMessage_field utf8_decode) p a b);
      [| now rewrite (D (S (List.length p)) (Nat.lt_succ_diag_r _))]
  end.
  pose proof (@string_field_length 10%Z instr ltac:(lia)) as Li.
  pose proof (@string_field_length 10%Z modelName ltac:(lia)) as Ln.
  assert (Le : (List.length (string_field utf8_encode 34 (@Some (list char16) []))
                <= 6 + List.length (utf8_encode []))%nat)
    by (apply string_field_length; lia).
  apply (@decodes_messages ms k []
           {| messages := Some []; instructions := None; projectPath := None;
              model := None; requestId := None; summary := None;
              conversationId := None |}).
  { fold fm. change (2 ^ 31) with 2147483648. lia. }
  { exact Cm. }
  fold fm. cbn [app].
  apply decodes_nested with (inner := instructions_field utf8_decode)
    (init := {| instruction := None |}) (b := {| instruction := Some instr |})
    (put := fun i =>
       {| messages := Some (with_placeholders fm); instructions := Some i;
          projectPath := None; model := None; requestId := None;
          summary := None; conversationId := None |});
    [split; [lia | reflexivity] | reflexivity
    | change (2 ^ 32) with 4294967296; lia | |].
  { rewrite <- (app_nil_r (string_field utf8_encode 10 (Some instr))).
    apply decodes_string with (put := fun s => {| instruction := Some s |});
      [split; [lia | reflexivity] | reflexivity
      | change (2 ^ 32) with 4294967296; lia | exact Ci | apply decodes_nil]. }
  apply decodes_string with
    (put := fun s =>
       {| messages := Some (with_placeholders fm);
          instructions := Some {| instruction := Some instr |};
          projectPath := Some s; model := None; requestId := None;
          summary := None; conversationId := None |});
    [split; [lia | reflexivity] | reflexivity
    | change (2 ^ 32) with 4294967296; lia | exact Cp |].
  apply decodes_nested with (inner := model_field utf8_decode)
    (init := {| name := None; empty := None |})
    (b := {| name := Some modelName; empty := Some [] |})
    (put := fun m =>
       {| messages := Some (with_placeholders fm);
          instructions := Some {| instruction := Some instr |};
          projectPath := Some path; model := Some m; requestId := None;
          summary := None; conversationId := None |});
    [split; [lia | reflexivity] | reflexivity
    | rewrite length_app; change (2 ^ 32) with 4294967296; lia | |].
  { apply decodes_string with
      (put := fun s => {| name := Some s; empty := None |});
      [split; [lia | reflexivity] | reflexivity
      | change (2 ^ 32) with 4294967296; lia | exact Cn |].
    rewrite <- (app_nil_r (string_field utf8_encode 34 (Some []))).
    apply decodes_string with
      (put := fun s => {| name := Some modelName; empty := Some s |});
      [split; [lia | reflexivity] | reflexivity
      | change (2 ^ 32) with 4294967296; lia | exact Ce | apply decodes_nil]. }
  apply decodes_string with
    (put := fun s =>
       {| messages := Some (with_placeholders fm);
          instructions := Some {| instruction := Some instr |};
          projectPath := Some path;
          model := Some {| name := Some modelName; empty := Some [] |};
          requestId := Some s; summary := None; conversationId := None |});
    [split; [lia | reflexivity] | reflexivity
    | change (2 ^ 32) with 4294967296; lia | exact Cr |].
  apply decodes_string with
    (put := fun s =>
       {| messages := Some (with_placeholders fm);
          instructions := Some {| instruction := Some instr |};
          projectPath := Some path;
          model := Some {| name := Some modelName; empty := Some [] |};
          requestId := Some rid; summary := Some s; conversationId := None |});
    [split; [lia | reflexivity] | reflexivity
    | change (2 ^ 32) with 4294967296; lia | exact Cs |].
  rewrite <- (app_nil_r (string_field utf8_encode 122 (Some cid))).
  apply decodes_string with
    (put := fun s =>
       {| messages := Some (with_placeholders fm);
          instructions := Some {| instruction := Some instr |};
          projectPath := Some path;
          model := Some {| name := Some modelName; empty := Some [] |};
          requestId := Some rid; summary := Some []; conversationId := Some s |});
    [split; [lia | reflexivity] | reflexivity
    | change (2 ^ 32) with 4294967296; lia | exact Cc | apply decodes_nil].
Qed.

End MirrorFacts.

Lemma encodeChatMessage_read_back_witness :
  Mirror.decodeChatMessage Node.utf8_decode
    (Wire.encodeChatMessage Node.utf8_encode
       (fst (Wire.convertToCursorFormat Node.uuidv4 hello (lit "gpt-4o") 0)))
  = Some (Mirror.with_messages
            (fst (Wire.convertToCursorFormat Node.uuidv4 hello (lit "gpt-4o") 0))
            with_placeholders).
Proof.
  apply (@encodeChatMessage_read_back Node.utf8_encode Node.utf8_decode
           Node.uuidv4 hello (lit "gpt-4o") 0%nat).
  - vm_compute. reflexivity.
  - repeat (constructor; [vm_compute; reflexivity|]). constructor.
Defined.

(** ** The Reader, and [decodeResMessage] *)

Section ReaderFacts.

Import Wire.

Variable utf8_decode : list byte -> jsstring.

Lemma read_uint32_shorter r v r' :
  Pb.read_uint32 r = Pb.Got v r' -> (List.length r' < List.length r)%nat.
Proof.
  unfold Pb.read_uint32.
  destruct r as [|b0 [|b1 [|b2 [|b3 [|b4 r5]]]]]; cbn [List.length];
    repeat match goal with
           | |- context [if ?c then _ else _] => destruct c
           end;
    intro H; inversion H; subst; cbn [List.length]; try lia.
  destruct r5 as [|? [|? [|? [|? [|? ?]]]]]; cbn [List.length]; lia.
Qed.

Lemma skip_shorter n r u r' :
  Pb.skip n r = Pb.Got u r' -> (List.length r' <= List.length r)%nat.
Proof.
  unfold Pb.skip. destruct (N.ltb _ _); [discriminate|].
  intros [= _ <-]. rewrite length_skipn. lia.
Qed.

Lemma skip_varint_shorter r u r' :
  Pb.skip_varint r = Pb.Got u r' -> (List.length r' <= List.length r)%nat.
Proof.
  induction r as [|b r IH]; simpl; [discriminate|].
  destruct (N.testbit _ _).
  - intro H. apply IH in H. lia.
  - intros [= _ <-]. lia.
Qed.

(** Enough fuel for [skipType]: more than the bytes left. *)
Lemma skipType_total fuel : forall w r,
  (List.length r < fuel)%nat ->
  exists x, Pb.skipType fuel w r = Some x
            /\ forall u r', x = Pb.Got u r' -> (List.length r' <= List.length r)%nat.
Proof.
  induction fuel as [|f IH]; intros w r L; [lia|].
  destruct w as [|p].
  { eexists; split; [reflexivity|]. intros u r'. apply skip_varint_shorter. }
  destruct p as [[|[]|]|[[]|[]|]|];
    try (eexists; split; [reflexivity|]; discriminate);
    try (eexists; split; [reflexivity|]; intros u r'; apply skip_shorter).
  - (* 3: a group *)
    cbn [Pb.skipType]. destruct (Pb.read_uint32 r) as [tag r1|] eqn:T;
      [|eexists; split; [reflexivity | discriminate]].
    apply read_uint32_shorter in T.
    destruct (N.eqb (N.land tag 7) 4).
    { eexists; split; [reflexivity|]. intros u r' [= _ <-]. lia. }
    destruct (IH (N.land tag 7) r1) as (x & E & Hx); [lia|]. rewrite E.
    destruct x as [u r2|]; [|eexists; split; [reflexivity | discriminate]].
    specialize (Hx u r2 eq_refl).
    destruct (IH 3%N r2) as (y & E' & Hy); [lia|].
    exists y. split; [exact E'|]. intros v r' Y. specialize (Hy v r' Y). lia.
  - (* 2: a length and that many bytes *)
    cbn [Pb.skipType]. destruct (Pb.read_uint32 r) as [n r1|] eqn:T;
      [|eexists; split; [reflexivity | discriminate]].
    apply read_uint32_shorter in T.
    eexists; split; [reflexivity|]. intros u r' S. apply skip_shorter in S. lia.
Qed.

Lemma read_string_shorter b r s r' :
  Pb.read_string utf8_decode b r = Pb.Got s r' ->
  (List.length r' < List.length r)%nat.
Proof.
  unfold Pb.read_string. destruct (Pb.read_uint32 r) as [n r1|] eqn:T;
    [|discriminate].
  apply read_uint32_shorter in T. destruct (_ && _); [discriminate|].
  intros [= _ <-]. rewrite length_skipn. lia.
Qed.

Lemma decodeLoop_total fuel : forall b r m,
  (List.length r < fuel)%nat -> decodeLoop utf8_decode fuel b r m <> None.
Proof.
  induction fuel as [|f IH]; intros b r m L; [lia|].
  cbn [decodeLoop]. destruct r as [|c r0]; [discriminate|].
  destruct (Pb.read_uint32 (c :: r0)) as [tag r1|] eqn:T; [|discriminate].
  apply read_uint32_shorter in T.
  destruct (N.eqb (N.shiftr tag 3) 1).
  - destruct (Pb.read_string utf8_decode b r1) as [s r2|] eqn:S; [|discriminate].
    apply read_string_shorter in S. apply IH. lia.
  - destruct (@skipType_total (S (List.length r1)) (N.land tag 7) r1)
      as (x & E & Hx); [lia|]. rewrite E.
    destruct x as [u r2|]; [|discriminate].
    specialize (Hx u r2 eq_refl). apply IH. lia.
Qed.

(** [decodeResMessage] returns a message or throws: the fuel of its loop
    does not run out. *)
Lemma decodeResMessage_total b buffer :
  exists d, decodeResMessage utf8_decode b buffer = Some d.
Proof.
  unfold decodeResMessage.
  destruct (decodeLoop utf8_decode (S (List.length buffer)) b buffer
              {| msg := None |}) as [[m r|]|] eqn:E.
  - now eexists.
  - now eexists.
  - exfalso. revert E. apply decodeLoop_total. lia.
Qed.

Lemma decodeResMessage_empty b :
  decodeResMessage utf8_decode b [] = Some (Some {| msg := None |}).
Proof. reflexivity. Qed.

End ReaderFacts.
(** ** [parseHexResponse] on the rendering of framed messages *)

Section FramingFacts.

Import Wire.

Variable utf8_decode : list byte -> jsstring.

Local Abbreviation decodedText := (decodedText utf8_decode).

Local Open Scope N_scope.

Lemma hexValue_digit v : v < 16 -> hexValue (hexDigit v) = Some v.
Proof.
  intro H. apply nibble_cases in H.
  repeat (destruct H as [-> | H]; [reflexivity|]). now subst.
Qed.

Lemma nibbles_lt bs : Forall (fun v => v < 16) (nibbles bs).
Proof.
  induction bs as [|b bs IH]; [constructor|]. pose proof (b2n_lt b).
  change (nibbles (b :: bs)) with (b2n b / 16 :: b2n b mod 16 :: nibbles bs).
  constructor; [apply N.Div0.div_lt_upper_bound; lia|].
  constructor; [apply N.mod_lt; lia | exact IH].
Qed.

Lemma nibbles_app a b : nibbles (a ++ b) = nibbles a ++ nibbles b.
Proof. unfold nibbles. apply flat_map_app. Qed.

Lemma toString_hex_app a b : toString_hex (a ++ b) = toString_hex a ++ toString_hex b.
Proof. unfold toString_hex. apply flat_map_app. Qed.

Lemma toString_hex_length bs :
  List.length (toString_hex bs) = (2 * List.length bs)%nat.
Proof.
  induction bs as [|b bs IH]; [reflexivity|].
  change (toString_hex (b :: bs)) with (hexDigit (b2n b / 16) :: hexDigit (b2n b mod 16) :: toString_hex bs).
  cbn [List.length]. lia.
Qed.

(** The buffer read back from its rendering. *)
Lemma Buffer_from_toString_hex bs : Buffer_from_hex (toString_hex bs) = bs.
Proof.
  induction bs as [|b bs IH]; [reflexivity|]. pose proof (b2n_lt b).
  change (toString_hex (b :: bs)) with (hexDigit (b2n b / 16) :: hexDigit (b2n b mod 16) :: toString_hex bs).
  cbn [Buffer_from_hex].
  rewrite !hexValue_digit, IH
    by (try (apply N.Div0.div_lt_upper_bound; lia); apply N.mod_lt; lia).
  f_equal. rewrite <- (n2b_b2n b) at 3. f_equal.
  rewrite (N.div_mod (b2n b) 16) at 3 by lia. reflexivity.
Qed.

Lemma digitsValue_nibbles bs : digitsValue (nibbles bs) = readUIntBE bs.
Proof.
  unfold digitsValue, readUIntBE. generalize 0.
  induction bs as [|b bs IH]; intro a; [reflexivity|].
  change (nibbles (b :: bs)) with (b2n b / 16 :: b2n b mod 16 :: nibbles bs).
  cbn [fold_left]. rewrite IH. f_equal.
  rewrite (N.div_mod (b2n b) 16) at 3 by lia. lia.
Qed.

Lemma hexPrefixValue_digits vs : forall a,
  Forall (fun v => v < 16) vs ->
  hexPrefixValue (map hexDigit vs) (Some (Z.of_N a))
  = Some (Z.of_N (fold_left (fun a v => a * 16 + v) vs a)).
Proof.
  induction vs as [|v vs IH]; intros a F; [reflexivity|].
  inversion_clear F as [|? ? Hv F']. cbn [map hexPrefixValue fold_left].
  rewrite (hexValue_digit Hv), <- (IH _ F'). do 2 f_equal. lia.
Qed.

Lemma parseInt16_two_digits v0 v1 t :
  v0 < 16 -> v1 < 16 ->
  parseInt16 (hexDigit v0 :: hexDigit v1 :: t)
  = hexPrefixValue t (Some (Z.of_N (v0 * 16 + v1))).
Proof.
  intros H0 H1.
  transitivity (option_map (Z.mul 1) (hexPrefixValue t (Some (Z.of_N (v0 * 16 + v1)))));
    [|destruct (hexPrefixValue t _) as [z|]; [unfold option_map; f_equal; apply Z.mul_1_l | reflexivity]].
  apply nibble_cases in H0, H1.
  repeat (destruct H0 as [-> | H0];
          [repeat (destruct H1 as [-> | H1]; [reflexivity|]);
           subst; reflexivity|]).
  subst. repeat (destruct H1 as [-> | H1]; [reflexivity|]).
  subst; reflexivity.
Qed.

(** [parseInt] reads the rendering of bytes as their big-endian value: it
    finds no white space, sign or [0x] to strip. *)
Lemma parseInt16_toString_hex b bs :
  parseInt16 (toString_hex (b :: bs)) = Some (Z.of_N (readUIntBE (b :: bs))).
Proof.
  rewrite <- digitsValue_nibbles, toString_hex_nibbles.
  pose proof (nibbles_lt (b :: bs)) as F.
  change (nibbles (b :: bs)) with (b2n b / 16 :: b2n b mod 16 :: nibbles bs) in *.
  inversion_clear F as [|? ? H0 F']. inversion_clear F' as [|? ? H1 F].
  cbn [map]. rewrite (parseInt16_two_digits _ H0 H1), (hexPrefixValue_digits _ F).
  reflexivity.
Qed.

(** A part of the rendering, cut at byte boundaries. *)
Lemma slice_toString_hex pre x post :
  slice (toString_hex (pre ++ x ++ post))
    (2 * Z.of_nat (List.length pre))
    (2 * Z.of_nat (List.length pre) + 2 * Z.of_nat (List.length x))
  = toString_hex x.
Proof.
  unfold slice. rewrite toString_hex_length, !length_app.
  repeat match goal with
         | |- context [Z.ltb ?a 0] => destruct (Z.ltb_spec a 0); [lia|]
         end.
  rewrite !Z.min_l by lia.
  replace (Z.to_nat (2 * Z.of_nat (List.length pre)))
    with (List.length (toString_hex pre)) by (rewrite toString_hex_length; lia).
  replace (Z.to_nat _) with (List.length (toString_hex x))
    by (rewrite toString_hex_length; lia).
  rewrite !toString_hex_app, skipn_app, skipn_all, Nat.sub_diag.
  cbn [skipn app]. rewrite firstn_app, firstn_all, Nat.sub_diag.
  cbn [firstn]. apply app_nil_r.
Qed.

Lemma collect_app d results : collect d results = results ++ collect d [].
Proof.
  destruct d as [[[[|c t]|]]|]; simpl; try (now rewrite app_nil_r); reflexivity.
Qed.

(** One turn of the loop that decodes a message. *)
Lemma parseLoop_step f hex offset results dataLength d :
  (0 <= offset)%Z ->
  (offset + 10 + dataLength * 2 <= Z.of_nat (List.length hex))%Z ->
  (0 <= dataLength)%Z ->
  parseInt16 (slice hex offset (offset + 10)) = Some dataLength ->
  decodeResMessage utf8_decode true
    (Buffer_from_hex (slice hex (offset + 10) (offset + 10 + dataLength * 2)))
  = Some d ->
  parseLoop utf8_decode (S f) hex offset results
  = parseLoop utf8_decode f hex (offset + 10 + dataLength * 2) (collect d results).
Proof.
  intros O L D P E. cbn [parseLoop].
  destruct (Z.ltb_spec offset (Z.of_nat (List.length hex))); [|lia]. cbn [negb].
  destruct (Z.ltb_spec (Z.of_nat (List.length hex)) (offset + 10)); [lia|].
  rewrite P.
  destruct (Z.ltb_spec (Z.of_nat (List.length hex)) (offset + 10 + dataLength * 2));
    [lia|].
  now rewrite E.
Qed.

(** The turn at which the loop ends. *)
Lemma parseLoop_end f hex offset results :
  (0 <= offset)%Z ->
  (Z.of_nat (List.length hex) < offset + 10
   \/ exists dataLength,
        parseInt16 (slice hex offset (offset + 10)) = Some dataLength
        /\ Z.of_nat (List.length hex) < offset + 10 + dataLength * 2)%Z ->
  parseLoop utf8_decode (S f) hex offset results = Some results.
Proof.
  intros O H. cbn [parseLoop].
  destruct (Z.ltb_spec offset (Z.of_nat (List.length hex))); [|reflexivity].
  cbn [negb].
  destruct (Z.ltb_spec (Z.of_nat (List.length hex)) (offset + 10)); [reflexivity|].
  destruct H as [H|(dataLength & P & H)]; [lia|]. rewrite P.
  destruct (Z.ltb_spec (Z.of_nat (List.length hex)) (offset + 10 + dataLength * 2));
    [reflexivity | lia].
Qed.

Lemma parseLoop_stops fuel pre tail results :
  stops tail = true ->
  parseLoop utf8_decode (S fuel) (toString_hex (pre ++ tail))
    (2 * Z.of_nat (List.length pre)) results = Some results.
Proof.
  intro St. apply parseLoop_end; [lia|].
  rewrite toString_hex_length, length_app.
  unfold stops in St. apply orb_true_iff in St as [St|St];
    [apply Nat.ltb_lt in St; left; lia|]. apply N.ltb_lt in St.
  destruct (Nat.lt_ge_cases (List.length tail) 5) as [?|G]; [left; lia|].
  right. exists (Z.of_N (readUIntBE (firstn 5 tail))).
  assert (L5 : List.length (firstn 5 tail) = 5%nat) by (rewrite length_firstn; lia).
  rewrite length_skipn in St. split; [|lia].
  rewrite <- (firstn_skipn 5 tail) at 1.
  replace (2 * Z.of_nat (List.length pre) + 10)%Z
    with (2 * Z.of_nat (List.length pre)
          + 2 * Z.of_nat (List.length (firstn 5 tail)))%Z by lia.
  rewrite slice_toString_hex.
  destruct (firstn 5 tail) as [|b hdr] eqn:E; [discriminate L5|].
  apply parseInt16_toString_hex.
Qed.

Lemma parseLoop_framed ms w :
  framed ms w ->
  forall pre tail results fuel,
    stops tail = true -> (List.length ms < fuel)%nat ->
    parseLoop utf8_decode fuel (toString_hex (pre ++ w ++ tail))
      (2 * Z.of_nat (List.length pre)) results
    = Some (results ++ flat_map decodedText ms).
Proof.
  induction 1 as [|hdr body ms w Lh Rh F IH]; intros pre tail results fuel St Lf.
  - destruct fuel as [|fuel]; [simpl in Lf; lia|].
    cbn [app flat_map]. rewrite app_nil_r. now apply parseLoop_stops.
  - destruct fuel as [|fuel]; [simpl in Lf; lia|].
    cbn [List.length] in Lf. cbn [flat_map].
    destruct (decodeResMessage_total utf8_decode true body) as (d & D).
    assert (S1 : slice (toString_hex (pre ++ (hdr ++ body ++ w) ++ tail))
                   (2 * Z.of_nat (List.length pre))
                   (2 * Z.of_nat (List.length pre) + 10)
                 = toString_hex hdr).
    { replace 10%Z with (2 * Z.of_nat (List.length hdr))%Z by lia.
      rewrite <- !app_assoc. apply slice_toString_hex. }
    assert (S2 : slice (toString_hex (pre ++ (hdr ++ body ++ w) ++ tail))
                   (2 * Z.of_nat (List.length pre) + 10)
                   (2 * Z.of_nat (List.length pre) + 10
                    + Z.of_nat (List.length body) * 2)
                 = toString_hex body).
    { replace (2 * Z.of_nat (List.length pre) + 10)%Z
        with (2 * Z.of_nat (List.length (pre ++ hdr)))%Z
        by (rewrite length_app; lia).
      replace (Z.of_nat (List.length body) * 2)%Z
        with (2 * Z.of_nat (List.length body))%Z by lia.
      rewrite <- !app_assoc, (app_assoc pre hdr). apply slice_toString_hex. }
    rewrite (@parseLoop_step fuel _ _ results (Z.of_nat (List.length body)) d).
    + replace (2 * Z.of_nat (List.length pre) + 10
               + Z.of_nat (List.length body) * 2)%Z
        with (2 * Z.of_nat (List.length ((pre ++ hdr) ++ body)))%Z
        by (rewrite !length_app; lia).
      replace (pre ++ (hdr ++ body ++ w) ++ tail)
        with (((pre ++ hdr) ++ body) ++ w ++ tail)
        by (now rewrite <- !app_assoc).
      rewrite IH by (assumption || lia).
      rewrite (collect_app d results), <- app_assoc.
      unfold Spec.decodedText at 2. now rewrite D.
    + lia.
    + rewrite toString_hex_length, !length_app. lia.
    + lia.
    + rewrite S1. destruct hdr as [|b hdr]; [discriminate Lh|].
      rewrite parseInt16_toString_hex, Rh. f_equal. lia.
    + now rewrite S2, Buffer_from_toString_hex.
Qed.

Lemma decodedText_thrown m :
  decodeResMessage utf8_decode true m = Some None -> decodedText m = [].
Proof. unfold Spec.decodedText. now intros ->. Qed.

Lemma decodedText_text m text :
  decodeResMessage utf8_decode true m = Some (Some {| msg := Some text |}) ->
  text <> [] -> decodedText m = [text].
Proof. unfold Spec.decodedText. intros -> N. destruct text; [contradiction | reflexivity]. Qed.

(** C6, amended.  [parseHexResponse] on the rendering of framed messages,
    followed by bytes at which the scan stops (fewer than five, or a header
    that declares more than what is left): it returns, in their order, the
    texts of the messages that decode to a text that is not empty; a
    message whose decoding throws adds nothing and does not end the scan,
    and neither does one whose text is empty.  In particular, a message
    with a text followed by a message whose decoding throws gives the text
    of the first. *)
Theorem parseHexResponse_skips_malformed :
  (forall ms w tail fuel,
     framed ms w -> stops tail = true -> (List.length ms < fuel)%nat ->
     parseHexResponse utf8_decode fuel (toString_hex (w ++ tail))
     = Some (flat_map decodedText ms))
  /\ (forall m,
        decodeResMessage utf8_decode true m = Some None -> decodedText m = [])
  /\ (forall m text,
        decodeResMessage utf8_decode true m = Some (Some {| msg := Some text |}) ->
        text <> [] -> decodedText m = [text])
  /\ (forall h1 m1 h2 m2 text tail fuel,
        List.length h1 = 5%nat -> readUIntBE h1 = N.of_nat (List.length m1) ->
        List.length h2 = 5%nat -> readUIntBE h2 = N.of_nat (List.length m2) ->
        decodeResMessage utf8_decode true m1 = Some (Some {| msg := Some text |}) ->
        text <> [] ->
        decodeResMessage utf8_decode true m2 = Some None ->
        stops tail = true -> (2 < fuel)%nat ->
        parseHexResponse utf8_decode fuel
          (toString_hex ((h1 ++ m1 ++ h2 ++ m2) ++ tail))
        = Some [text]).
Proof.
  assert (G : forall ms w tail fuel,
     framed ms w -> stops tail = true -> (List.length ms < fuel)%nat ->
     parseHexResponse utf8_decode fuel (toString_hex (w ++ tail))
     = Some (flat_map decodedText ms)).
  { intros ms w tail fuel F St L. unfold parseHexResponse.
    exact (parseLoop_framed F [] tail [] St L). }
  split; [exact G|]. split; [exact decodedText_thrown|].
  split; [exact decodedText_text|].
  intros h1 m1 h2 m2 text tail fuel L1 R1 L2 R2 D1 N D2 St Lf.
  rewrite (G [m1; m2] (h1 ++ m1 ++ h2 ++ m2) tail fuel).
  - cbn [flat_map]. rewrite (decodedText_text _ D1 N), (decodedText_thrown _ D2).
    reflexivity.
  - apply framed_cons; [assumption..|].
    rewrite <- (app_nil_r m2) at 2. apply framed_cons; [assumption..|constructor].
  - exact St.
  - simpl. lia.
Qed.

End FramingFacts.

(** The test of the repository: a message that reads "Hello", then a header
    that declares three bytes where two follow. *)
Lemma parseHexResponse_skips_malformed_witness :
  Wire.parseHexResponse Node.utf8_decode 2
    (toString_hex ([x00; x00; x00; x00; x07; x0a; x05; x48; x65; x6c; x6c; x6f]
                   ++ [x00; x00; x00; x00; x03; xff; xff]))
  = Some [lit "Hello"].
Proof.
  exact (proj1 (parseHexResponse_skips_malformed Node.utf8_decode)
           [[x0a; x05; x48; x65; x6c; x6c; x6f]]
           [x00; x00; x00; x00; x07; x0a; x05; x48; x65; x6c; x6c; x6f]
           [x00; x00; x00; x00; x03; xff; xff] 2%nat
           (@framed_cons [x00; x00; x00; x00; x07]
              [x0a; x05; x48; x65; x6c; x6c; x6f] [] []
              eq_refl eq_refl framed_nil)
           eq_refl (le_n 2)).
Defined.

(** C6, as stated, fails: a first message that decodes to the empty text,
    followed by a message whose decoding throws, gives no text at all. *)
Lemma parseHexResponse_drops_empty_text :
  Wire.decodeResMessage Node.utf8_decode true [x0a; x00]
  = Some (Some {| Wire.msg := Some [] |})
  /\ Wire.decodeResMessage Node.utf8_decode true [xff; xff; xff] = Some None
  /\ Wire.parseHexResponse Node.utf8_decode 3
       (toString_hex ([x00; x00; x00; x00; x02; x0a; x00]
                      ++ [x00; x00; x00; x00; x03; xff; xff; xff]))
     = Some [].
Proof. vm_compute. repeat split; reflexivity. Qed.
(** ** [processChunk] *)

Section ProcessChunkFacts.

Import Wire Streaming.

Variable utf8_decode : list byte -> jsstring.
Variable gunzip : list byte -> option (list byte).
Variable JSON_parse : jsstring -> JSON + jsstring.
Variable JSON_stringify : JSON -> jsstring.

Local Abbreviation processChunk := (processChunk utf8_decode gunzip JSON_parse JSON_stringify).
Local Abbreviation processChunk_body :=
  (processChunk_body utf8_decode gunzip JSON_parse JSON_stringify).
Local Abbreviation error_response := (error_response JSON_parse JSON_stringify).
Local Abbreviation error_check := (error_check JSON_parse JSON_stringify).

(** The scan of the rendering of a chunk ends: each turn of the loop moves
    past a header of five bytes at least. *)
Lemma parseLoop_terminates fuel : forall pre rest results,
  (List.length rest < fuel)%nat ->
  parseLoop utf8_decode fuel (toString_hex (pre ++ rest))
    (2 * Z.of_nat (List.length pre)) results <> None.
Proof.
  induction fuel as [|f IH]; intros pre rest results L; [lia|].
  destruct (Nat.lt_ge_cases (List.length rest) 5) as [S5|G5].
  { rewrite parseLoop_end; [discriminate | lia |]. left.
    rewrite toString_hex_length, length_app. lia. }
  set (hdr := firstn 5 rest). set (rest1 := skipn 5 rest).
  assert (Lh : List.length hdr = 5%nat) by (unfold hdr; rewrite length_firstn; lia).
  assert (E : rest = hdr ++ rest1) by (symmetry; apply firstn_skipn).
  assert (P : parseInt16 (slice (toString_hex (pre ++ rest))
                           (2 * Z.of_nat (List.length pre))
                           (2 * Z.of_nat (List.length pre) + 10))
              = Some (Z.of_N (readUIntBE hdr))).
  { rewrite E. replace 10%Z with (2 * Z.of_nat (List.length hdr))%Z by lia.
    rewrite slice_toString_hex. destruct hdr; [discriminate Lh|].
    apply parseInt16_toString_hex. }
  destruct (Z_lt_ge_dec (Z.of_nat (List.length (toString_hex (pre ++ rest))))
              (2 * Z.of_nat (List.length pre) + 10 + Z.of_N (readUIntBE hdr) * 2))
    as [Over|Fits].
  { rewrite parseLoop_end; [discriminate | lia |]. right. eauto. }
  set (n := N.to_nat (readUIntBE hdr)).
  set (body := firstn n rest1). set (rest2 := skipn n rest1).
  rewrite toString_hex_length, length_app, E, length_app in Fits.
  assert (Lb : List.length body = n) by (unfold body; rewrite length_firstn; lia).
  assert (E1 : rest1 = body ++ rest2) by (symmetry; apply firstn_skipn).
  destruct (decodeResMessage_total utf8_decode true body) as (d & D).
  rewrite (@parseLoop_step utf8_decode f _ _ results (Z.of_N (readUIntBE hdr)) d).
  - replace (2 * Z.of_nat (List.length pre) + 10 + Z.of_N (readUIntBE hdr) * 2)%Z
      with (2 * Z.of_nat (List.length ((pre ++ hdr) ++ body)))%Z
      by (rewrite !length_app; lia).
    replace (pre ++ rest) with (((pre ++ hdr) ++ body) ++ rest2)
      by (rewrite E, E1, <- !app_assoc; reflexivity).
    apply IH. rewrite E, E1, !length_app in L. lia.
  - lia.
  - rewrite toString_hex_length, length_app, E, length_app. lia.
  - lia.
  - exact P.
  - replace (2 * Z.of_nat (List.length pre) + 10)%Z
      with (2 * Z.of_nat (List.length (pre ++ hdr)))%Z
      by (rewrite length_app; lia).
    replace (Z.of_N (readUIntBE hdr) * 2)%Z
      with (2 * Z.of_nat (List.length body))%Z by lia.
    rewrite E, E1, (app_assoc pre hdr), slice_toString_hex, Buffer_from_toString_hex.
    exact D.
Qed.

Lemma parseHexResponse_terminates chunk :
  parseHexResponse utf8_decode (S (List.length chunk)) (toString_hex chunk) <> None.
Proof.
  unfold parseHexResponse. apply (@parseLoop_terminates _ [] chunk []). lia.
Qed.

(** What the check for an error response lets out starts with the prefix. *)
Lemma error_response_prefix text message :
  error_response text = Some message ->
  startsWith (lit "API Error:") message = true.
Proof.
  unfold error_response. destruct (includes _ _); [|discriminate].
  destruct (match_braces text); [|discriminate].
  destruct (error_check j); [|discriminate].
  destruct (startsWith (lit "API Error:") j0) eqn:E; [|discriminate].
  now intros [= <-].
Qed.

Local Abbreviation processChunk_rest := (processChunk_rest utf8_decode gunzip).

Lemma processChunk_rest_returns chunk :
  exists text, processChunk_rest chunk = Return text.
Proof.
  unfold Streaming.processChunk_rest. destruct (gzip_magic chunk); [now eexists|].
  pose proof (parseHexResponse_terminates chunk).
  destruct (parseHexResponse _ _ _) as [[|]|]; [now eexists..|contradiction].
Qed.


Lemma processChunk_body_cases chunk :
  (exists text, processChunk_body chunk = Return text)
  \/ (exists message,
        processChunk_body chunk = Throw message
        /\ error_response (utf8_decode (skipn 5 chunk)) = Some message).
Proof.
  unfold Streaming.processChunk_body.
  destruct (Nat.ltb 5 (List.length chunk)); [|left; apply processChunk_rest_returns].
  destruct (header_magic x01 chunk); [|destruct (header_magic x02 chunk)];
    (destruct (gzip_magic _); [left; now eexists|]); cbn [Nat.ltb Nat.leb];
    try (left; apply processChunk_rest_returns);
    (destruct (Streaming.error_response _ _ _) eqn:E;
     [right; now eexists | left; now eexists]).
Qed.

Lemma gzip_magic_no_header chunk :
  gzip_magic chunk = true ->
  header_magic x01 chunk = false /\ header_magic x02 chunk = false.
Proof.
  unfold gzip_magic, header_magic.
  destruct chunk as [|b0 chunk]; [discriminate|]. cbn [nth_error is_byte].
  intro H. apply andb_true_iff in H as [H _]. apply Byte.byte_dec_bl in H.
  subst b0. split; reflexivity.
Qed.

Lemma processChunk_body_gzip chunk :
  gzip_magic chunk = true ->
  processChunk_body chunk = Return (gzip_text utf8_decode gunzip chunk).
Proof.
  intro G. unfold Streaming.processChunk_body, Streaming.processChunk_rest.
  destruct (gzip_magic_no_header _ G) as [-> ->]. cbn [skipn]. rewrite G.
  now destruct (Nat.ltb 5 (List.length chunk)).
Qed.

Lemma processChunk_body_headered_gzip chunk :
  (5 < List.length chunk)%nat ->
  header_magic x01 chunk || header_magic x02 chunk = true ->
  gzip_magic (skipn 5 chunk) = true ->
  processChunk_body chunk = Return (gzip_text utf8_decode gunzip (skipn 5 chunk)).
Proof.
  intros L H G. unfold Streaming.processChunk_body.
  apply Nat.ltb_lt in L. rewrite L.
  destruct (header_magic x01 chunk); [now rewrite G|].
  destruct (header_magic x02 chunk); [now rewrite G | discriminate H].
Qed.



(** The runtime's messages for a text that is not JSON do not start with
    the prefix of the API errors. *)
Hypothesis JSON_parse_messages : forall s message,
  JSON_parse s = inr message -> startsWith (lit "API Error:") message = false.

Lemma error_response_message text message :
  error_response text = Some message ->
  exists detail, message = lit "API Error: " ++ detail.
Proof.
  unfold Streaming.error_response. destruct (includes _ _); [|discriminate].
  destruct (match_braces text) as [j|]; [|discriminate].
  unfold Streaming.error_check.
  destruct (JSON_parse j) as [parsed|m] eqn:P.
  - destruct (get_error parsed) as [err|]; [|discriminate].
    destruct (to_boolean err); [|discriminate].
    match goal with
    | |- context [if startsWith ?p ?m then _ else _] => destruct (startsWith p m)
    end; [|discriminate].
    intros [= <-]. now eexists.
  - rewrite (JSON_parse_messages P). discriminate.
Qed.

(** C5.  [processChunk] returns a text or throws an error whose message
    starts with [API Error: ], for every chunk; a gzip payload that fails to
    decompress, with or without a header before it, gives the empty text.
    (The scan for framed messages ends, and what the decoding of a message
    or [JSON.parse] throws is caught.) *)
Theorem processChunk_total :
  (forall chunk,
     (exists text, processChunk chunk = Return text)
     \/ (exists detail, processChunk chunk = Throw (lit "API Error: " ++ detail)))
  /\ (forall chunk,
        gzip_magic chunk = true -> gunzip chunk = None ->
        processChunk chunk = Return [])
  /\ (forall chunk,
        (5 < List.length chunk)%nat ->
        header_magic x01 chunk || header_magic x02 chunk = true ->
        gzip_magic (skipn 5 chunk) = true -> gunzip (skipn 5 chunk) = None ->
        processChunk chunk = Return []).
Proof.
  split; [|split].
  - intro chunk. unfold Streaming.processChunk.
    destruct (processChunk_body_cases chunk) as [(text & ->)|(message & -> & E)].
    + left. now eexists.
    + right. destruct (error_response_message _ E) as (detail & ->).
      exists detail. reflexivity.
  - intros chunk G Z. unfold Streaming.processChunk.
    rewrite (processChunk_body_gzip _ G).
    unfold gzip_text, decompressGzipData. now rewrite Z.
  - intros chunk L H G Z. unfold Streaming.processChunk.
    rewrite (processChunk_body_headered_gzip _ L H G).
    unfold gzip_text, decompressGzipData. now rewrite Z.
Qed.


End ProcessChunkFacts.

Lemma Node_JSON_parse_messages s message :
  Node.JSON_parse s = inr message -> startsWith (lit "API Error:") message = false.
Proof.
  unfold Node.JSON_parse.
  destruct (Node.value _ _) as [[v rest]|]; [destruct (Node.skipSpace rest)|];
    intros [= <-]; reflexivity.
Qed.

Lemma processChunk_total_witness :
  Streaming.processChunk Node.utf8_decode Node.gunzip_rejects Node.JSON_parse
    Node.JSON_stringify [x01; x00; x00; x00; x03; x1f; x8b; x08]
  = Streaming.Return [].
Proof.
  apply (proj2 (proj2 (@processChunk_total Node.utf8_decode Node.gunzip_rejects
                         Node.JSON_parse Node.JSON_stringify
                         Node_JSON_parse_messages))).
  - simpl. lia.
  - reflexivity.
  - reflexivity.
  - reflexivity.
Defined.


(** ** The stream *)

Section StreamFacts.

Import Streaming Stream.

Variable utf8_decode : list byte -> jsstring.
Variable gunzip : list byte -> option (list byte).
Variable JSON_parse : jsstring -> JSON + jsstring.
Variable JSON_stringify : JSON -> jsstring.

Local Abbreviation processChunk :=
  (processChunk utf8_decode gunzip JSON_parse JSON_stringify).
Local Abbreviation pull_body :=
  (pull_body utf8_decode gunzip JSON_parse JSON_stringify).
Local Abbreviation pull := (pull utf8_decode gunzip JSON_parse JSON_stringify).
Local Abbreviation step := (step utf8_decode gunzip JSON_parse JSON_stringify).
Local Abbreviation run := (run utf8_decode gunzip JSON_parse JSON_stringify).

Lemma processChunk_returns_or_throws chunk : processChunk chunk <> Hang.
Proof.
  unfold Streaming.processChunk.
  destruct (processChunk_body_cases utf8_decode gunzip JSON_parse JSON_stringify chunk)
    as [(text & ->)|(message & -> & _)]; [discriminate|].
  destruct (startsWith _ _); discriminate.
Qed.

(** A text that is a brace pair within white space does not hold the mark
    of an error response. *)
Lemma braces_hold_no_error text :
  trim text = lit "{}" -> includes error_marker text = false.
Proof.
  intro T. apply includes_false. intros (a & b & E).
  apply (f_equal visible) in T. rewrite visible_trim, E in T.
  apply (f_equal (@List.length _)) in T. unfold visible in T.
  rewrite !filter_app, !length_app in T.
  change (List.length (filter (fun c => negb (isWhiteSpace c)) error_marker))
    with 8%nat in T.
  change (List.length (filter (fun c => negb (isWhiteSpace c)) (lit "{}")))
    with 2%nat in T.
  lia.
Qed.

(** The chunk that ends a stream is processed without an error. *)
Lemma processChunk_end_marker value :
  trim (utf8_decode (skipn 5 value)) = lit "{}" ->
  exists text, processChunk value = Return text.
Proof.
  intro T. unfold Streaming.processChunk.
  destruct (processChunk_body_cases utf8_decode gunzip JSON_parse JSON_stringify value)
    as [(text & ->)|(message & _ & E)]; [now eexists|].
  unfold error_response in E. now rewrite (braces_hold_no_error _ T) in E.
Qed.

Lemma advances_refl s : advances s s.
Proof. left. now split. Qed.

Lemma advances_after s s1 s2 :
  done s1 = done s -> emitted (controller s1) = emitted (controller s) ->
  advances s1 s2 -> advances s s2.
Proof. unfold advances. intros -> ->. trivial. Qed.

Lemma advances_then s s1 s2 :
  advances s s1 ->
  done s2 = done s1 -> emitted (controller s2) = emitted (controller s1) ->
  advances s s2.
Proof. unfold advances. intros H -> ->. exact H. Qed.

Lemma closing_advances s :
  attempt_advances s (on_controller s (close (controller s))).
Proof.
  unfold close. destruct (canCloseOrEnqueue _); simpl; left; split; reflexivity.
Qed.

Lemma finish_advances s now : attempt_advances s (finish s now).
Proof.
  unfold finish. destruct (done s) eqn:D; [apply closing_advances|].
  unfold enqueueFinalChunk, enqueue.
  destruct (canCloseOrEnqueue (controller s)) eqn:C; [|apply advances_refl].
  cbn [on_controller].
  set (s1 := with_done _).
  assert (A : advances s s1).
  { right. right. repeat split; [exact D|]. exists (final_chunk s now).
    split; reflexivity. }
  pose proof (closing_advances s1) as H.
  destruct (on_controller s1 (close (controller s1))) as [s2|s2 e|]; simpl in *;
    [| |exact I];
    (destruct H as [[H1 H2]|[(H1 & _)|(H1 & _)]]; [|discriminate H1..]);
    eapply advances_then; eassumption.
Qed.

Lemma enqueueChunk_advances s now c t :
  done s = false -> attempt_advances s (enqueueChunk s now (c :: t)).
Proof.
  intro D. unfold enqueueChunk, enqueue.
  destruct (canCloseOrEnqueue (controller s)); [|apply advances_refl].
  right. left. repeat split; [exact D..|].
  exists (content_chunk s now (c :: t)). split; reflexivity.
Qed.

Lemma pull_body_advances s settled now : attempt_advances s (pull_body s settled now).
Proof.
  unfold Stream.pull_body. destruct (done s) eqn:D; [apply closing_advances|].
  destruct settled as [result|e]; [|(left; split; reflexivity)].
  destruct (result_done result); [apply finish_advances|].
  destruct (result_value result) as [value|].
  - set (s1 := with_lastActivity s now).
    assert (K : forall a, attempt_advances s1 a -> attempt_advances s a).
    { intros [s2|s2 e|]; simpl; trivial; apply advances_after; reflexivity. }
    destruct (processChunk value) as [text| |]; [|(left; split; reflexivity)|exact I].
    destruct (_ && _); [apply K, finish_advances|].
    destruct text as [|c t].
    + set (s2 := with_counts _ _ _).
      assert (K2 : forall a, attempt_advances s2 a -> attempt_advances s a).
      { intros [s3|s3 e|]; simpl; trivial; apply advances_after; reflexivity. }
      destruct (_ && _); [apply K2, finish_advances | (left; split; reflexivity)].
    + set (s2 := with_counts _ _ _).
      pose proof (@enqueueChunk_advances s2 now c t D) as H.
      destruct (enqueueChunk s2 now (c :: t)) as [s3|s3 e|]; simpl in *;
        [| |exact I].
      * eapply advances_then; [|reflexivity..].
        eapply advances_after; [| |exact H]; reflexivity.
      * eapply advances_after; [| |exact H]; reflexivity.
  - destruct (_ && _); [apply finish_advances | (left; split; reflexivity)].
Qed.

Lemma error_keeps e c : emitted (error e c) = emitted c.
Proof. unfold error. now destruct (state c). Qed.

Lemma pull_advances s settled now s' :
  pull s settled now = Some s' -> advances s s'.
Proof.
  unfold Stream.pull. pose proof (pull_body_advances s settled now) as H.
  destruct (pull_body s settled now) as [s1|s1 e|]; [| |discriminate];
    intros [= <-]; simpl in H; [exact H|].
  eapply advances_then; [exact H | reflexivity | apply error_keeps].
Qed.

(** [pull] returns. *)
Lemma pull_returns s settled now : exists s', pull s settled now = Some s'.
Proof.
  unfold Stream.pull.
  assert (H : pull_body s settled now <> Hung).
  { unfold Stream.pull_body.
    assert (C : forall s, on_controller s (close (controller s)) <> Hung)
      by (intro s0; unfold close; destruct (canCloseOrEnqueue _); discriminate).
    assert (F : forall s, finish s now <> Hung).
    { intro s0. unfold finish. destruct (done s0); [apply C|].
      unfold enqueueFinalChunk, enqueue.
      destruct (canCloseOrEnqueue _); [apply C | discriminate]. }
    destruct (done s); [apply C|].
    destruct settled as [result|e]; [|discriminate].
    destruct (result_done result); [apply F|].
    destruct (result_value result) as [value|].
    - pose proof (processChunk_returns_or_throws value).
      destruct (processChunk value) as [text| |]; [|discriminate|contradiction].
      destruct (_ && _); [apply F|].
      destruct text as [|c t].
      + destruct (_ && _); [apply F | discriminate].
      + unfold enqueueChunk, enqueue. destruct (canCloseOrEnqueue _); discriminate.
    - destruct (_ && _); [apply F | discriminate]. }
  destruct (pull_body s settled now); [now eexists..|contradiction].
Qed.

Lemma consume_keeps s :
  done (snd (consume s)) = done s
  /\ emitted (controller (snd (consume s))) = emitted (controller s).
Proof.
  unfold consume, read. destruct (queue (controller s)); split; reflexivity.
Qed.

Lemma step_advances s s' : step s s' -> advances s s'.
Proof.
  intros [settled now s1 H|]; [now apply pull_advances in H|].
  left. apply consume_keeps.
Qed.

Lemma invariant_advances s s' : invariant s -> advances s s' -> invariant s'.
Proof.
  intros (cs & C & I) [[D E]|[(D & D' & c & Hc & E)|(D & D' & f & Hf & E)]].
  - exists cs. rewrite D, E. now split.
  - rewrite D in I. exists (cs ++ [c]). rewrite D', E, I, forallb_app, C.
    simpl. now rewrite Hc.
  - rewrite D in I. exists cs. rewrite D', E, I. split; [exact C|]. now exists f.
Qed.

Lemma invariant_run s s' : invariant s -> run s s' -> invariant s'.
Proof.
  intros I R. induction R as [|s1 s2 R IH S]; [exact I|].
  eapply invariant_advances; [exact IH | now apply step_advances].
Qed.

(** Once a stream is done, it emits nothing more. *)
Lemma done_advances s s' :
  done s = true -> advances s s' ->
  done s' = true /\ emitted (controller s') = emitted (controller s).
Proof.
  intros D [[D' E]|[(D0 & _)|(D0 & _)]]; [|congruence..].
  split; congruence.
Qed.

Lemma done_run s s' :
  done s = true -> run s s' ->
  done s' = true /\ emitted (controller s') = emitted (controller s).
Proof.
  intros D R. induction R as [|s1 s2 R [D1 E1] S]; [now split|].
  destruct (done_advances D1 (step_advances S)) as [D2 E2]. split; congruence.
Qed.

(** C10.  In every state that a stream reaches from its creation, by
    [pull]s on any input and reads of the consumer, the chunks it has
    enqueued are content chunks (a content that is not empty, no
    [finish_reason]), followed by one final chunk (an empty delta,
    [finish_reason] "stop") exactly when the stream is done; and a [pull]
    on a stream that is done calls [controller.close()] and nothing else
    (with [controller.error] when that call throws). *)
Theorem stream_chunk_invariant :
  (forall responseId model t0 s,
     run (create responseId model t0) s -> invariant s)
  /\ (forall s settled now,
        done s = true ->
        pull s settled now
        = Some (with_controller s
                  match close (controller s) with
                  | inl c => c
                  | inr e => error e (controller s)
                  end)).
Proof.
  split.
  - intros responseId model t0 s R. refine (invariant_run _ R).
    exists []. split; reflexivity.
  - intros s settled now D. unfold Stream.pull, Stream.pull_body. rewrite D.
    destruct (close (controller s)); reflexivity.
Qed.

Lemma finish_open s now :
  done s = false -> open s ->
  finish s now
  = Completed
      (with_controller (with_done s)
         {| queue := queue (controller s) ++ [final_chunk s now];
            emitted := emitted (controller s) ++ [final_chunk s now];
            closeRequested := true;
            state := state (controller s) |}).
Proof.
  unfold open. intros D O. unfold finish. rewrite D.
  unfold enqueueFinalChunk, enqueue. rewrite O. cbn [on_controller].
  unfold close. cbn [with_done with_controller controller].
  unfold canCloseOrEnqueue in *. cbn [closeRequested state]. rewrite O.
  cbn [on_controller queue]. unfold with_controller, with_done.
  cbn [responseId stream_model done lastActivity chunkCount emptyChunkCount
       controller emitted closeRequested state].
  destruct (queue (controller s)); reflexivity.
Qed.

(** The reads of a stream that was asked to close while chunks wait: the
    consumer gets these chunks in their order, and the stream is closed
    with the last of them. *)
Lemma reads_waiting q : forall s,
  queue (controller s) = q -> q <> [] ->
  closeRequested (controller s) = true ->
  exists s2,
    reads (List.length q) s = (map Chunk q, s2)
    /\ queue (controller s2) = []
    /\ state (controller s2) = Closed
    /\ closeRequested (controller s2) = true.
Proof.
  induction q as [|c q IH]; intros s Q N C; [contradiction|].
  cbn [List.length reads map]. unfold consume, read. rewrite Q, C.
  destruct q as [|c' q'].
  - cbn [reads List.length map]. eexists. split; [reflexivity|].
    repeat split.
  - set (s1 := with_controller s _).
    destruct (IH s1) as (s2 & R & H); [reflexivity|discriminate|reflexivity|].
    rewrite R. exists s2. split; [reflexivity | exact H].
Qed.

Lemma header_magic_one v w b :
  header_magic v b = true -> v <> w -> header_magic w b = false.
Proof.
  unfold header_magic, is_byte. destruct (nth_error b 0) as [x|]; [|discriminate].
  intros H N. apply andb_prop in H as [H _]. apply andb_prop in H as [H _].
  apply Byte.byte_dec_bl in H. subst x.
  destruct (Byte.eqb v w) eqn:E; [|reflexivity].
  apply Byte.byte_dec_bl in E. contradiction.
Qed.

(** C3, amended.  A stream that is not done and whose controller is open
    is given a chunk of five bytes or more that starts with 02 00 00 and
    whose payload decodes to a brace pair (within white space): the [pull]
    emits exactly one chunk more, the final chunk, the stream is done and
    its closing requested; the consumer reads the chunks that waited and
    then that chunk, and then the end of the stream at every read; the
    runtime calls [pull] no more, and whatever steps follow emit no chunk.
    A chunk that starts with 01 00 00 is no such marker, whatever its
    payload: the [pull] ends the stream with it only when its text is
    empty and it is not the first empty one after content. *)
Theorem end_of_stream_marker :
  (forall s value now,
     done s = false -> open s ->
     (5 <= List.length value)%nat -> header_magic x02 value = true ->
     trim (utf8_decode (skipn 5 value)) = lit "{}" ->
     exists s1 s2,
       pull s (Resolved {| result_done := false; result_value := Some value |}) now
       = Some s1
       /\ emitted (controller s1) = emitted (controller s) ++ [final_chunk s now]
       /\ choices (final_chunk s now)
          = [ {| index := 0; delta := {| content := None |};
                 finish_reason := Some (lit "stop") |} ]
       /\ done s1 = true
       /\ closeRequested (controller s1) = true
       /\ shouldCallPull (controller s1) = false
       /\ reads (S (List.length (queue (controller s)))) s1
          = (map Chunk (queue (controller s) ++ [final_chunk s now]), s2)
       /\ state (controller s2) = Closed
       /\ shouldCallPull (controller s2) = false
       /\ consume s2 = (EndOfStream, s2)
       /\ (forall s', run s1 s' ->
             done s' = true
             /\ emitted (controller s')
                = emitted (controller s) ++ [final_chunk s now]))
  /\ (forall s value now,
        done s = false -> header_magic x01 value = true ->
        exists s1,
          pull s (Resolved {| result_done := false; result_value := Some value |}) now
          = Some s1
          /\ (done s1 = true ->
              processChunk value = Return []
              /\ (0 < chunkCount s)%nat /\ (1 <= emptyChunkCount s)%nat)).
Proof.
  split.
  - intros s value now D O L H T.
    destruct (processChunk_end_marker _ T) as (text & P).
    assert (E : pull s (Resolved {| result_done := false; result_value := Some value |}) now
                = Some (with_controller (with_done (with_lastActivity s now))
                          {| queue := queue (controller s) ++ [final_chunk s now];
                             emitted := emitted (controller s) ++ [final_chunk s now];
                             closeRequested := true;
                             state := state (controller s) |})).
    { unfold Stream.pull, Stream.pull_body. rewrite D. cbn [result_done result_value].
      rewrite P. apply Nat.leb_le in L. rewrite L, H, T. cbn [andb eqb].
      replace (eqb (lit "{}") (lit "{}")) with true by reflexivity.
      rewrite finish_open; [reflexivity | exact D | exact O]. }
    set (s1 := with_controller _ _) in E.
    destruct (@reads_waiting (queue (controller s) ++ [final_chunk s now]) s1)
      as (s2 & R & Q2 & S2 & C2); [reflexivity | | reflexivity |].
    { intro A. apply app_eq_nil in A as [_ A]. discriminate A. }
    rewrite length_app, Nat.add_comm in R. cbn [List.length Nat.add] in R.
    exists s1, s2. split; [exact E|].
    split; [reflexivity|]. split; [reflexivity|]. split; [reflexivity|].
    split; [reflexivity|].
    split.
    { unfold shouldCallPull, canCloseOrEnqueue. reflexivity. }
    split; [exact R|]. split; [exact S2|].
    split.
    { unfold shouldCallPull, canCloseOrEnqueue. rewrite C2. reflexivity. }
    split.
    { unfold consume, read. rewrite Q2, S2. unfold with_controller.
      destruct s2 as [? ? ? ? ? ? c2]. cbn [controller] in *.
      destruct c2; cbn in *. subst. reflexivity. }
    intros s' R'. apply done_run in R'; [|reflexivity]. exact R'.
  - intros s value now D H.
    destruct (pull_returns s (Resolved {| result_done := false;
                                           result_value := Some value |}) now)
      as (s1 & E).
    exists s1. split; [exact E|]. intro D1. revert E.
    unfold Stream.pull, Stream.pull_body. rewrite D. cbn [result_done result_value].
    rewrite (@header_magic_one x01 x02 value H) by discriminate.
    rewrite andb_false_r. cbn [andb].
    destruct (processChunk value) as [text|e|].
    + destruct text as [|c t].
      * cbn [chunkCount emptyChunkCount with_counts with_lastActivity].
        destruct (Nat.ltb_spec 0 (chunkCount s)) as [L|L]; cbn [andb].
        -- destruct (Nat.leb_spec 2 (S (emptyChunkCount s))) as [M|M].
           ++ intros _. split; [reflexivity|]. split; lia.
           ++ intros [= <-]. cbn in D1. congruence.
        -- intros [= <-]. cbn in D1. congruence.
      * unfold enqueueChunk, enqueue.
        destruct (canCloseOrEnqueue _); cbn [on_controller]; intros [= <-];
          cbn in D1; unfold error in D1; try destruct (state _); cbn in D1; congruence.
    + intros [= <-]. cbn in D1. congruence.
    + discriminate.
Qed.

End StreamFacts.

Lemma end_of_stream_marker_witness :
  exists s1 s2,
    Stream.pull Node.utf8_decode Node.gunzip_rejects Node.JSON_parse
      Node.JSON_stringify after_content (received end_frame) 5000
    = Some s1
    /\ Stream.emitted (Stream.controller s1)
       = Stream.emitted (Stream.controller after_content)
         ++ [Stream.final_chunk after_content 5000]
    /\ Stream.done s1 = true
    /\ reads 2 s1
       = (map Stream.Chunk
            (Stream.queue (Stream.controller after_content)
             ++ [Stream.final_chunk after_content 5000]), s2)
    /\ Stream.consume s2 = (Stream.EndOfStream, s2).
Proof.
  destruct (proj1 (@end_of_stream_marker Node.utf8_decode Node.gunzip_rejects
                     Node.JSON_parse Node.JSON_stringify)
              after_content end_frame 5000%Z)
    as (s1 & s2 & E & M & _ & D & _ & _ & R & _ & _ & C & _).
  - reflexivity.
  - reflexivity.
  - simpl. lia.
  - reflexivity.
  - reflexivity.
  - exists s1, s2. repeat split; assumption.
Defined.

(** C3, as stated, fails: after the header 01 00 00 the same payload ends
    nothing; the [pull] emits no chunk and the stream is not done. *)
Lemma end_of_stream_marker_not_after_01 :
  Nat.ltb 5 (List.length end_frame_01) = true
  /\ Streaming.header_magic x01 end_frame_01 = true
  /\ Node.utf8_decode (skipn 5 end_frame_01) = lit "{}"
  /\ option_map
       (fun s1 => (Stream.done s1, Stream.emitted (Stream.controller s1),
                   Stream.closeRequested (Stream.controller s1)))
       (Stream.pull Node.utf8_decode Node.gunzip_rejects Node.JSON_parse
          Node.JSON_stringify (Stream.create (lit "chatcmpl-1") (lit "gpt-4o") 0)
          (received end_frame_01) 5000)
     = Some (false, [], false).
Proof. vm_compute. repeat split; reflexivity. Qed.

Lemma stream_chunk_invariant_witness :
  exists s1 s2,
    Stream.pull Node.utf8_decode Node.gunzip_rejects Node.JSON_parse
      Node.JSON_stringify (Stream.create (lit "chatcmpl-1") (lit "gpt-4o") 0)
      (received content_frame) 1000
    = Some s1
    /\ Stream.pull Node.utf8_decode Node.gunzip_rejects Node.JSON_parse
         Node.JSON_stringify s1 (received end_frame) 2000
       = Some s2
    /\ invariant s2.
Proof.
  destruct (pull_returns Node.utf8_decode Node.gunzip_rejects Node.JSON_parse
              Node.JSON_stringify (Stream.create (lit "chatcmpl-1") (lit "gpt-4o") 0)
              (received content_frame) 1000) as (s1 & E1).
  destruct (pull_returns Node.utf8_decode Node.gunzip_rejects Node.JSON_parse
              Node.JSON_stringify s1 (received end_frame) 2000) as (s2 & E2).
  exists s1, s2. split; [exact E1|]. split; [exact E2|].
  apply (proj1 (stream_chunk_invariant Node.utf8_decode Node.gunzip_rejects
                  Node.JSON_parse Node.JSON_stringify)
           (lit "chatcmpl-1") (lit "gpt-4o") 0%Z).
  eapply run_step; [eapply run_step; [apply run_here|]|];
    eapply step_pull; eassumption.
Defined.

Example stream_example :
  option_map (fun s => map Stream.choices (Stream.emitted (Stream.controller s)))
    (match Stream.pull Node.utf8_decode Node.gunzip_rejects Node.JSON_parse
             Node.JSON_stringify (Stream.create (lit "chatcmpl-1") (lit "gpt-4o") 0)
             (received content_frame) 1000 with
     | Some s1 =>
         Stream.pull Node.utf8_decode Node.gunzip_rejects Node.JSON_parse
           Node.JSON_stringify s1 (received end_frame) 2000
     | None => None
     end)
  = Some [ [ {| Stream.index := 0;
                Stream.delta := {| Stream.content := Some (lit "Hi") |};
                Stream.finish_reason := None |} ];
           [ {| Stream.index := 0;
                Stream.delta := {| Stream.content := None |};
                Stream.finish_reason := Some (lit "stop") |} ] ].
Proof. vm_compute. reflexivity. Qed.

(** ** The validation of a request *)

Section ValidationFacts.

Import Completions.

Variable uuidv4 : nat -> jsstring.
Variable utf8_encode : jsstring -> list byte.
Variable Response Result : Type.
Variable post : jsstring -> list byte -> option Api.RequestOptions -> Response.
Variable createStream_result : Response -> jsstring -> jsstring -> Result.
Variable createCompletion_result : Response -> jsstring -> jsstring -> Result.

Lemma validateMessages_refuses ms :
  existsb (fun m => isEmpty (OpenAI.role m) || isEmpty (OpenAI.content m)
                    || negb (known_role (OpenAI.role m))) ms = true ->
  exists message, validateMessages ms = Some (BadRequestError message).
Proof.
  induction ms as [|m ms IH]; [discriminate|]. cbn [existsb validateMessages].
  destruct (isEmpty (OpenAI.role m) || isEmpty (OpenAI.content m)); [now eexists|].
  destruct (known_role (OpenAI.role m)); [|now eexists]. exact IH.
Qed.

Lemma validateMessages_accepts ms :
  existsb (fun m => isEmpty (OpenAI.role m) || isEmpty (OpenAI.content m)
                    || negb (known_role (OpenAI.role m))) ms = false ->
  validateMessages ms = None.
Proof.
  induction ms as [|m ms IH]; [reflexivity|]. cbn [existsb validateMessages].
  destruct (isEmpty (OpenAI.role m) || isEmpty (OpenAI.content m)); [discriminate|].
  destruct (known_role (OpenAI.role m)); [exact IH | discriminate].
Qed.

Lemma validateParams_refuses params :
  invalid params = true ->
  exists message, validateParams params = Some (BadRequestError message).
Proof.
  unfold invalid, validateParams. destruct (messages params) as [|m ms] eqn:M.
  - now eexists.
  - cbn [isEmpty_list orb]. destruct (isEmpty (model params)); [now eexists|].
    rewrite orb_false_r. apply validateMessages_refuses.
Qed.

(** C2.  For a request with no message, or with a message whose role or
    content is empty or whose role is not system, user or assistant, or
    with an empty model: [validateParams] throws a [BadRequestError], and
    [create] rejects with it before it encodes or posts anything. *)
Theorem create_rejects_invalid params options k :
  invalid params = true ->
  exists message,
    validateParams params = Some (BadRequestError message)
    /\ create uuidv4 utf8_encode post createStream_result createCompletion_result
         params options k
       = ([], inr (BadRequestError message)).
Proof.
  intro H. destruct (validateParams_refuses _ H) as (message & E).
  exists message. split; [exact E|]. unfold create. now rewrite E.
Qed.

(** A request that is not one of those passes the validation, is encoded,
    and is posted once. *)
Lemma create_posts_valid params options k :
  invalid params = false ->
  validateParams params = None
  /\ exists hexData sent result,
       create uuidv4 utf8_encode post createStream_result createCompletion_result
         params options k
       = ([Encoded hexData;
           Posted (lit "/aiserver.v1.AiService/StreamChat") hexData sent],
          inl result).
Proof.
  unfold invalid. intro H.
  apply orb_false_iff in H as [H Hm]. apply orb_false_iff in H as [He Hx].
  assert (V : validateParams params = None).
  { unfold validateParams. destruct (messages params); [discriminate|].
    rewrite Hm. now apply validateMessages_accepts. }
  split; [exact V|]. unfold create. rewrite V.
  destruct (Wire.createHexMessage _ _ _ _ _) as [hexData k'].
  destruct (stream params); now eexists; eexists; eexists.
Qed.

End ValidationFacts.

(** The requests of the specification: no message; a message without
    content. *)
Lemma create_rejects_invalid_witness :
  (exists message,
     Completions.validateParams
       {| Completions.messages := []; Completions.model := lit "gpt-4o";
          Completions.stream := false |}
     = Some (Completions.BadRequestError message))
  /\ (exists message,
        Completions.validateParams
          {| Completions.messages :=
               [ {| OpenAI.role := lit "user"; OpenAI.content := [] |} ];
             Completions.model := lit "gpt-4o"; Completions.stream := false |}
        = Some (Completions.BadRequestError message)).
Proof.
  split.
  - destruct (@create_rejects_invalid Node.uuidv4 Node.utf8_encode unit unit
                (fun _ _ _ => tt) (fun _ _ _ => tt) (fun _ _ _ => tt)
                {| Completions.messages := []; Completions.model := lit "gpt-4o";
                   Completions.stream := false |} None 0%nat eq_refl)
      as (message & E & _).
    now exists message.
  - destruct (@create_rejects_invalid Node.uuidv4 Node.utf8_encode unit unit
                (fun _ _ _ => tt) (fun _ _ _ => tt) (fun _ _ _ => tt)
                {| Completions.messages :=
                     [ {| OpenAI.role := lit "user"; OpenAI.content := [] |} ];
                   Completions.model := lit "gpt-4o"; Completions.stream := false |}
                None 0%nat eq_refl)
      as (message & E & _).
    now exists message.
Defined.

(** * Further properties *)

(** ** The stream: timers, errors and empty chunks *)

Section StreamExtras.

Import Streaming Stream.

Variable utf8_decode : list byte -> jsstring.
Variable gunzip : list byte -> option (list byte).
Variable JSON_parse : jsstring -> JSON + jsstring.
Variable JSON_stringify : JSON -> jsstring.

Local Abbreviation processChunk :=
  (processChunk utf8_decode gunzip JSON_parse JSON_stringify).
Local Abbreviation pull := (pull utf8_decode gunzip JSON_parse JSON_stringify).

(** X2.  The timer of five seconds ends the stream.  When the read of the
    transport has not settled after five seconds, the race settles to
    [{done: true}], and [pull] takes it for the end of the response: on an
    open stream that is not done it emits the final chunk and asks to
    close, whether or not any chunk was received and however recent the
    last one is. *)
Theorem pull_timer_ends_stream s now :
  done s = false -> open s ->
  exists s',
    pull s timed_out now = Some s'
    /\ done s' = true
    /\ emitted (controller s') = emitted (controller s) ++ [final_chunk s now]
    /\ closeRequested (controller s') = true
    /\ chunkCount s' = chunkCount s.
Proof.
  intros D O. unfold Stream.pull, Stream.pull_body. rewrite D.
  cbn [timed_out result_done]. rewrite (finish_open now D O).
  eexists. split; [reflexivity|]. repeat split.
Qed.

(** X3.  A chunk at which [processChunk] throws puts the stream in error:
    on a readable stream that is not done, the [pull] emits nothing, the
    chunks that wait are dropped, no final chunk is written, and the read
    of the consumer fails with the message of the error. *)
Theorem pull_error_fails_stream s value message now :
  done s = false -> state (controller s) = Readable ->
  processChunk value = Throw message ->
  exists s',
    pull s (received value) now = Some s'
    /\ state (controller s') = Errored message
    /\ queue (controller s') = []
    /\ emitted (controller s') = emitted (controller s)
    /\ done s' = false
    /\ shouldCallPull (controller s') = false
    /\ consume s' = (Failure message, s').
Proof.
  intros D R P. unfold Stream.pull, Stream.pull_body, received. rewrite D.
  cbn [result_done result_value]. rewrite P.
  eexists. split; [reflexivity|].
  unfold error, with_controller, with_lastActivity. cbn [controller]. rewrite R.
  cbn [state queue emitted done controller].
  split; [reflexivity|]. split; [reflexivity|]. split; [reflexivity|].
  split; [exact D|]. split.
  - unfold shouldCallPull, canCloseOrEnqueue. cbn [state closeRequested].
    now destruct (closeRequested (controller s)).
  - unfold consume, read. reflexivity.
Qed.

(** An empty text from a chunk that is not the end marker, on a stream
    that is not done. *)
Lemma pull_empty_chunk s value now :
  done s = false -> processChunk value = Return [] ->
  is_end_marker utf8_decode value = false ->
  pull s (received value) now
  = match
      (let s1 := with_counts (with_lastActivity s now) (chunkCount s)
                   (S (emptyChunkCount s)) in
       if Nat.ltb 0 (chunkCount s) && Nat.leb 2 (S (emptyChunkCount s))
       then finish s1 now else Completed s1)
    with
    | Completed s' => Some s'
    | Threw s' e => Some (with_controller s' (error e (controller s')))
    | Hung => None
    end.
Proof.
  intros D P M. unfold Stream.pull, Stream.pull_body, received. rewrite D.
  cbn [result_done result_value]. rewrite P.
  unfold is_end_marker in M. rewrite M. reflexivity.
Qed.

Lemma final_chunk_same s s' now :
  responseId s' = responseId s -> stream_model s' = stream_model s ->
  final_chunk s' now = final_chunk s now.
Proof. unfold final_chunk. now intros -> ->. Qed.

(** The reads of the consumer change the chunks that wait, and nothing
    else of a stream that is open. *)
Lemma reads_open n : forall s,
  open s ->
  open (snd (reads n s))
  /\ responseId (snd (reads n s)) = responseId s
  /\ stream_model (snd (reads n s)) = stream_model s
  /\ done (snd (reads n s)) = done s
  /\ chunkCount (snd (reads n s)) = chunkCount s
  /\ emptyChunkCount (snd (reads n s)) = emptyChunkCount s
  /\ emitted (controller (snd (reads n s))) = emitted (controller s).
Proof.
  induction n as [|n IH]; intros s O; [now repeat split|].
  cbn [reads]. destruct (consume s) as [r s1] eqn:C.
  assert (K : open s1 /\ responseId s1 = responseId s
              /\ stream_model s1 = stream_model s /\ done s1 = done s
              /\ chunkCount s1 = chunkCount s
              /\ emptyChunkCount s1 = emptyChunkCount s
              /\ emitted (controller s1) = emitted (controller s)).
  { revert C. unfold consume, read, open, canCloseOrEnqueue in *.
    destruct (closeRequested (controller s)) eqn:Q; [discriminate O|].
    destruct (queue (controller s)) as [|c q]; intros [= _ <-];
      cbn [controller with_controller closeRequested state responseId
           stream_model done chunkCount emptyChunkCount emitted].
    - rewrite Q. now repeat split.
    - repeat split. cbn [negb andb] in *. now destruct q. }
  destruct K as (O1 & K1 & K2 & K3 & K4 & K5 & K6).
  destruct (IH s1 O1) as (O2 & H1 & H2 & H3 & H4 & H5 & H6).
  destruct (reads n s1) as [rs s2]. cbn [snd] in *.
  repeat split; congruence.
Qed.

(** A text that is not empty, from a chunk that is not the end marker, on
    an open stream that is not done: the content chunk is emitted, the
    chunk is counted, and the counter of the empty chunks is back at
    zero. *)
Lemma pull_content_chunk s value text now :
  done s = false -> open s ->
  processChunk value = Return text -> text <> [] ->
  is_end_marker utf8_decode value = false ->
  exists s',
    pull s (received value) now = Some s'
    /\ open s' /\ done s' = false
    /\ responseId s' = responseId s /\ stream_model s' = stream_model s
    /\ chunkCount s' = S (chunkCount s) /\ emptyChunkCount s' = 0%nat
    /\ emitted (controller s')
       = emitted (controller s) ++ [content_chunk s now text].
Proof.
  intros D O P N M. unfold Stream.pull, Stream.pull_body, received. rewrite D.
  cbn [result_done result_value]. rewrite P.
  unfold is_end_marker in M. rewrite M.
  destruct text as [|c t]; [contradiction|].
  unfold enqueueChunk, enqueue.
  cbn [controller with_counts with_lastActivity]. unfold open in O. rewrite O.
  cbn [on_controller]. eexists. split; [reflexivity|].
  unfold open, canCloseOrEnqueue in *.
  cbn [controller with_counts with_controller closeRequested state done
       responseId stream_model chunkCount emptyChunkCount emitted].
  now repeat split.
Qed.

(** The first empty chunk after content changes the counter only. *)
Lemma pull_empty_first s value now :
  done s = false -> emptyChunkCount s = 0%nat ->
  processChunk value = Return [] -> is_end_marker utf8_decode value = false ->
  exists s',
    pull s (received value) now = Some s'
    /\ done s' = false /\ controller s' = controller s
    /\ responseId s' = responseId s /\ stream_model s' = stream_model s
    /\ chunkCount s' = chunkCount s /\ emptyChunkCount s' = 1%nat.
Proof.
  intros D E P M. rewrite (@pull_empty_chunk s value now D P M), E.
  replace (Nat.leb 2 1) with false by reflexivity. rewrite andb_false_r.
  eexists. split; [reflexivity|]. now repeat split.
Qed.

(** An empty chunk that is not the first one after content ends the
    stream. *)
Lemma pull_empty_second s value now :
  done s = false -> open s ->
  (0 < chunkCount s)%nat -> (1 <= emptyChunkCount s)%nat ->
  processChunk value = Return [] -> is_end_marker utf8_decode value = false ->
  exists s',
    pull s (received value) now = Some s'
    /\ done s' = true
    /\ emitted (controller s') = emitted (controller s) ++ [final_chunk s now]
    /\ closeRequested (controller s') = true.
Proof.
  intros D O C E P M. rewrite (@pull_empty_chunk s value now D P M).
  destruct (Nat.ltb_spec 0 (chunkCount s)) as [_|L]; [|lia].
  destruct (Nat.leb_spec 2 (S (emptyChunkCount s))) as [_|L]; [|lia].
  cbn [andb]. rewrite finish_open; [|exact D|exact O].
  eexists. split; [reflexivity|]. now repeat split.
Qed.

(** X4.  Empty chunks.  Before any content, a chunk whose text is empty
    changes nothing but the counter, however many come.  A chunk with
    content sets the counter of the empty chunks back, however many came
    before it: of the empty chunks that follow it, the first is passed
    over, and the second emits the final chunk and asks to close,
    whatever the consumer reads in between. *)
Theorem pull_empty_chunks :
  (forall s value now,
     done s = false -> chunkCount s = 0%nat ->
     processChunk value = Return [] -> is_end_marker utf8_decode value = false ->
     exists s',
       pull s (received value) now = Some s'
       /\ done s' = false /\ chunkCount s' = 0%nat
       /\ controller s' = controller s)
  /\ (forall s v0 text v1 v2 t0 t1 t2 n m,
        done s = false -> open s ->
        processChunk v0 = Return text -> text <> [] ->
        is_end_marker utf8_decode v0 = false ->
        processChunk v1 = Return [] -> is_end_marker utf8_decode v1 = false ->
        processChunk v2 = Return [] -> is_end_marker utf8_decode v2 = false ->
        exists s0 s1 s2,
          pull s (received v0) t0 = Some s0
          /\ emptyChunkCount s0 = 0%nat
          /\ emitted (controller s0)
             = emitted (controller s) ++ [content_chunk s t0 text]
          /\ pull (snd (reads n s0)) (received v1) t1 = Some s1
          /\ done s1 = false
          /\ emitted (controller s1) = emitted (controller s0)
          /\ pull (snd (reads m s1)) (received v2) t2 = Some s2
          /\ done s2 = true
          /\ emitted (controller s2)
             = emitted (controller s)
               ++ [content_chunk s t0 text; final_chunk s t2]
          /\ closeRequested (controller s2) = true).
Proof.
  split.
  - intros s value now D C P M. rewrite (@pull_empty_chunk s value now D P M).
    rewrite C. cbn [Nat.ltb Nat.leb andb]. eexists. split; [reflexivity|].
    repeat split. exact D.
  - intros s v0 text v1 v2 t0 t1 t2 n m D O P0 N0 M0 P1 M1 P2 M2.
    destruct (@pull_content_chunk s v0 text t0 D O P0 N0 M0)
      as (s0 & E0 & O0 & D0 & I0 & J0 & C0 & Z0 & Q0).
    destruct (@reads_open n s0 O0) as (Oa & Ia & Ja & Da & Ca & Za & Qa).
    destruct (@pull_empty_first (snd (reads n s0)) v1 t1) as
      (s1 & E1 & D1 & K1 & I1 & J1 & C1 & Z1); [congruence..|exact P1|exact M1|].
    assert (O1 : open s1) by (unfold open in *; now rewrite K1).
    destruct (@reads_open m s1 O1) as (Ob & Ib & Jb & Db & Cb & Zb & Qb).
    destruct (@pull_empty_second (snd (reads m s1)) v2 t2) as
      (s2 & E2 & D2 & Q2 & R2);
      [congruence | exact Ob | lia | lia | exact P2 | exact M2 |].
    exists s0, s1, s2. split; [exact E0|]. split; [exact Z0|].
    split; [exact Q0|]. split; [exact E1|]. split; [exact D1|].
    split; [rewrite K1; exact Qa|]. split; [exact E2|]. split; [exact D2|].
    split; [|exact R2].
    rewrite Q2, Qb, K1, Qa, Q0, <- app_assoc. cbn [app]. do 3 f_equal.
    apply final_chunk_same; congruence.
Qed.

End StreamExtras.

Lemma pull_timer_ends_stream_witness :
  exists s',
    Stream.pull Node.utf8_decode Node.gunzip_rejects Node.JSON_parse
      Node.JSON_stringify (Stream.create (lit "chatcmpl-1") (lit "gpt-4o") 0)
      Stream.timed_out 5000
    = Some s'
    /\ Stream.done s' = true
    /\ Stream.emitted (Stream.controller s')
       = [Stream.final_chunk (Stream.create (lit "chatcmpl-1") (lit "gpt-4o") 0) 5000].
Proof.
  destruct (@pull_timer_ends_stream Node.utf8_decode Node.gunzip_rejects
              Node.JSON_parse Node.JSON_stringify
              (Stream.create (lit "chatcmpl-1") (lit "gpt-4o") 0) 5000
              eq_refl eq_refl) as (s' & P & D & E & _).
  exists s'. repeat split; assumption.
Defined.

Lemma pull_error_fails_stream_witness :
  exists s' message,
    Stream.pull Node.utf8_decode Node.gunzip_rejects Node.JSON_parse
      Node.JSON_stringify (Stream.create (lit "chatcmpl-1") (lit "gpt-4o") 0)
      (received error_frame) 1000
    = Some s'
    /\ Stream.state (Stream.controller s') = Stream.Errored message
    /\ Stream.consume s' = (Stream.Failure message, s').
Proof.
  destruct (@pull_error_fails_stream Node.utf8_decode Node.gunzip_rejects
              Node.JSON_parse Node.JSON_stringify
              (Stream.create (lit "chatcmpl-1") (lit "gpt-4o") 0) error_frame
              (lit "API Error: " ++ dquote ++ lit "boom" ++ dquote) 1000
              eq_refl eq_refl)
    as (s' & P & S & _ & _ & _ & _ & C).
  - vm_compute. reflexivity.
  - exists s', (lit "API Error: " ++ dquote ++ lit "boom" ++ dquote).
    repeat split; assumption.
Defined.

(** ** processChunk: framed messages and gzip data *)

Section ProcessChunkExtras.

Import Wire Streaming.

Variable utf8_decode : list byte -> jsstring.
Variable gunzip : list byte -> option (list byte).
Variable JSON_parse : jsstring -> JSON + jsstring.
Variable JSON_stringify : JSON -> jsstring.

Local Abbreviation processChunk :=
  (processChunk utf8_decode gunzip JSON_parse JSON_stringify).
Local Abbreviation decodedText := (decodedText utf8_decode).

Lemma framed_length ms w : framed ms w -> (List.length ms <= List.length w)%nat.
Proof.
  induction 1 as [|hdr body ms w Lh _ _ IH]; [cbn; lia|].
  cbn [List.length]. rewrite !length_app. lia.
Qed.

Lemma first_byte_zero chunk :
  nth_error chunk 0 = Some x00 ->
  header_magic x01 chunk = false /\ header_magic x02 chunk = false
  /\ gzip_magic chunk = false.
Proof.
  intro H. unfold header_magic, gzip_magic. rewrite H. now cbn.
Qed.

(** X5.  A chunk of framed messages, the first of them shorter than 2^32
    bytes (the chunk starts with the byte 00): when one of them at least
    decodes to a text that is not empty, [processChunk] returns these texts
    joined, as they are, with no cleaning; when none does, it returns the
    chunk read as UTF-8 and cleaned. *)
Theorem processChunk_framed ms w tail :
  framed ms w -> stops tail = true ->
  nth_error (w ++ tail) 0 = Some x00 ->
  processChunk (w ++ tail)
  = Return match flat_map decodedText ms with
           | [] => cleanResponseText (utf8_decode (w ++ tail))
           | texts => List.concat texts
           end.
Proof.
  intros F St Z. destruct (first_byte_zero _ Z) as (H1 & H2 & G).
  assert (P : Wire.parseHexResponse utf8_decode (S (List.length (w ++ tail)))
                (toString_hex (w ++ tail))
              = Some (flat_map decodedText ms)).
  { unfold Wire.parseHexResponse.
    apply (@parseLoop_framed utf8_decode ms w F [] tail []); [exact St|].
    pose proof (framed_length F). rewrite length_app. lia. }
  assert (R : processChunk_rest utf8_decode gunzip (w ++ tail)
              = Return match flat_map decodedText ms with
                       | [] => cleanResponseText (utf8_decode (w ++ tail))
                       | texts => List.concat texts
                       end).
  { unfold processChunk_rest. rewrite G, P.
    now destruct (flat_map decodedText ms). }
  unfold Streaming.processChunk, processChunk_body.
  rewrite H1, H2. cbv zeta. cbn [skipn]. rewrite G.
  change (Nat.ltb 0 0) with false. cbv iota.
  destruct (Nat.ltb 5 (List.length (w ++ tail))); now rewrite R.
Qed.

(** X6.  Gzip data that decompresses, alone or after a header 01 00 00 or
    02 00 00: [processChunk] returns the decompressed text, cleaned.  It
    does not look for an error in it: the text of an error response that
    comes compressed is returned like any other. *)
Theorem processChunk_gzip :
  (forall chunk data,
     gzip_magic chunk = true -> gunzip chunk = Some data ->
     processChunk chunk = Return (cleanResponseText (utf8_decode data)))
  /\ (forall chunk data,
        (5 < List.length chunk)%nat ->
        header_magic x01 chunk || header_magic x02 chunk = true ->
        gzip_magic (skipn 5 chunk) = true ->
        gunzip (skipn 5 chunk) = Some data ->
        processChunk chunk = Return (cleanResponseText (utf8_decode data))).
Proof.
  split.
  - intros chunk data G Z. unfold Streaming.processChunk.
    rewrite (processChunk_body_gzip utf8_decode gunzip JSON_parse JSON_stringify
               chunk G).
    unfold gzip_text, decompressGzipData. now rewrite Z.
  - intros chunk data L H G Z. unfold Streaming.processChunk.
    rewrite (processChunk_body_headered_gzip utf8_decode gunzip JSON_parse
               JSON_stringify chunk L H G).
    unfold gzip_text, decompressGzipData. now rewrite Z.
Qed.

End ProcessChunkExtras.

Lemma processChunk_framed_witness :
  Streaming.processChunk Node.utf8_decode Node.gunzip_rejects Node.JSON_parse
    Node.JSON_stringify hello_frames
  = Streaming.Return (lit "Hello!").
Proof.
  change hello_frames
    with (([x00; x00; x00; x00; x07; x0a; x05; x48; x65; x6c; x6c; x6f]
           ++ [x00; x00; x00; x00; x03; x0a; x01; x21]) ++ []).
  rewrite (@processChunk_framed Node.utf8_decode Node.gunzip_rejects
             Node.JSON_parse Node.JSON_stringify
             [[x0a; x05; x48; x65; x6c; x6c; x6f]; [x0a; x01; x21]]).
  - vm_compute. reflexivity.
  - apply (@framed_cons [x00; x00; x00; x00; x07]
             [x0a; x05; x48; x65; x6c; x6c; x6f] [[x0a; x01; x21]]
             [x00; x00; x00; x00; x03; x0a; x01; x21]);
      [reflexivity | reflexivity |].
    rewrite <- (app_nil_r [x00; x00; x00; x00; x03; x0a; x01; x21]).
    apply (@framed_cons [x00; x00; x00; x00; x03] [x0a; x01; x21] [] []);
      [reflexivity | reflexivity | apply framed_nil].
  - reflexivity.
  - reflexivity.
Defined.

Lemma processChunk_gzip_witness :
  Node.gunzip_stored gzip_error
  = Some (Node.utf8_encode (lit "{" ++ dquote ++ lit "error" ++ dquote ++ lit ":"
                            ++ dquote ++ lit "boom" ++ dquote ++ lit "}"))
  /\ Streaming.processChunk Node.utf8_decode Node.gunzip_stored Node.JSON_parse
       Node.JSON_stringify gzip_error
     = Streaming.Return (lit "{" ++ dquote ++ lit "error" ++ dquote ++ lit ":"
                         ++ dquote ++ lit "boom" ++ dquote ++ lit "}").
Proof.
  split; [vm_compute; reflexivity|].
  rewrite (proj1 (@processChunk_gzip Node.utf8_decode Node.gunzip_stored
                    Node.JSON_parse Node.JSON_stringify)
             gzip_error
             (Node.utf8_encode (lit "{" ++ dquote ++ lit "error" ++ dquote
                                ++ lit ":" ++ dquote ++ lit "boom" ++ dquote
                                ++ lit "}"))).
  - vm_compute. reflexivity.
  - reflexivity.
  - vm_compute. reflexivity.
Defined.

(** ** cleanResponseText: what the cleaned text is made of *)

Section CleanExtras.

(** X7.  The text that [cleanResponseText] returns is a contiguous part of
    its input, with no white space at its ends and no [<|END_USER|>] in
    it. *)
Theorem cleanResponseText_part x :
  factor (cleanResponseText x) x
  /\ trim (cleanResponseText x) = cleanResponseText x
  /\ includes END_USER (cleanResponseText x) = false.
Proof.
  assert (E : factor [] x /\ trim [] = [] /\ includes END_USER [] = false).
  { split; [exists [], x; reflexivity|]. split; reflexivity. }
  unfold cleanResponseText.
  destruct (eqb (trim x) (lit "{}") || eqb (trim x) []); [exact E|].
  destruct (systemPromptRegex_test x); [exact E|]. cbv zeta.
  split; [apply factor_steps|]. split; [apply trim_idem|].
  apply includes_false. intro M. apply (replace_upto_no_marker x).
  refine (factor_occurs _ M).
  eapply factor_trans; [apply factor_trim|].
  eapply factor_trans; [apply factor_replace_trailing_braces|].
  eapply factor_trans; [apply factor_trim|].
  apply factor_replace_leading_newline.
Qed.

End CleanExtras.

(** ** lib/protobuf.ts: the responses *)

Section ResponseExtras.

Import Wire.

Variable utf8_decode : list byte -> jsstring.

Local Abbreviation parseLoop := (parseLoop utf8_decode).
Local Abbreviation parseHexResponse := (parseHexResponse utf8_decode).
Local Abbreviation decodeResMessage := (decodeResMessage utf8_decode).
Local Abbreviation decodeLoop := (decodeLoop utf8_decode).

Lemma collect_nonempty d results :
  Forall (fun t : jsstring => t <> []) results ->
  Forall (fun t : jsstring => t <> []) (collect d results).
Proof.
  intro F. unfold collect. destruct d as [[[[|c t]|]]|]; try exact F.
  apply Forall_app. split; [exact F|]. constructor; [discriminate | constructor].
Qed.

Lemma parseLoop_nonempty fuel : forall hex offset results r,
  parseLoop fuel hex offset results = Some r ->
  Forall (fun t : jsstring => t <> []) results ->
  Forall (fun t : jsstring => t <> []) r.
Proof.
  induction fuel as [|f IH]; intros hex offset results r E F; [discriminate E|].
  cbn [Wire.parseLoop] in E.
  destruct (negb _); [now inversion E; subst|].
  destruct (Z.ltb _ _); [now inversion E; subst|].
  destruct (parseInt16 _) as [dataLength|].
  - destruct (Z.ltb _ _); [now inversion E; subst|].
    destruct (Wire.decodeResMessage _ _ _) as [d|]; [|discriminate E].
    apply (IH _ _ _ _ E). now apply collect_nonempty.
  - destruct (Wire.decodeResMessage _ _ _) as [d|]; [|discriminate E].
    cbn [option_map] in E. inversion E; subst. now apply collect_nonempty.
Qed.

(** X8.  On the hexadecimal rendering of any bytes, [parseHexResponse]
    returns (its scan ends), every text it returns is one that is not
    empty, and fewer than five bytes give no text. *)
Theorem parseHexResponse_texts chunk :
  exists texts,
    parseHexResponse (S (List.length chunk)) (toString_hex chunk) = Some texts
    /\ Forall (fun t : jsstring => t <> []) texts
    /\ ((List.length chunk < 5)%nat -> texts = []).
Proof.
  destruct (parseHexResponse (S (List.length chunk)) (toString_hex chunk))
    as [texts|] eqn:E.
  - exists texts. split; [reflexivity|]. split.
    + unfold Wire.parseHexResponse in E.
      eapply parseLoop_nonempty; [exact E | constructor].
    + intro L. unfold Wire.parseHexResponse in E.
      rewrite parseLoop_end in E; [now inversion E | lia |].
      left. rewrite toString_hex_length. lia.
  - exfalso. revert E. apply parseHexResponse_terminates.
Qed.

(** X9.  [parseHexResponse] does not return on a text whose first ten
    characters read as the length -5: the offset, moved by ten and by twice
    the length, is back where it was, and the results do not change. *)
Theorem parseHexResponse_never_returns hex fuel :
  (10 <= List.length hex)%nat ->
  parseInt16 (slice hex 0 10) = Some (-5)%Z ->
  parseHexResponse fuel hex = None.
Proof.
  intros L P. unfold Wire.parseHexResponse. generalize (@nil jsstring).
  induction fuel as [|f IH]; intro results; [reflexivity|].
  cbn [Wire.parseLoop].
  destruct (Z.ltb_spec 0 (Z.of_nat (List.length hex))) as [_|G]; [|lia].
  cbn [negb].
  destruct (Z.ltb_spec (Z.of_nat (List.length hex)) (0 + 10)) as [G|_]; [lia|].
  change (0 + 10)%Z with 10%Z. rewrite P.
  change (10 + -5 * 2)%Z with 0%Z.
  destruct (Z.ltb_spec (Z.of_nat (List.length hex)) 0) as [G|_]; [lia|].
  assert (S0 : slice hex 10 0 = []).
  { unfold slice. cbv zeta. change (10 <? 0)%Z with false. change (0 <? 0)%Z with false.
    cbv iota. rewrite Z.min_l by lia. rewrite Z.min_l by lia. reflexivity. }
  rewrite S0. change (Buffer_from_hex []) with (@nil byte).
  rewrite decodeResMessage_empty. apply IH.
Qed.

Lemma read_string_bytes b bs rest :
  (N.of_nat (List.length bs) < 2 ^ 32)%N ->
  Pb.read_string utf8_decode b (Pb.uint32 (Z.of_nat (List.length bs)) ++ bs ++ rest)
  = Pb.Got (utf8_decode bs) rest.
Proof.
  intro H. unfold Pb.read_string. rewrite read_uint32_length by exact H.
  rewrite Nat2N.id, firstn_app, Nat.sub_diag, firstn_O, app_nil_r, firstn_all.
  rewrite skipn_app, Nat.sub_diag, skipn_all. cbn [app skipn].
  destruct (N.ltb_spec (N.of_nat (List.length (bs ++ rest)))
              (N.of_nat (List.length bs))) as [L|L];
    [rewrite length_app in L; lia|].
  now rewrite andb_false_r.
Qed.

Lemma skip_exact n p rest :
  List.length p = N.to_nat n -> Pb.skip n (p ++ rest) = Pb.Got tt rest.
Proof.
  intro L. unfold Pb.skip.
  destruct (N.ltb_spec (N.of_nat (List.length (p ++ rest))) n) as [G|_];
    [rewrite length_app in G; lia|].
  now rewrite <- L, skipn_app, Nat.sub_diag, skipn_all.
Qed.

Lemma skip_varint_continues init : forall rest,
  forallb (fun b => N.leb 128 (b2n b)) init = true ->
  Pb.skip_varint (init ++ rest) = Pb.skip_varint rest.
Proof.
  induction init as [|b init IH]; intros rest F; [reflexivity|].
  cbn [forallb] in F. apply andb_true_iff in F as [B F].
  cbn [app Pb.skip_varint]. apply N.leb_le in B.
  assert (T : N.testbit (b2n b) 7 = true).
  { pose proof (b2n_lt b) as U. rewrite N.testbit_true. change (2 ^ 7)%N with 128%N.
    assert (Q : (b2n b / 128 = 1)%N).
    { apply N.le_antisymm.
      - apply N.lt_succ_r. apply N.Div0.div_lt_upper_bound. lia.
      - apply N.div_le_lower_bound; lia. }
    now rewrite Q. }
  rewrite T. now apply IH.
Qed.

Lemma skip_varint_exact p rest :
  is_varint p = true -> Pb.skip_varint (p ++ rest) = Pb.Got tt rest.
Proof.
  unfold is_varint. intro V.
  destruct (rev p) as [|last init] eqn:E; [discriminate V|].
  apply andb_true_iff in V as [Lt F].
  assert (P : p = rev init ++ [last]) by (now rewrite <- (rev_involutive p), E).
  rewrite P, <- app_assoc, skip_varint_continues.
  - cbn [app Pb.skip_varint]. apply N.ltb_lt in Lt.
    assert (T : N.testbit (b2n last) 7 = false).
    { rewrite N.testbit_false. change (2 ^ 7)%N with 128%N.
      now rewrite N.div_small. }
    now rewrite T.
  - rewrite forallb_forall in F |- *. intros x I. apply F. now apply in_rev.
Qed.

Lemma tag_parts number wire :
  (wire < 8)%N ->
  N.shiftr (8 * number + wire) 3 = number /\ N.land (8 * number + wire) 7 = wire.
Proof.
  intro W. split.
  - rewrite N.shiftr_div_pow2. change (2 ^ 3)%N with 8%N.
    rewrite N.mul_comm, N.div_add_l by discriminate.
    now rewrite N.div_small, N.add_0_r.
  - change 7%N with (N.ones 3). rewrite N.land_ones. change (2 ^ 3)%N with 8%N.
    rewrite N.add_comm, N.mul_comm, N.Div0.mod_add. now apply N.mod_small.
Qed.

(** One field of the buffer, in the loop of [decodeResMessage]. *)
Lemma decodeLoop_entry f b e rest m :
  wellformed e = true ->
  decodeLoop (S f) b (entry_bytes e ++ rest) m
  = decodeLoop f b rest (last_text utf8_decode [e] m).
Proof.
  intro W. cbn [Wire.decodeLoop].
  destruct (entry_bytes e ++ rest) as [|c r0] eqn:E.
  { exfalso. destruct e; unfold entry_bytes in E;
      apply app_eq_nil in E as [E _]; apply app_eq_nil in E as [E _];
      now apply uint32_not_nil in E. }
  rewrite <- E. clear E c r0.
  destruct e as [bs|number wire p]; unfold entry_bytes, wellformed in *.
  - apply N.ltb_lt in W. rewrite <- app_assoc.
    rewrite read_uint32_uint32 by (split; [lia | reflexivity]).
    change (N.eqb (N.shiftr (Z.to_N 10) 3) 1) with true. cbv iota.
    rewrite <- app_assoc, read_string_bytes by exact W. reflexivity.
  - apply andb_true_iff in W as [W Wp]. apply andb_true_iff in W as [Wn Wt].
    apply N.ltb_lt in Wt. apply negb_true_iff in Wn.
    assert (W8 : (wire < 8)%N)
      by (destruct wire as [|[[|[]|]|[|[]|]|]]; try discriminate Wp; lia).
    destruct (tag_parts number W8) as [Tn Tw].
    rewrite <- app_assoc.
    rewrite read_uint32_uint32
      by (change (2 ^ 32)%Z with 4294967296%Z; change (2 ^ 32)%N with 4294967296%N in Wt; lia).
    rewrite N2Z.id, Tn, Wn, Tw.
    assert (K : Pb.skipType
                  (S (List.length
                        (match wire with
                         | 2%N => Pb.uint32 (Z.of_nat (List.length p)) ++ p
                         | _ => p
                         end ++ rest))) wire
                  (match wire with
                   | 2%N => Pb.uint32 (Z.of_nat (List.length p)) ++ p
                   | _ => p
                   end ++ rest)
                = Some (Pb.Got tt rest)).
    { destruct wire as [|[[|[]|]|[|[]|]|]]; try discriminate Wp; cbn [Pb.skipType].
      - now rewrite skip_varint_exact.
      - apply Nat.eqb_eq in Wp. now rewrite skip_exact.
      - apply N.ltb_lt in Wp. rewrite <- app_assoc.
        rewrite read_uint32_length by exact Wp.
        rewrite skip_exact; [reflexivity | now rewrite Nat2N.id].
      - apply Nat.eqb_eq in Wp. now rewrite skip_exact. }
    now rewrite K.
Qed.

Lemma uint32_length_pos z : (1 <= List.length (Pb.uint32 z))%nat.
Proof.
  pose proof (@uint32_not_nil z) as H.
  destruct (Pb.uint32 z); [congruence | cbn [List.length]; lia].
Qed.

Lemma entry_bytes_length e : (1 <= List.length (entry_bytes e))%nat.
Proof.
  destruct e as [bs|number wire p]; unfold entry_bytes; rewrite length_app.
  - pose proof (uint32_length_pos 10). lia.
  - pose proof (uint32_length_pos (Z.of_N (8 * number + wire))). lia.
Qed.

Lemma decodeLoop_entries b es : forall fuel m,
  forallb wellformed es = true ->
  (List.length (flat_map entry_bytes es) < fuel)%nat ->
  decodeLoop fuel b (flat_map entry_bytes es) m
  = Some (Pb.Got (last_text utf8_decode es m) []).
Proof.
  induction es as [|e es IH]; intros fuel m W L.
  - destruct fuel; [cbn in L; lia | reflexivity].
  - cbn [forallb] in W. apply andb_true_iff in W as [We W].
    cbn [flat_map] in *. rewrite length_app in L.
    pose proof (entry_bytes_length e).
    destruct fuel as [|f]; [lia|].
    rewrite decodeLoop_entry by exact We.
    rewrite IH; [reflexivity | exact W | lia].
Qed.

(** X10.  [decodeResMessage] on a buffer of well-formed fields returns the
    text of the last field 1, and skips the fields of the other numbers
    (varints, fixed 32 and 64 bits, bytes with their length); with no
    field 1 the message has no [msg]. *)
Theorem decodeResMessage_last_text b es :
  forallb wellformed es = true ->
  decodeResMessage b (flat_map entry_bytes es)
  = Some (Some (last_text utf8_decode es {| msg := None |})).
Proof.
  intro W. unfold Wire.decodeResMessage.
  now rewrite decodeLoop_entries by (exact W || lia).
Qed.

End ResponseExtras.

Lemma parseHexResponse_never_returns_witness :
  Wire.parseHexResponse Node.utf8_decode 1000 (lit "-0000000050a0548656c6c6f") = None.
Proof.
  apply (@parseHexResponse_never_returns Node.utf8_decode
           (lit "-0000000050a0548656c6c6f") 1000%nat).
  - simpl. lia.
  - vm_compute. reflexivity.
Defined.

Lemma decodeResMessage_last_text_witness :
  Wire.decodeResMessage Node.utf8_decode true
    ([x10; x96; x01] ++ [x0a; x02; x4e; x6f] ++ [x1a; x01; xff]
     ++ [x0a; x02; x48; x69] ++ [x25; x00; x00; x00; x00])
  = Some (Some {| Wire.msg := Some (lit "Hi") |}).
Proof.
  exact (@decodeResMessage_last_text Node.utf8_decode true
           [Other 2 0 [x96; x01]; Text [x4e; x6f]; Other 3 2 [xff];
            Text [x48; x69]; Other 4 5 [x00; x00; x00; x00]]
           eq_refl).
Defined.

(** ** lib/protobuf.ts: random identifiers *)

Section IdExtras.

Import Ids.

Variable random_index : nat -> N -> N.
Hypothesis random_in_range : in_range random_index.


Lemma char_at_drawn dict k :
  dict <> [] ->
  exists c, char_at dict (random_index k (N.of_nat (List.length dict))) = [c]
            /\ In c dict.
Proof.
  intro Ne. unfold char_at.
  assert (L : (random_index k (N.of_nat (List.length dict))
               < N.of_nat (List.length dict))%N).
  { apply random_in_range. destruct dict; [congruence | cbn [List.length]; lia]. }
  destruct (nth_error dict (N.to_nat _)) as [c|] eqn:E.
  - exists c. split; [reflexivity|]. now apply nth_error_In in E.
  - apply nth_error_None in E. lia.
Qed.

Lemma draw_drawn turns dict : forall k result,
  dict <> [] ->
  exists drawn,
    draw random_index turns dict k result = (result ++ drawn, (k + turns)%nat)
    /\ List.length drawn = turns
    /\ Forall (fun c => In c dict) drawn.
Proof.
  induction turns as [|n IH]; intros k result Ne.
  - exists []. rewrite app_nil_r, Nat.add_0_r. repeat split. constructor.
  - cbn [draw]. destruct (char_at_drawn k Ne) as (c & -> & I).
    destruct (IH (S k) (result ++ [c]) Ne) as (drawn & -> & L & F).
    exists (c :: drawn). rewrite <- app_assoc. cbn [app List.length].
    replace (S k + n)%nat with (k + S n)%nat by lia.
    repeat split; [now rewrite L | now constructor].
Qed.


(** X12.  The checksum of [generateChecksum] is 137 characters: [zo], 70
    characters of the 64-character dictionary, a slash, and 64 more; the
    slash is the only one, the dictionary having none. *)
Theorem generateChecksum_shape k :
  exists a c,
    generateChecksum random_index k
    = (lit "zo" ++ a ++ lit "/" ++ c, (k + 134)%nat)
    /\ List.length a = 70%nat /\ List.length c = 64%nat
    /\ Forall (fun x => In x max) (a ++ c)
    /\ ~ In 47%N (a ++ c).
Proof.
  unfold generateChecksum, generateRandomId.
  change (dictionary {| size := 6; dictType := Some (lit "max"); customDict := None |})
    with max.
  change (dictionary {| size := 64; dictType := Some (lit "max"); customDict := None |})
    with max.
  cbn [size]. change (Z.to_nat 6) with 6%nat. change (Z.to_nat 64) with 64%nat.
  assert (Ne : max <> []) by discriminate.
  destruct (draw_drawn 6 k [] Ne) as (a & -> & La & Fa).
  destruct (draw_drawn 64 (k + 6) [] Ne) as (b & -> & Lb & Fb).
  destruct (draw_drawn 64 (k + 6 + 64) [] Ne) as (c & -> & Lc & Fc).
  cbn [app]. exists (a ++ b), c.
  assert (F : Forall (fun x => In x max) ((a ++ b) ++ c))
    by (rewrite !Forall_app; auto).
  split; [|split; [|split; [|split]]].
  - rewrite <- !app_assoc. f_equal. lia.
  - rewrite length_app. lia.
  - exact Lc.
  - exact F.
  - intro I. rewrite Forall_forall in F. specialize (F _ I).
    revert F. vm_compute. intuition discriminate.
Qed.

End IdExtras.

Lemma counting_in_range : in_range counting.
Proof. intros k n L. unfold counting. apply N.mod_lt. lia. Qed.


Lemma generateChecksum_shape_witness :
  exists a c,
    Ids.generateChecksum counting 0
    = (lit "zo" ++ a ++ lit "/" ++ c, 134%nat)
    /\ List.length a = 70%nat /\ List.length c = 64%nat.
Proof.
  destruct (@generateChecksum_shape counting counting_in_range 0%nat)
    as (a & c & E & La & Lc & _).
  exists a, c. repeat split; assumption.
Defined.

(** ** core/api.ts: the request and its retries *)

Section RequestExtras.

Import Api.

Variable maxRetries : Z.
Variable fetch : nat -> Fetched.

Local Abbreviation attempts := (attempts maxRetries fetch).
Local Abbreviation request := (request maxRetries fetch).

Lemma backoff_succ k :
  backoff (S k) = backoff k ++ [Fetch k; Sleep (2 ^ Z.of_nat k * 1000)].
Proof. unfold backoff. now rewrite seq_S, flat_map_app. Qed.



Lemma attempts_trace turns : forall j lastError,
  (Z.of_nat (j + turns) = maxRetries + 1)%Z -> (0 < turns)%nat ->
  exists k, (j + k < j + turns)%nat
            /\ fst (attempts turns j lastError)
               = flat_map (fun i => [Fetch i; Sleep (2 ^ Z.of_nat i * 1000)])
                   (seq j k) ++ [Fetch (j + k)%nat].
Proof.
  induction turns as [|n IH]; intros j lastError M T; [lia|].
  cbn [Api.attempts].
  destruct (attempt_result (fetch j)) as [r|e].
  { exists 0%nat. rewrite Nat.add_0_r. split; [lia | reflexivity]. }
  destruct (final e).
  { exists 0%nat. rewrite Nat.add_0_r. split; [lia | reflexivity]. }
  destruct (Z.eqb_spec (Z.of_nat j) maxRetries) as [E|N].
  { exists 0%nat. rewrite Nat.add_0_r. split; [lia | reflexivity]. }
  destruct (IH (S j) (Some e)) as (k & L & E); [lia | lia |].
  destruct (attempts n (S j) (Some e)) as [events ended]. cbn [fst] in *.
  exists (S k). split; [lia|]. rewrite E. cbn [seq flat_map app].
  now replace (S j + k)%nat with (j + S k)%nat by lia.
Qed.

(** X14.  However the attempts end, [request] makes at most
    [maxRetries + 1] of them, one after the other, and waits 1000 * 2^i ms
    after the [i]-th before the next; with a negative [maxRetries] it
    makes none and throws an [APIError]. *)
Theorem request_attempts :
  ((0 <= maxRetries)%Z ->
   exists k, (Z.of_nat k <= maxRetries)%Z
             /\ fst request = backoff k ++ [Fetch k])
  /\ ((maxRetries < 0)%Z ->
      request
      = ([], inr {| class := APIError;
                    message := lit "Request failed after all retries";
                    status := None |})).
Proof.
  split; intro M; unfold Api.request.
  - destruct (@attempts_trace (Z.to_nat (maxRetries + 1)) 0%nat None)
      as (k & L & E); [lia | lia |].
    exists k. split; [lia|].
    destruct (attempts (Z.to_nat (maxRetries + 1)) 0 None). exact E.
  - replace (Z.to_nat (maxRetries + 1)) with 0%nat by lia. reflexivity.
Qed.

End RequestExtras.

(** X15.  A response that is not ok, by its status: below 500 the error
    keeps the status, and it is a client error, not tried again, unless
    the status is 0; from 500 on the error has the status 500 whatever the
    response says, and the request is tried again.  A rate limit (429) is
    a client error. *)
Theorem fromResponse_status s text :
  Api.isCursorError (Api.fromResponse s text) = true
  /\ ((s < 500)%Z ->
      Api.status (Api.fromResponse s text) = Some s
      /\ Api.final (Api.fromResponse s text) = negb (Z.eqb s 0))
  /\ ((500 <= s)%Z ->
      Api.status (Api.fromResponse s text) = Some 500%Z
      /\ Api.class (Api.fromResponse s text) = Api.InternalServerError
      /\ Api.final (Api.fromResponse s text) = false)
  /\ Api.class (Api.fromResponse 429 text) = Api.RateLimitError.
Proof.
  unfold Api.fromResponse, Api.final, Api.isCursorError.
  split; [|split; [|split]].
  - repeat (destruct (Z.eqb _ _); [reflexivity|]). now destruct (Z.leb _ _).
  - intro L.
    destruct (Z.eqb_spec s 400) as [->|]; [now split|].
    destruct (Z.eqb_spec s 401) as [->|]; [now split|].
    destruct (Z.eqb_spec s 403) as [->|]; [now split|].
    destruct (Z.eqb_spec s 404) as [->|]; [now split|].
    destruct (Z.eqb_spec s 429) as [->|]; [now split|].
    destruct (Z.leb_spec 500 s); [lia|]. cbn.
    split; [reflexivity|]. destruct (Z.ltb_spec s 500); [|lia].
    now rewrite andb_true_r.
  - intro G.
    destruct (Z.eqb_spec s 400); [lia|]. destruct (Z.eqb_spec s 401); [lia|].
    destruct (Z.eqb_spec s 403); [lia|]. destruct (Z.eqb_spec s 404); [lia|].
    destruct (Z.eqb_spec s 429); [lia|].
    destruct (Z.leb_spec 500 s); [|lia]. now cbn.
  - reflexivity.
Qed.


Lemma request_attempts_witness :
  exists k, (Z.of_nat k <= 2)%Z
            /\ fst (Api.request 2 limited) = backoff k ++ [Api.Fetch k].
Proof.
  apply (proj1 (@request_attempts 2 limited)). lia.
Defined.

(** ** resources/chat/completions.ts: the completion that is not streamed *)

Section ProtobufTextExtras.

Import Completion.

Lemma scanProtobuf_fuel f1 : forall f2 text,
  (List.length text <= f1)%nat -> (List.length text <= f2)%nat ->
  scanProtobuf f1 text = scanProtobuf f2 text.
Proof.
  induction f1 as [|f1 IH]; intros f2 text L1 L2.
  - destruct text; [|cbn in L1; lia]. now destruct f2.
  - destruct f2 as [|f2]; [destruct text; [reflexivity | cbn in L2; lia]|].
    destruct text as [|char rest]; [reflexivity|].
    cbn [List.length] in L1, L2. cbn [scanProtobuf].
    rewrite (IH f2 rest) by lia.
    destruct (N.eqb char 10); [|reflexivity].
    destruct rest as [|length rest']; [reflexivity|].
    destruct (_ && _); [|reflexivity].
    cbn [List.length] in L1, L2.
    rewrite (IH f2 (skipn (N.to_nat length) rest'))
      by (rewrite length_skipn; lia).
    reflexivity.
Qed.

Lemma scanProtobuf_field f (length : char16) (rest' : jsstring) :
  N.ltb 0 length && N.leb length (N.of_nat (List.length rest')) = true ->
  scanProtobuf (S f) (10%N :: length :: rest')
  = firstn (N.to_nat length) rest'
    ++ scanProtobuf f (skipn (N.to_nat length) rest').
Proof.
  intro P. cbn [scanProtobuf]. cbv zeta. change (N.eqb 10 10) with true.
  cbv iota. now rewrite P.
Qed.

Lemma scanProtobuf_block f c rest :
  c <> [] -> (List.length (block c ++ rest) <= f)%nat ->
  scanProtobuf f (block c ++ rest) = c ++ scanProtobuf f rest.
Proof.
  intros Ne L. unfold block in *. cbn [app List.length] in L.
  destruct f as [|f]; [lia|]. cbn [app].
  assert (P : N.ltb 0 (N.of_nat (List.length c))
              && N.leb (N.of_nat (List.length c)) (N.of_nat (List.length (c ++ rest)))
              = true).
  { apply andb_true_iff. split.
    - apply N.ltb_lt. destruct c; [congruence | cbn [List.length]; lia].
    - apply N.leb_le. rewrite length_app. lia. }
  etransitivity; [exact (@scanProtobuf_field f _ _ P)|].
  rewrite Nat2N.id, firstn_app, Nat.sub_diag, firstn_O, app_nil_r, firstn_all.
  rewrite skipn_app, Nat.sub_diag, skipn_all. cbn [app skipn].
  f_equal. apply scanProtobuf_fuel; rewrite length_app in L; lia.
Qed.

Lemma scanProtobuf_blocks cs : forall f,
  Forall (fun c : jsstring => c <> []) cs ->
  (List.length (flat_map block cs) <= f)%nat ->
  scanProtobuf f (flat_map block cs) = List.concat cs.
Proof.
  induction cs as [|c cs IH]; intros f F L.
  - now destruct f.
  - apply Forall_cons_iff in F as [Ne F]. cbn [flat_map List.concat] in *.
    rewrite scanProtobuf_block by assumption. f_equal. apply IH; [exact F|].
    rewrite length_app in L. lia.
Qed.

Lemma scanProtobuf_printable text : forall f,
  forallb isPrintable text = true -> (List.length text <= f)%nat ->
  scanProtobuf f text = text.
Proof.
  induction text as [|c text IH]; intros f P L; [now destruct f|].
  cbn [forallb] in P. apply andb_true_iff in P as [Pc P].
  cbn [List.length] in L. destruct f as [|f]; [lia|]. cbn [scanProtobuf].
  rewrite Pc, (IH f P) by lia.
  destruct (N.eqb_spec c 10) as [->|_]; [discriminate Pc | reflexivity].
Qed.

(** X16.  [cleanProtobufText] takes the texts out of their fields: on a
    text made of string fields as they read in a message (a line feed,
    the length as a character, the text), it returns the texts joined,
    whatever characters they hold, and trimmed; a text of printable ASCII
    characters only is returned trimmed. *)
Theorem cleanProtobufText_fields :
  (forall cs,
     Forall (fun c : jsstring => c <> []) cs ->
     cleanProtobufText (flat_map block cs) = trim (List.concat cs))
  /\ (forall text,
        forallb isPrintable text = true -> cleanProtobufText text = trim text).
Proof.
  split.
  - intros cs F. unfold cleanProtobufText.
    now rewrite scanProtobuf_blocks.
  - intros text P. unfold cleanProtobufText.
    now rewrite scanProtobuf_printable.
Qed.

End ProtobufTextExtras.

Lemma cleanProtobufText_fields_witness :
  Completion.cleanProtobufText
    ([10; 5]%N ++ lit "Hello" ++ [10; 2; 10; 33]%N)
  = lit "Hello" ++ [10; 33]%N.
Proof.
  exact (proj1 cleanProtobufText_fields [lit "Hello"; [10; 33]%N]
           ltac:(repeat constructor; discriminate)).
Defined.

Section ResponseChunksExtras.

Import Streaming Completion.

Variable utf8_decode : list byte -> jsstring.
Variable gunzip : list byte -> option (list byte).
Variable JSON_parse : jsstring -> JSON + jsstring.
Variable JSON_stringify : JSON -> jsstring.

Local Abbreviation processChunk :=
  (Streaming.processChunk utf8_decode gunzip JSON_parse JSON_stringify).
Local Abbreviation scanChunks :=
  (scanChunks utf8_decode gunzip JSON_parse JSON_stringify).
Local Abbreviation processResponseChunks :=
  (processResponseChunks utf8_decode gunzip JSON_parse JSON_stringify).
Local Abbreviation gunzipChunks := (gunzipChunks utf8_decode gunzip).



Lemma readUIntBE_from acc l :
  fold_left (fun a b => (a * 256 + b2n b)%N) l acc
  = (acc * 256 ^ N.of_nat (List.length l) + readUIntBE l)%N.
Proof.
  unfold readUIntBE. revert acc. induction l as [|b l IH]; intro acc.
  - cbn. lia.
  - cbn [fold_left List.length]. rewrite IH, (IH (0 * 256 + b2n b)%N).
    rewrite Nat2N.inj_succ, N.pow_succ_r'. lia.
Qed.

Lemma readUIntBE_first b l :
  (b2n b * 256 ^ N.of_nat (List.length l) <= readUIntBE (b :: l))%N.
Proof.
  unfold readUIntBE at 1. cbn [fold_left]. rewrite readUIntBE_from. lia.
Qed.

(** A byte that holds the length of what follows it, and what follows:
    read as framed messages, nothing. *)
Lemma length_byte_stops payload :
  (0 < List.length payload < 256)%nat ->
  stops (n2b (N.of_nat (List.length payload)) :: payload) = true.
Proof.
  intro L. unfold stops. apply orb_true_iff.
  destruct (Nat.lt_ge_cases (List.length payload) 4) as [S4|G4].
  - left. apply Nat.ltb_lt. cbn [List.length]. lia.
  - right. apply N.ltb_lt.
    destruct payload as [|a [|b [|c [|d rest]]]]; cbn [List.length] in G4; try lia.
    cbn [firstn skipn].
    pose proof (readUIntBE_first (n2b (N.of_nat (List.length (a :: b :: c :: d :: rest))))
                  [a; b; c; d]) as R.
    rewrite b2n_n2b in R by lia. cbn [List.length] in R |- *.
    change (256 ^ N.of_nat 4)%N with 4294967296%N in R. lia.
Qed.

Lemma is_byte_length n v :
  (n < 256)%N -> n <> b2n v -> is_byte (Some (n2b n)) v = false.
Proof.
  intros L N. unfold is_byte. destruct (Byte.eqb (n2b n) v) eqn:E; [|reflexivity].
  apply Byte.byte_dec_bl in E. subst v. now rewrite b2n_n2b in N.
Qed.

(** X18.  A framed message of fewer than 256 bytes, alone in a chunk: its
    header starts with four zero bytes, which [processResponseChunks] cuts
    off, and [processChunk] gets the length byte and the message.  These
    are no framed message any more: the text is the length byte and the
    message read as UTF-8, and cleaned. *)
Theorem processResponseChunks_short_frame payload :
  (0 < List.length payload < 256)%nat ->
  gzip_magic (n2b (N.of_nat (List.length payload)) :: payload) = false ->
  processResponseChunks
    [[x00; x00; x00; x00; n2b (N.of_nat (List.length payload))] ++ payload]
  = Return (Clean.cleanResponseText
              (utf8_decode (n2b (N.of_nat (List.length payload)) :: payload))).
Proof.
  intros L G.
  set (d := n2b (N.of_nat (List.length payload)) :: payload) in *.
  assert (P : processChunk d = Return (Clean.cleanResponseText (utf8_decode d))).
  { assert (R : processChunk_rest utf8_decode gunzip d
                = Return (Clean.cleanResponseText (utf8_decode d))).
    { unfold processChunk_rest. rewrite G. unfold Wire.parseHexResponse.
      pose proof (@parseLoop_stops utf8_decode (List.length d) [] d []
                    (@length_byte_stops payload L)) as E.
      cbn [app List.length] in E. change (2 * Z.of_nat 0)%Z with 0%Z in E.
      cbn [List.length]. now rewrite E. }
    unfold Streaming.processChunk, processChunk_body.
    destruct (Nat.ltb_spec 5 (List.length d)) as [L5|_]; [|now rewrite R].
    assert (H1 : header_magic x01 d = false).
    { unfold header_magic, d. cbn [nth_error].
      rewrite is_byte_length; [reflexivity | lia |].
      unfold d in L5. cbn [List.length] in L5. cbn. lia. }
    assert (H2 : header_magic x02 d = false).
    { unfold header_magic, d. cbn [nth_error].
      rewrite is_byte_length; [reflexivity | lia |].
      unfold d in L5. cbn [List.length] in L5. cbn. lia. }
    rewrite H1, H2. cbv zeta. cbn [skipn]. rewrite G.
    change (Nat.ltb 0 0) with false. cbv iota. now rewrite R. }
  destruct payload as [|a rest]; [cbn in L; lia|].
  assert (Gp : gzip_payload ([x00; x00; x00; x00;
                               n2b (N.of_nat (List.length (a :: rest)))]
                              ++ a :: rest) = None) by reflexivity.
  assert (Z : zero_prefix ([x00; x00; x00; x00;
                             n2b (N.of_nat (List.length (a :: rest)))]
                            ++ a :: rest) = true) by reflexivity.
  unfold Completion.processResponseChunks. cbn [Completion.scanChunks].
  rewrite Gp, Z. cbn [app skipn].
  change (n2b (N.of_nat (List.length (a :: rest))) :: a :: rest) with d.
  rewrite P. cbn [Completion.gunzipChunks]. now rewrite app_nil_r.
Qed.


End ResponseChunksExtras.


Section CompletionTextExtras.

Import Streaming Completion.

Variable JSON_parse : jsstring -> JSON + jsstring.
Variable JSON_stringify : JSON -> jsstring.

Local Abbreviation cleanResponseText :=
  (Completion.cleanResponseText JSON_parse JSON_stringify).
Local Abbreviation error_response :=
  (Completion.error_response JSON_parse JSON_stringify).

Lemma upto_last_brace_none q :
  forallb (fun c => negb (N.eqb c 125)) q = true -> upto_last_brace q = None.
Proof.
  induction q as [|c q IH]; [reflexivity|]. cbn [forallb upto_last_brace].
  intro F. apply andb_true_iff in F as [C F]. rewrite (IH F).
  apply negb_true_iff in C. now rewrite C.
Qed.

Lemma upto_last_brace_last b q :
  forallb (fun c => negb (N.eqb c 125)) q = true ->
  upto_last_brace (b ++ 125%N :: q) = Some (b ++ [125%N]).
Proof.
  intro F. induction b as [|c b IH].
  - cbn [app upto_last_brace]. now rewrite (upto_last_brace_none q F).
  - cbn [app upto_last_brace]. now rewrite IH.
Qed.

Lemma takeWhile_app p a b :
  forallb p a = true -> takeWhile p (a ++ b) = a ++ takeWhile p b.
Proof.
  induction a as [|c a IH]; [reflexivity|]. cbn [forallb app takeWhile].
  intro F. apply andb_true_iff in F as [C F]. now rewrite C, IH.
Qed.

Lemma takeWhile_keeps p q s :
  forallb q s = true -> forallb q (takeWhile p s) = true.
Proof.
  induction s as [|c s IH]; [reflexivity|]. cbn [forallb takeWhile].
  intro F. apply andb_true_iff in F as [C F].
  destruct (p c); [|reflexivity]. cbn [forallb]. now rewrite C, IH.
Qed.

(** The match of the object: no opening brace before it, no end of line
    in it, no closing brace after it. *)
Lemma match_object_span pre body post :
  forallb (fun c => negb (N.eqb c 123)) pre = true ->
  forallb (fun c => negb (isLineTerminator c)) body = true ->
  forallb (fun c => negb (N.eqb c 125)) post = true ->
  match_object (pre ++ 123%N :: body ++ 125%N :: post)
  = Some (123%N :: body ++ [125%N]).
Proof.
  intros Fp Fb Fq. induction pre as [|c pre IH].
  - cbn [app match_object]. change (N.eqb 123 123) with true. cbv iota.
    rewrite takeWhile_app by exact Fb. cbn [takeWhile].
    change (negb (isLineTerminator 125%N)) with true. cbv iota.
    rewrite upto_last_brace_last; [reflexivity|].
    now apply takeWhile_keeps.
  - cbn [forallb] in Fp. apply andb_true_iff in Fp as [C Fp].
    apply negb_true_iff in C. cbn [app match_object]. rewrite C. now apply IH.
Qed.

Lemma final_text_trimmed text : trim (final_text text) = final_text text.
Proof.
  unfold final_text. cbv zeta. destruct (_ || _); [reflexivity | apply trim_idem].
Qed.

Lemma truthy_some o r : truthy o = Some r -> o = Some r.
Proof. destruct o as [[|c s]|]; cbn; congruence. Qed.

Lemma completion_text_trimmed text r :
  cleanResponseText text = Return r -> trim r = r.
Proof.
  unfold Completion.cleanResponseText.
  destruct (error_response text); [discriminate|].
  destruct (match indexOf BEGIN_SYSTEM text with
            | Some (S n) => truthy (Some (before_system text (S n)))
            | _ => None
            end) as [cleanedBefore|] eqn:B.
  { intros [= <-]. destruct (indexOf BEGIN_SYSTEM text) as [[|n]|];
      try discriminate B.
    apply truthy_some in B. injection B as <-. unfold before_system.
    cbv zeta. apply trim_idem. }
  destruct (truthy (assistant_content text)) as [cleaned|] eqn:A.
  { intros [= <-]. apply truthy_some in A. unfold assistant_content in A.
    destruct (lastIndexOf BEGIN_ASSISTANT text); [|discriminate A].
    destruct (lastIndexOf END_ASSISTANT text); [|discriminate A].
    destruct (Nat.ltb _ _); [|discriminate A].
    injection A as <-. apply trim_idem. }
  destruct (truthy (after_user text)) as [cleaned|] eqn:U.
  { intros [= <-]. apply truthy_some in U. unfold after_user in U.
    destruct (lastIndexOf END_USER text); [|discriminate U].
    injection U as <-. apply trim_idem. }
  intros [= <-]. apply final_text_trimmed.
Qed.

(** X19.  [cleanResponseText] of the completions: the text it returns has
    no white space at its ends; and when the text holds an object (an
    opening brace, the first of the text, and a closing brace, the last,
    on one line) that parses with an [error] that is truthy, it throws an
    error whose message is [API Error: ] and then the serialized [error],
    whatever else the text holds. *)
Theorem cleanResponseText_completion :
  (forall text r, cleanResponseText text = Return r -> trim r = r)
  /\ (forall pre body post parsed err,
        forallb (fun c => negb (N.eqb c 123)) pre = true ->
        forallb (fun c => negb (isLineTerminator c)) body = true ->
        forallb (fun c => negb (N.eqb c 125)) post = true ->
        JSON_parse (123%N :: body ++ [125%N]) = inl parsed ->
        get_error parsed = Some err -> to_boolean err = true ->
        cleanResponseText (pre ++ 123%N :: body ++ 125%N :: post)
        = Throw (lit "API Error: "
                 ++ or_else (JSON_stringify err) (lit "Unknown error"))).
Proof.
  split; [exact completion_text_trimmed|].
  intros pre body post parsed err Fp Fb Fq P G T.
  unfold Completion.cleanResponseText, Completion.error_response.
  rewrite (match_object_span pre body post Fp Fb Fq).
  unfold error_check. rewrite P, G, T. reflexivity.
Qed.

Lemma indexOf_absent m s : ~ occurs m s -> indexOf m s = None.
Proof.
  induction s as [|c s IH]; intro H.
  - cbn [indexOf]. destruct (startsWith m []) eqn:E; [|reflexivity].
    exfalso. apply H. apply startsWith_inv in E. now exists [], (skipn (List.length m) []).
  - cbn [indexOf]. destruct (startsWith m (c :: s)) eqn:E.
    + exfalso. apply H. apply startsWith_inv in E.
      now exists [], (skipn (List.length m) (c :: s)).
    + rewrite IH; [reflexivity|]. intro O. apply H. now apply occurs_cons.
Qed.

Lemma indexOf_start m s : startsWith m s = true -> indexOf m s = Some 0%nat.
Proof. intro E. destruct s; cbn [indexOf]; now rewrite E. Qed.

Lemma lastIndexOf_absent m s : ~ occurs m s -> lastIndexOf m s = None.
Proof.
  induction s as [|c s IH]; intro H.
  - cbn [lastIndexOf]. destruct (startsWith m []) eqn:E; [|reflexivity].
    exfalso. apply H. apply startsWith_inv in E. now exists [], (skipn (List.length m) []).
  - cbn [lastIndexOf]. rewrite IH by (intro O; apply H; now apply occurs_cons).
    destruct (startsWith m (c :: s)) eqn:E; [|reflexivity].
    exfalso. apply H. apply startsWith_inv in E.
    now exists [], (skipn (List.length m) (c :: s)).
Qed.

Lemma lastIndexOf_last c m' pre rest :
  ~ In c m' -> ~ occurs (c :: m') rest ->
  lastIndexOf (c :: m') (pre ++ (c :: m') ++ rest) = Some (List.length pre).
Proof.
  intros Hc Hr. induction pre as [|x pre IH].
  - cbn [app lastIndexOf].
    rewrite (lastIndexOf_absent (no_overlap Hc Hr)).
    now rewrite (startsWith_app (c :: m') rest
                 : startsWith (c :: m') (c :: m' ++ rest) = true).
  - cbn [app lastIndexOf List.length]. cbn [app] in IH. now rewrite IH.
Qed.

Lemma slice_middle (a b c : jsstring) :
  Wire.slice (a ++ b ++ c) (Z.of_nat (List.length a))
    (Z.of_nat (List.length a + List.length b))
  = b.
Proof.
  unfold Wire.slice. cbv zeta. rewrite !length_app.
  destruct (Z.ltb_spec (Z.of_nat (List.length a)) 0) as [G|_]; [lia|].
  destruct (Z.ltb_spec (Z.of_nat (List.length a + List.length b)) 0) as [G|_]; [lia|].
  rewrite !Z.min_l by lia.
  replace (Z.to_nat (Z.of_nat (List.length a + List.length b)
                     - Z.of_nat (List.length a))) with (List.length b) by lia.
  rewrite Nat2Z.id, skipn_app, skipn_all, Nat.sub_diag. cbn [app skipn].
  now rewrite firstn_app, Nat.sub_diag, firstn_O, app_nil_r, firstn_all.
Qed.

(** X20.  The answer between the assistant markers.  For a text with no
    error response in it and no [<|BEGIN_SYSTEM|>] past its start, that
    holds [<|BEGIN_ASSISTANT|>], an answer that is not blank, and
    [<|END_ASSISTANT|>], these being the last markers of their kind:
    [cleanResponseText] returns the answer, trimmed, and nothing of what
    stands before or after the markers. *)
Theorem cleanResponseText_assistant pre body post :
  error_response (pre ++ BEGIN_ASSISTANT ++ body ++ END_ASSISTANT ++ post) = None ->
  startsWith BEGIN_SYSTEM (pre ++ BEGIN_ASSISTANT ++ body ++ END_ASSISTANT ++ post)
  = true
  \/ includes BEGIN_SYSTEM (pre ++ BEGIN_ASSISTANT ++ body ++ END_ASSISTANT ++ post)
     = false ->
  includes BEGIN_ASSISTANT (body ++ END_ASSISTANT ++ post) = false ->
  includes END_ASSISTANT post = false ->
  trim body <> [] ->
  cleanResponseText (pre ++ BEGIN_ASSISTANT ++ body ++ END_ASSISTANT ++ post)
  = Return (trim body).
Proof.
  intros E Sy B N T. unfold Completion.cleanResponseText. rewrite E.
  assert (I : match indexOf BEGIN_SYSTEM
                      (pre ++ BEGIN_ASSISTANT ++ body ++ END_ASSISTANT ++ post) with
              | Some (S n) =>
                  truthy (Some (before_system
                                  (pre ++ BEGIN_ASSISTANT ++ body
                                   ++ END_ASSISTANT ++ post) (S n)))
              | _ => None
              end = None).
  { destruct Sy as [Sy|Sy].
    - now rewrite (indexOf_start _ _ Sy).
    - apply includes_false in Sy. now rewrite (indexOf_absent Sy). }
  rewrite I. clear I.
  assert (A : assistant_content
                (pre ++ BEGIN_ASSISTANT ++ body ++ END_ASSISTANT ++ post)
              = Some (trim body)).
  { unfold assistant_content.
    apply includes_false in B. apply includes_false in N.
    assert (L1 : lastIndexOf BEGIN_ASSISTANT
                   (pre ++ BEGIN_ASSISTANT ++ body ++ END_ASSISTANT ++ post)
                 = Some (List.length pre)).
    { apply (@lastIndexOf_last 60%N (lit "|BEGIN_ASSISTANT|>") pre
               (body ++ END_ASSISTANT ++ post));
        [vm_compute; intuition discriminate | exact B]. }
    assert (L2 : lastIndexOf END_ASSISTANT
                   (pre ++ BEGIN_ASSISTANT ++ body ++ END_ASSISTANT ++ post)
                 = Some (List.length (pre ++ BEGIN_ASSISTANT ++ body))).
    { replace (pre ++ BEGIN_ASSISTANT ++ body ++ END_ASSISTANT ++ post)
        with ((pre ++ BEGIN_ASSISTANT ++ body) ++ END_ASSISTANT ++ post)
        by (now rewrite <- !app_assoc).
      apply (@lastIndexOf_last 60%N (lit "|END_ASSISTANT|>")
               (pre ++ BEGIN_ASSISTANT ++ body) post);
        [vm_compute; intuition discriminate | exact N]. }
    rewrite L1, L2.
    destruct (Nat.ltb_spec (List.length pre)
                (List.length (pre ++ BEGIN_ASSISTANT ++ body))) as [_|G];
      [|rewrite !length_app in G; cbn in G; lia].
    f_equal. f_equal.
    replace (pre ++ BEGIN_ASSISTANT ++ body ++ END_ASSISTANT ++ post)
      with ((pre ++ BEGIN_ASSISTANT) ++ body ++ END_ASSISTANT ++ post)
      by (now rewrite <- !app_assoc).
    replace (List.length pre + List.length BEGIN_ASSISTANT)%nat
      with (List.length (pre ++ BEGIN_ASSISTANT)) by (now rewrite length_app).
    replace (List.length (pre ++ BEGIN_ASSISTANT ++ body))
      with (List.length (pre ++ BEGIN_ASSISTANT) + List.length body)%nat
      by (rewrite !length_app; lia).
    apply slice_middle. }
  rewrite A. destruct (trim body) as [|c t]; [contradiction | reflexivity].
Qed.

End CompletionTextExtras.

Lemma processResponseChunks_short_frame_witness :
  Completion.processResponseChunks Node.utf8_decode Node.gunzip_rejects
    Node.JSON_parse Node.JSON_stringify
    [[x00; x00; x00; x00; x07; x0a; x05; x48; x65; x6c; x6c; x6f]]
  = Streaming.Return ([7; 10; 5]%N ++ lit "Hello")
  /\ Streaming.processChunk Node.utf8_decode Node.gunzip_rejects
       Node.JSON_parse Node.JSON_stringify
       [x00; x00; x00; x00; x07; x0a; x05; x48; x65; x6c; x6c; x6f]
     = Streaming.Return (lit "Hello").
Proof.
  split; [|vm_compute; reflexivity].
  etransitivity.
  - apply (@processResponseChunks_short_frame Node.utf8_decode
             Node.gunzip_rejects Node.JSON_parse Node.JSON_stringify
             [x0a; x05; x48; x65; x6c; x6c; x6f]).
    + simpl. lia.
    + reflexivity.
  - vm_compute. reflexivity.
Defined.

Lemma pull_empty_chunks_witness :
  exists s0 s1 s2,
    Stream.pull Node.utf8_decode Node.gunzip_rejects Node.JSON_parse
      Node.JSON_stringify after_empties (received content_frame) 2000 = Some s0
    /\ Stream.emptyChunkCount s0 = 0%nat
    /\ Stream.pull Node.utf8_decode Node.gunzip_rejects Node.JSON_parse
         Node.JSON_stringify (snd (reads 1 s0)) (received end_frame_01) 3000
       = Some s1
    /\ Stream.done s1 = false
    /\ Stream.pull Node.utf8_decode Node.gunzip_rejects Node.JSON_parse
         Node.JSON_stringify (snd (reads 0 s1)) (received end_frame_01) 4000
       = Some s2
    /\ Stream.done s2 = true.
Proof.
  destruct (proj2 (@pull_empty_chunks Node.utf8_decode Node.gunzip_rejects
                     Node.JSON_parse Node.JSON_stringify)
              after_empties content_frame (lit "Hi") end_frame_01 end_frame_01
              2000%Z 3000%Z 4000%Z 1%nat 0%nat)
    as (s0 & s1 & s2 & P0 & Z0 & _ & P1 & D1 & _ & P2 & D2 & _).
  - reflexivity.
  - reflexivity.
  - vm_compute. reflexivity.
  - discriminate.
  - reflexivity.
  - vm_compute. reflexivity.
  - reflexivity.
  - vm_compute. reflexivity.
  - reflexivity.
  - exists s0, s1, s2. repeat split; assumption.
Defined.

Lemma cleanResponseText_completion_witness :
  Completion.cleanResponseText Node.JSON_parse Node.JSON_stringify
    (lit "Hi" ++ 123%N :: (dquote ++ lit "error" ++ dquote ++ lit ":" ++ dquote
                           ++ lit "boom" ++ dquote) ++ 125%N :: lit " ")
  = Streaming.Throw (lit "API Error: " ++ dquote ++ lit "boom" ++ dquote).
Proof.
  apply (proj2 (@cleanResponseText_completion Node.JSON_parse Node.JSON_stringify)
           (lit "Hi")
           (dquote ++ lit "error" ++ dquote ++ lit ":" ++ dquote ++ lit "boom"
            ++ dquote)
           (lit " ") (JObject [(lit "error", JString (lit "boom"))])
           (JString (lit "boom")));
    vm_compute; reflexivity.
Defined.

Lemma cleanResponseText_assistant_witness :
  Completion.cleanResponseText Node.JSON_parse Node.JSON_stringify marked_answer
  = Streaming.Return (lit "Hello!").
Proof.
  apply (@cleanResponseText_assistant Node.JSON_parse Node.JSON_stringify
           (lit "<|BEGIN_SYSTEM|>Be brief.<|END_SYSTEM|><|BEGIN_USER|>Hi<|END_USER|>")
           (lit " Hello! ") []).
  - vm_compute. reflexivity.
  - left. vm_compute. reflexivity.
  - vm_compute. reflexivity.
  - vm_compute. reflexivity.
  - vm_compute. discriminate.
Defined.

(** ** lib/protobuf.ts: processChunk *)

Section LibChunkExtras.

Import Streaming.

Variable utf8_decode : list byte -> jsstring.

(** X21.  [processChunk] of lib/protobuf.ts returns for every chunk, and
    throws nothing.  On framed messages it returns their texts joined when
    one at least has a text that is not empty, and else the chunk read as
    UTF-8, as it is. *)
Theorem lib_processChunk_returns :
  (forall chunk, exists text, Protobuf.processChunk utf8_decode chunk = Return text)
  /\ (forall ms w tail,
        framed ms w -> stops tail = true ->
        Protobuf.processChunk utf8_decode (w ++ tail)
        = Return match flat_map (decodedText utf8_decode) ms with
                 | [] => utf8_decode (w ++ tail)
                 | texts => List.concat texts
                 end).
Proof.
  split.
  - intro chunk. unfold Protobuf.processChunk.
    pose proof (@parseHexResponse_terminates utf8_decode chunk) as T.
    destruct (Wire.parseHexResponse _ _ _) as [[|m ms]|]; [now eexists.. | contradiction].
  - intros ms w tail F St. unfold Protobuf.processChunk, Wire.parseHexResponse.
    rewrite (@parseLoop_framed utf8_decode ms w F [] tail []);
      [now destruct (flat_map _ ms) | exact St |].
    pose proof (framed_length F). rewrite length_app. lia.
Qed.

End LibChunkExtras.

(** ** core/api.ts: the client and its headers *)

Section HeaderExtras.

Import Api.

Variable url_host : jsstring -> option jsstring.

Lemma get_app a b key :
  get (a ++ b) key = match get b key with
                     | Some v => Some v
                     | None => get a key
                     end.
Proof.
  induction a as [|[k v] a IH]; [cbn; now destruct (get b key)|].
  cbn [app get]. rewrite IH. now destruct (get b key).
Qed.

Lemma startsWith_other x m c s :
  c <> x -> startsWith (x :: m) (c :: s) = false.
Proof.
  intro N. cbn [startsWith]. destruct (N.eqb_spec x c) as [->|_]; [congruence | reflexivity].
Qed.

Lemma afterFirst_after x m a b :
  ~ In x a -> afterFirst (x :: m) (a ++ (x :: m) ++ b) = Some b.
Proof.
  intro N. induction a as [|c a IH].
  - cbn [app afterFirst].
    rewrite (startsWith_app (x :: m) b
             : startsWith (x :: m) (x :: m ++ b) = true).
    change (x :: m ++ b) with ((x :: m) ++ b).
    now rewrite skipn_app, skipn_all, Nat.sub_diag.
  - cbn [app afterFirst].
    rewrite startsWith_other by (intro E; apply N; now left).
    apply IH. intro I. apply N. now right.
Qed.

Lemma afterFirst_without x m a : ~ In x a -> afterFirst (x :: m) a = None.
Proof.
  intro N. induction a as [|c a IH]; [reflexivity|].
  cbn [afterFirst]. rewrite startsWith_other by (intro E; apply N; now left).
  apply IH. intro I. apply N. now right.
Qed.

Lemma beforeFirst_before x m a b :
  ~ In x a -> beforeFirst (x :: m) (a ++ (x :: m) ++ b) = a.
Proof.
  intro N. induction a as [|c a IH].
  - cbn [app beforeFirst].
    now rewrite (startsWith_app (x :: m) b
                 : startsWith (x :: m) (x :: m ++ b) = true).
  - cbn [app beforeFirst].
    rewrite startsWith_other by (intro E; apply N; now left).
    f_equal. apply IH. intro I. apply N. now right.
Qed.

Lemma beforeFirst_without x m a : ~ In x a -> beforeFirst (x :: m) a = a.
Proof.
  intro N. induction a as [|c a IH]; [reflexivity|].
  cbn [beforeFirst]. rewrite startsWith_other by (intro E; apply N; now left).
  f_equal. apply IH. intro I. apply N. now right.
Qed.

(** X22.  The headers of a request.  The key that [authorization] bears is
    the API key of the client's options, trimmed, and of it the part
    between its first and its second [%3A%3A] (to its end, with one
    [%3A%3A] only), the key itself when it has none; stated here for
    parts that hold no percent sign.  A header that the request gives goes
    before the default header of the client of that name, and that before
    the one the client sets itself, [authorization] included. *)
Theorem createHeaders_values :
  (forall user token,
     ~ In 37%N user -> ~ In 37%N token ->
     cleanApiKey (user ++ separator ++ token) = token
     /\ (forall more,
           cleanApiKey (user ++ separator ++ token ++ separator ++ more) = token)
     /\ cleanApiKey token = token)
  /\ (forall settings client options host,
        new_APIClient settings = inl client ->
        url_host (client_baseURL client) = Some host ->
        exists headers,
          createHeaders url_host client options = Some headers
          /\ get (own_headers client (streams options) host) (lit "authorization")
             = Some (lit "Bearer " ++ cleanApiKey (trim (apiKey settings)))
          /\ forall key,
               get headers key
               = first_of
                   [ match options with
                     | Some o => match request_headers o with
                                 | Some h => get h key
                                 | None => None
                                 end
                     | None => None
                     end;
                     get (client_defaultHeaders client) key;
                     get (own_headers client (streams options) host) key ]).
Proof.
  split.
  - intros user token Nu Nt. unfold cleanApiKey, separator.
    change (lit "%3A%3A") with (37%N :: lit "3A%3A").
    split; [|split].
    + rewrite afterFirst_after by exact Nu. now apply beforeFirst_without.
    + intro more. rewrite afterFirst_after by exact Nu.
      now apply beforeFirst_before.
    + now rewrite afterFirst_without.
  - intros settings client options host C U. unfold createHeaders. rewrite U.
    cbv zeta.
    assert (K : client_apiKey client = trim (apiKey settings)).
    { unfold new_APIClient in C. destruct (apiKey settings); [discriminate C|].
      destruct (checksum settings); [discriminate C|].
      destruct (has_fetch settings); [|discriminate C]. now injection C as <-. }
    eexists. split; [reflexivity|]. split; [cbn [own_headers get]; now rewrite K|].
    intro key. rewrite !get_app. unfold first_of, streams. cbn [fold_right].
    destruct options as [[[h|] st]|]; cbn [request_headers request_stream get].
    + destruct (get h key); [reflexivity|].
      destruct (get (client_defaultHeaders client) key); [reflexivity|].
      now destruct (get (own_headers client _ host) key).
    + destruct (get (client_defaultHeaders client) key); [reflexivity|].
      now destruct (get (own_headers client _ host) key).
    + destruct (get (client_defaultHeaders client) key); [reflexivity|].
      now destruct (get (own_headers client _ host) key).
Qed.

End HeaderExtras.

Lemma createHeaders_values_witness :
  Api.cleanApiKey (lit "user_01%3A%3Atoken") = lit "token"
  /\ Api.cleanApiKey (lit "a%3A%3Ab%3A%3Ac") = lit "b".
Proof.
  destruct (proj1 (@createHeaders_values (fun _ => None)) (lit "user_01") (lit "token"))
    as (E & _ & _); [vm_compute; intuition discriminate.. |].
  destruct (proj1 (@createHeaders_values (fun _ => None)) (lit "a") (lit "b"))
    as (_ & F & _); [vm_compute; intuition discriminate.. |].
  split; [exact E | exact (F (lit "c"))].
Defined.

(** ** The request: roles, identifiers, and the post *)

Section RequestShapeExtras.

Import Wire Completions.

Variable uuidv4 : nat -> jsstring.
Variable utf8_encode : jsstring -> list byte.
Variable Response Result : Type.
Variable post : jsstring -> list byte -> option Api.RequestOptions -> Response.
Variable createStream_result : Response -> jsstring -> jsstring -> Result.
Variable createCompletion_result : Response -> jsstring -> jsstring -> Result.

Lemma formatMessages_nth ms : forall k i m,
  nth_error ms i = Some m ->
  nth_error (formatMessages uuidv4 ms k) i
  = Some {| content := Some (OpenAI.content m);
            role := Some (user_role (OpenAI.role m));
            messageId := Some (uuidv4 (k + i)) |}.
Proof.
  induction ms as [|m0 ms IH]; intros k i m E; [destruct i; discriminate E|].
  destruct i as [|i]; cbn [nth_error formatMessages] in *.
  - injection E as ->. now rewrite Nat.add_0_r.
  - rewrite (IH (S k) i m E).
    now replace (S k + i)%nat with (k + S i)%nat by lia.
Qed.

Lemma formatMessages_length ms : forall k,
  List.length (formatMessages uuidv4 ms k) = List.length ms.
Proof. induction ms as [|m ms IH]; intro k; cbn; [reflexivity | now rewrite IH]. Qed.

Lemma validateMessages_roles ms :
  validateMessages ms = None ->
  Forall (fun m => known_role (OpenAI.role m) = true
                   /\ OpenAI.content m <> [] /\ OpenAI.role m <> []) ms.
Proof.
  induction ms as [|m ms IH]; intro V; [constructor|].
  cbn [validateMessages] in V.
  destruct (isEmpty (OpenAI.role m) || isEmpty (OpenAI.content m)) eqn:E;
    [discriminate V|].
  destruct (known_role (OpenAI.role m)) eqn:K; [|discriminate V].
  apply orb_false_iff in E as [Er Ec].
  cbn [negb] in V. constructor; [|now apply IH].
  split; [exact K|].
  split; intro Z; rewrite Z in *; discriminate.
Qed.

(** X23.  The messages of a request in the format of Cursor: as many as
    were given, in their order, each with its content, with the role 1
    for [user] and 2 for every other role, and with the identifier of the
    next call of [uuidv4]; the request and the conversation take the two
    identifiers after those.  In a request that [validateParams] accepts,
    the role 2 stands for [system] and for [assistant] alike. *)
Theorem convertToCursorFormat_roles ms modelName k :
  exists l,
    Wire.messages (fst (convertToCursorFormat uuidv4 ms modelName k)) = Some l
    /\ List.length l = List.length ms
    /\ (forall i m,
          nth_error ms i = Some m ->
          nth_error l i
          = Some {| content := Some (OpenAI.content m);
                    role := Some (if eqb (OpenAI.role m) (lit "user")
                                  then 1%Z else 2%Z);
                    messageId := Some (uuidv4 (k + i)) |})
    /\ requestId (fst (convertToCursorFormat uuidv4 ms modelName k))
       = Some (uuidv4 (k + List.length ms))
    /\ conversationId (fst (convertToCursorFormat uuidv4 ms modelName k))
       = Some (uuidv4 (k + List.length ms + 1))
    /\ snd (convertToCursorFormat uuidv4 ms modelName k)
       = (k + List.length ms + 2)%nat
    /\ (validateMessages ms = None ->
        forall i m,
          nth_error ms i = Some m ->
          (user_role (OpenAI.role m) = 2%Z
           <-> OpenAI.role m = lit "system" \/ OpenAI.role m = lit "assistant")).
Proof.
  exists (formatMessages uuidv4 ms k). unfold convertToCursorFormat. cbn [fst snd Wire.messages requestId conversationId].
  split; [reflexivity|]. split; [apply formatMessages_length|].
  split; [intros i m E; apply (formatMessages_nth ms k i E)|].
  split; [reflexivity|]. split; [reflexivity|]. split; [reflexivity|].
  intros V i m E. apply validateMessages_roles in V.
  rewrite Forall_forall in V. destruct (V m (nth_error_In _ _ E)) as (K & _ & _).
  unfold known_role in K. unfold user_role.
  destruct (eqb (OpenAI.role m) (lit "user")) eqn:U.
  - apply eqb_eq in U. rewrite U. split; [discriminate|].
    intros [Z|Z]; discriminate Z.
  - split; [|reflexivity]. intros _.
    apply orb_true_iff in K as [K|K]; [apply orb_true_iff in K as [K|K]|].
    + left. now apply eqb_eq.
    + congruence.
    + right. now apply eqb_eq.
Qed.

(** X24.  A request that the validation accepts, with any request
    options: [create] encodes it once and posts it once, to the path of
    [StreamChat].  A streaming request is posted with the options of the
    caller and [stream] set; a request that is not streaming is posted
    with the options of the caller as they are, so that the stream flag
    of the post is the one of the options, not the one of the request.
    The headers of the options are passed on in both.  The identifier of
    the response is [chatcmpl-] and the identifier that [uuidv4] gives
    after those of the messages, of the request and of the
    conversation. *)
Theorem create_valid_request params options k :
  invalid params = false ->
  let hexData :=
    fst (createHexMessage uuidv4 utf8_encode (messages params) (model params) k) in
  let responseId :=
    lit "chatcmpl-" ++ uuidv4 (k + List.length (messages params) + 2) in
  let path := lit "/aiserver.v1.AiService/StreamChat" in
  let sent := if stream params then Some (streaming options) else options in
  create uuidv4 utf8_encode post createStream_result createCompletion_result
    params options k
  = ([Encoded hexData; Posted path hexData sent],
     inl (if stream params
          then createStream_result (post path hexData sent) responseId (model params)
          else createCompletion_result (post path hexData sent) responseId
                 (model params)))
  /\ streams sent = stream params || streams options
  /\ match sent with Some o => Api.request_headers o | None => None end
     = match options with Some o => Api.request_headers o | None => None end.
Proof.
  unfold invalid. intro H.
  apply orb_false_iff in H as [H Hm]. apply orb_false_iff in H as [He Hx].
  assert (V : validateParams params = None).
  { unfold validateParams. destruct (messages params); [discriminate|].
    rewrite Hm. now apply validateMessages_accepts. }
  cbv zeta. unfold create. rewrite V. unfold createHexMessage.
  unfold convertToCursorFormat. cbn [fst snd].
  destruct (stream params); repeat split.
Qed.

End RequestShapeExtras.

Lemma create_valid_request_witness :
  fst (Completions.create Node.uuidv4 Node.utf8_encode (fun _ _ _ => tt)
         (fun _ _ _ => tt) (fun _ _ _ => tt)
         {| Completions.messages := hello; Completions.model := lit "gpt-4o";
            Completions.stream := false |}
         (Some {| Api.request_headers := None; Api.request_stream := Some true |})
         0)
  = [ Completions.Encoded
        (fst (Wire.createHexMessage Node.uuidv4 Node.utf8_encode hello (lit "gpt-4o") 0));
      Completions.Posted (lit "/aiserver.v1.AiService/StreamChat")
        (fst (Wire.createHexMessage Node.uuidv4 Node.utf8_encode hello (lit "gpt-4o") 0))
        (Some {| Api.request_headers := None; Api.request_stream := Some true |}) ].
Proof.
  rewrite (proj1 (@create_valid_request Node.uuidv4 Node.utf8_encode unit unit
                    (fun _ _ _ => tt) (fun _ _ _ => tt) (fun _ _ _ => tt)
                    {| Completions.messages := hello;
                       Completions.model := lit "gpt-4o";
                       Completions.stream := false |}
                    (Some {| Api.request_headers := None;
                             Api.request_stream := Some true |})
                    0%nat eq_refl)).
  reflexivity.
Defined.

(** ** createCompletion *)

Section CreateCompletionExtras.

Import Streaming Completion.

Variable utf8_decode : list byte -> jsstring.
Variable gunzip : list byte -> option (list byte).
Variable JSON_parse : jsstring -> JSON + jsstring.
Variable JSON_stringify : JSON -> jsstring.

Local Abbreviation createCompletion :=
  (createCompletion utf8_decode gunzip JSON_parse JSON_stringify).

Lemma scanChunks_settles chunks : forall result gz,
  scanChunks utf8_decode gunzip JSON_parse JSON_stringify chunks result gz <> Hang.
Proof.
  induction chunks as [|chunk chunks IH]; intros result gz; [discriminate|].
  cbn [scanChunks]. destruct (gzip_payload chunk); [apply IH|].
  pose proof (@processChunk_returns_or_throws utf8_decode gunzip JSON_parse
                JSON_stringify (if zero_prefix chunk then skipn 4 chunk else chunk)) as P.
  destruct (Streaming.processChunk _ _ _ _ _); [apply IH | discriminate | contradiction].
Qed.

(** X25.  [createCompletion], once the chunks of the body are read,
    settles: it returns a completion or throws.  With no body it throws
    [Response body is null].  The completion it returns
    has the identifier and the model it was given, the time in seconds,
    and one choice: the role [assistant], the reason [stop], and a content
    with no white space at its ends; the usage counts are zero. *)
Theorem createCompletion_outcome :
  (forall body responseId model now,
     createCompletion body responseId model now <> Hang)
  /\ (forall responseId model now,
        createCompletion None responseId model now
        = Throw (lit "Response body is null"))
  /\ (forall body responseId model now completion,
        createCompletion body responseId model now = Return completion ->
        exists text,
          trim text = text
          /\ completion
             = {| id := responseId; object := lit "chat.completion";
                  created := (now / 1000)%Z; Completion.model := model;
                  choices :=
                    [ {| index := 0;
                         message := {| role := lit "assistant"; content := text |};
                         finish_reason := lit "stop" |} ];
                  usage := {| prompt_tokens := 0; completion_tokens := 0;
                              total_tokens := 0 |} |}).
Proof.
  split; [|split].
  - intros body responseId model now. unfold Completion.createCompletion.
    destruct body as [chunks|]; [|discriminate].
    unfold processResponseChunks.
    pose proof (@scanChunks_settles chunks [] []) as S.
    destruct (scanChunks _ _ _ _ chunks [] []) as [[result gz]| |];
      [|discriminate|contradiction].
    unfold Completion.cleanResponseText.
    destruct (Completion.error_response _ _ _); [discriminate|].
    destruct (match indexOf _ _ with Some (S _) => _ | _ => None end);
      [discriminate|].
    destruct (truthy (assistant_content _)); [discriminate|].
    destruct (truthy (after_user _)); discriminate.
  - reflexivity.
  - intros body responseId model now completion. unfold Completion.createCompletion.
    destruct body as [chunks|]; [|discriminate].
    destruct (processResponseChunks _ _ _ _ chunks) as [text| |]; try discriminate.
    destruct (Completion.cleanResponseText JSON_parse JSON_stringify text)
      as [cleaned| |] eqn:C; try discriminate.
    intros [= <-]. exists cleaned. split; [|reflexivity].
    exact (@completion_text_trimmed JSON_parse JSON_stringify text cleaned C).
Qed.

End CreateCompletionExtras.
